(** * mini-babel traversal: a shallow embedding of [NodePath] and [traverse]

    The development follows [mini-babel/src/traverse] of the repository: the
    schema table [astDefinitionsMap] of [mini-babel/src/utils.js], the class
    [NodePath] with its methods [replaceWith] and [remove], and the recursive
    walker [traverse].

    JavaScript objects are mutable and shared, so the tree lives in a store
    of objects addressed by location; a node, an array of children and the
    object a hook creates are all cells of that store.  The walker keeps
    references (its local [node], the array a [forEach] iterates) while hooks
    rewrite the store, and the model keeps exactly those references. *)

From stdpp Require Import gmap strings list fin_maps.
From Stdlib Require Import ZArith.

Open Scope string_scope.
Open Scope list_scope.
Open Scope nat_scope.

(** ** Values and the object store *)

Abbreviation loc := positive.

(** A JavaScript value: the primitives an AST carries, or a reference. *)
Inductive value : Type :=
  | VUndef
  | VNull
  | VBool (b : bool)
  | VNum (z : Z)
  | VStr (s : string)
  | VRef (l : loc).

Global Instance value_eq_dec : EqDecision value.
Proof. solve_decision. Defined.

(** An object has named properties; an array has, besides, its elements.
    [elems o = None] means: not an array ([Array.isArray] is false). Only own
    data properties are modelled: members inherited from [Object.prototype]
    or [Array.prototype], and an array's [length] or index read through a
    property name, are not. *)
Record object : Type := Obj {
  props : gmap string value;
  elems : option (list value)
}.

Abbreviation heap := (gmap loc object).

(** What the runtime or a hook throws. *)
Inductive error : Type :=
  | TypeError_read (base : value) (prop : string)
      (* Cannot read properties of undefined/null (reading 'prop') *)
  | TypeError_set (base : value) (prop : string)
      (* Cannot set properties of undefined/null (setting 'prop'), or
         Cannot create property 'prop' on a primitive *)
  | TypeError_not_a_function (prop : string)
      (* x.prop is not a function *)
  | Thrown (v : value)
      (* [throw v] in the code of a hook *)
  | NoSuchObject (l : loc).
      (* a reference to no cell of the store: impossible in JavaScript *)

Inductive result (A : Type) : Type :=
  | Done (a : A)
  | Fail (e : error).
Arguments Done {A} a.
Arguments Fail {A} e.

(** [v[k]]: member access. *)
Definition member (h : heap) (v : value) (k : string) : result value :=
  match v with
  | VUndef | VNull => Fail (TypeError_read v k)
  | VBool _ | VNum _ | VStr _ => Done VUndef
  | VRef l =>
      match h !! l with
      | Some o => Done (default VUndef (props o !! k))
      | None => Fail (NoSuchObject l)
      end
  end.

(** [v[k] = x]: assignment to a member, as in the methods of a class, whose
    bodies are strict code: on [undefined], [null] or a primitive it is a
    [TypeError]. *)
Definition set_member (h : heap) (v : value) (k : string) (x : value)
  : heap * result unit :=
  match v with
  | VUndef | VNull | VBool _ | VNum _ | VStr _ => (h, Fail (TypeError_set v k))
  | VRef l =>
      match h !! l with
      | Some o => (<[l := Obj (<[k := x]> (props o)) (elems o)]> h, Done tt)
      | None => (h, Fail (NoSuchObject l))
      end
  end.

(** [Array.isArray(v)], with the elements when it holds. *)
Definition as_array (h : heap) (v : value) : option (list value) :=
  match v with
  | VRef l => o ← h !! l; elems o
  | _ => None
  end.

Definition isArray (h : heap) (v : value) : bool :=
  bool_decide (is_Some (as_array h v)).

(** [v[i]] for an index [i]. *)
Definition index (h : heap) (v : value) (i : nat) : value :=
  match as_array h v with
  | Some es => default VUndef (es !! i)
  | None => VUndef
  end.

(** The list [Array.prototype.splice(start, 1, ...items)] leaves behind:
    [start] is clamped to the length, so past the end nothing is deleted and
    the items are appended. *)
Definition spliced (start : nat) (items : list value) (es : list value)
  : list value :=
  take start es ++ items ++ drop (S start) es.

(** [a.splice(start, 1, ...items)] on the value [a]. *)
Definition splice (h : heap) (a : value) (start : nat) (items : list value)
  : heap * result unit :=
  match a with
  | VUndef | VNull => (h, Fail (TypeError_read a "splice"))
  | VBool _ | VNum _ | VStr _ => (h, Fail (TypeError_not_a_function "splice"))
  | VRef l =>
      match h !! l with
      | Some o =>
          match elems o with
          | Some es =>
              (<[l := Obj (props o) (Some (spliced start items es))]> h, Done tt)
          | None => (h, Fail (TypeError_not_a_function "splice"))
          end
      | None => (h, Fail (NoSuchObject l))
      end
  end.

(** A new object ([{...}] or [[...]] evaluated by a hook). *)
Definition alloc (h : heap) (o : object) : loc * heap :=
  let l := fresh (dom h) in (l, <[l := o]> h).

(** ** The schema table *)

(** An entry of the table: [visitor] is the list of child-bearing fields,
    absent ([undefined]) for the leaf types; [isBlock] is the marker some
    entries of [types/index.js] carry, which the walker never reads. *)
Record definition : Type := Definition_ {
  visitor : option (list string);
  isBlock : bool
}.

(** [astDefinitionsMap] of [mini-babel/src/utils.js]. *)
Definition astDefinitionsMap : gmap string definition :=
  list_to_map [
    ("Program", Definition_ (Some ["body"]) false);
    ("VariableDeclaration", Definition_ (Some ["declarations"]) false);
    ("VariableDeclarator", Definition_ (Some ["id"; "init"]) false);
    ("Identifier", Definition_ None false);
    ("NumericLiteral", Definition_ None false)
  ].

(** [map.get(v)]: the keys of the table are strings, and [Map] compares
    with SameValueZero, so only a string finds an entry. *)
Definition Map_get (m : gmap string definition) (v : value)
  : option definition :=
  match v with
  | VStr s => m !! s
  | _ => None
  end.

(** [visitorKeys] of [mini-babel/src/types/index.js], the larger table. *)
Definition visitorKeys : gmap string definition :=
  list_to_map [
    ("Program", Definition_ (Some ["body"]) true);
    ("VariableDeclaration", Definition_ (Some ["declarations"]) false);
    ("VariableDeclarator", Definition_ (Some ["id"; "init"]) false);
    ("Identifier", Definition_ None false);
    ("NumericLiteral", Definition_ None false);
    ("FunctionDeclaration", Definition_ (Some ["id"; "params"; "body"]) true);
    ("BlockStatement", Definition_ (Some ["body"]) false);
    ("ReturnStatement", Definition_ (Some ["argument"]) false);
    ("BinaryExpression", Definition_ (Some ["left"; "right"]) false);
    ("ExpressionStatement", Definition_ (Some ["expression"]) false);
    ("CallExpression", Definition_ (Some ["callee"; "arguments"]) false)
  ].

(** ** NodePath *)

(** The members of a path as the constructor assigns them. Nothing in the
    source assigns to them afterwards, so a path is a value here; [parent]
    is [undefined], and [key] and [listKey] are absent, in the path of the
    node a walk starts from. *)
#[warnings="-register-all"]
Inductive NodePath : Type := mkNodePath {
  node : value;
  parent : value;
  parentPath : option NodePath;
  key : option string;
  listKey : option nat
}.

(** The property name [this.key] denotes: [undefined] as a property key is
    the string "undefined". *)
Definition key_name (k : option string) : string :=
  default "undefined" k.

(** [if (this.listKey)]: an index is truthy when it is not [0];
    [undefined] is falsy. *)
Definition truthy_index (i : option nat) : option nat :=
  match i with
  | Some (S n) => Some (S n)
  | _ => None
  end.

(** Sequencing of store operations that may throw. *)
Definition and_then {A B} (r : heap * result A) (k : A → heap → heap * result B)
  : heap * result B :=
  match r with
  | (h, Done a) => k a h
  | (h, Fail e) => (h, Fail e)
  end.

(**
<<
    replaceWith(node) {
        if (this.listKey) {
            this.parent[this.key].splice(this.listKey, 1, node);
        }
        this.parent[this.key] = node
    }
>> *)
Definition replaceWith (this : NodePath) (n : value) (h : heap)
  : heap * result unit :=
  and_then
    (match truthy_index (listKey this) with
     | Some i =>
         match member h (parent this) (key_name (key this)) with
         | Done a => splice h a i [n]
         | Fail e => (h, Fail e)
         end
     | None => (h, Done tt)
     end)
    (λ _ h, set_member h (parent this) (key_name (key this)) n).

(**
<<
    remove () {
        if (this.listKey) {
            this.parent[this.key].splice(this.listKey, 1);
        }
        this.parent[this.key] = null;
    }
>> *)
Definition remove (this : NodePath) (h : heap) : heap * result unit :=
  and_then
    (match truthy_index (listKey this) with
     | Some i =>
         match member h (parent this) (key_name (key this)) with
         | Done a => splice h a i []
         | Fail e => (h, Fail e)
         end
     | None => (h, Done tt)
     end)
    (λ _ h, set_member h (parent this) (key_name (key this)) VNull).

(** ** Visitors *)

(** A hook is a JavaScript function of the path. It may rewrite the store
    (directly or through [replaceWith] and [remove]), and it returns a value
    or throws. *)
Definition hook : Type := NodePath → heap → heap * result value.

(** The object [{enter, exit}], either member possibly absent. *)
Record visitorFuncs : Type := VisitorFuncs {
  enter : option hook;
  exit : option hook
}.

(** What a visitor map holds under a node type: a function, or an object
    with [enter] and [exit]. *)
Inductive visitor_entry : Type :=
  | VFunction (f : hook)
  | VObject (o : visitorFuncs).

(** [visitors[v]], for a type that is a node-type name: the member the map
    itself holds under that string. The source converts a type of another
    kind to a string first ([undefined] to "undefined") and finds inherited
    members too ([toString], [constructor]); node types are neither, and
    the statements that compare visitor maps say so ([plainly_named]). *)
Definition visitors_get (visitors : gmap string visitor_entry) (v : value)
  : option visitor_entry :=
  match v with
  | VStr s => visitors !! s
  | _ => None
  end.

(**
<<
    let visitorFuncs = visitors[node.type] || {};
    if(typeof visitorFuncs === 'function') {
        visitorFuncs = { enter: visitorFuncs }
    }
>> *)
Definition normalise (v : option visitor_entry) : visitorFuncs :=
  match v with
  | None => VisitorFuncs None None
  | Some (VFunction f) => VisitorFuncs (Some f) None
  | Some (VObject o) => o
  end.

(** ** The walk, with its record of visits *)

Inductive phase : Type := Enter | Exit.

Global Instance phase_eq_dec : EqDecision phase.
Proof. solve_decision. Defined.

(** One entry of the record: the walk reached the enter or the exit line of
    an activation, for a node whose [type] read as [ev_type], with the path
    [ev_path]. [ev_hook] is [None] when the visitor has no hook for it, and
    otherwise what the hook did: returned a value or threw. The record is
    an observer of the walk; the source keeps none. *)
Record event : Type := Ev {
  ev_phase : phase;
  ev_type : value;
  ev_path : NodePath;
  ev_hook : option (result value)
}.

Inductive outcome (A : Type) : Type :=
  | Ok (a : A)
  | Throw (e : error)
  | OutOfFuel.
Arguments Ok {A} a.
Arguments Throw {A} e.
Arguments OutOfFuel {A}.

(** A computation of the walk: from a store to the store it leaves, the
    visits it made, and how it ended. A throw keeps the store as it was when
    thrown: nothing is rolled back. *)
Definition M (A : Type) : Type := heap → heap * list event * outcome A.

Definition ret {A} (a : A) : M A := λ h, (h, [], Ok a).

Definition bind {A B} (m : M A) (f : A → M B) : M B :=
  λ h,
    match m h with
    | (h1, t1, Ok a) =>
        match f a h1 with
        | (h2, t2, r) => (h2, t1 ++ t2, r)
        end
    | (h1, t1, Throw e) => (h1, t1, Throw e)
    | (h1, t1, OutOfFuel) => (h1, t1, OutOfFuel)
    end.

Declare Scope walk_scope.
Delimit Scope walk_scope with walk.
Notation "'let*' x ':=' m 'in' k" := (bind m (λ x, k))
  (at level 10, x name, m at level 100, k at level 200) : walk_scope.
Notation "m ';;' k" := (bind m (λ _, k))
  (at level 100, k at level 200, right associativity) : walk_scope.
Open Scope walk_scope.

Definition out_of_fuel {A} : M A := λ h, (h, [], OutOfFuel).

(** A read of the store that may throw. *)
Definition read {A} (f : heap → result A) : M A :=
  λ h,
    match f h with
    | Done a => (h, [], Ok a)
    | Fail e => (h, [], Throw e)
    end.

(** [hook && hook(path)], entered in the record. *)
Definition call (ph : phase) (ty : value) (path : NodePath) (f : option hook)
  : M unit :=
  λ h,
    match f with
    | None => (h, [Ev ph ty path None], Ok tt)
    | Some f =>
        match f path h with
        | (h', Done v) => (h', [Ev ph ty path (Some (Done v))], Ok tt)
        | (h', Fail e) => (h', [Ev ph ty path (Some (Fail e))], Throw e)
        end
    end.

(** [definition.visitor], a [TypeError] when the table had no entry. *)
Definition definition_visitor (d : option definition)
  : M (option (list string)) :=
  λ h,
    match d with
    | Some d => (h, [], Ok (visitor d))
    | None => (h, [], Throw (TypeError_read VUndef "visitor"))
    end.

(** [keys.forEach(f)] over an array nobody rewrites (the table's). *)
Fixpoint forEach {A} (f : A → M unit) (l : list A) : M unit :=
  match l with
  | [] => ret tt
  | a :: l => f a ;; forEach f l
  end.

(** The body of [Array.prototype.forEach] for one index: the callback runs
    when the index is present in the array as it is now. *)
Definition forEach_step (prop : value) (f : value → nat → M unit) (k : nat)
  : M unit :=
  λ h,
    match as_array h prop with
    | Some es =>
        match es !! k with
        | Some v => f v k h
        | None => (h, [], Ok tt)
        end
    | None => (h, [], Ok tt)
    end.

(** [prop.forEach(f)] for an array of the store: the length is read once,
    before the first callback; the elements are read as the loop goes. *)
Definition forEach_array (prop : value) (f : value → nat → M unit) : M unit :=
  λ h,
    match as_array h prop with
    | Some es => forEach (forEach_step prop f) (seq 0 (length es)) h
    | None => (h, [], Ok tt)
    end.

Section Traverse.

(** The table the module imports; [astDefinitionsMap] is the one of
    [utils.js]. *)
Variable table : gmap string definition.

(** The callback of [definition.visitor.forEach]:
<<
      const prop = node[key];
      if (Array.isArray(prop)) {
          prop.forEach((childNode, index) => {
              traverse(childNode, visitors, node, path, key, index);
          })
      } else {
          traverse(prop, visitors, node, path, key);
      }
>>
    [rec] is the recursive call. *)
Definition visit_field
    (rec : value → value → option NodePath → option string → option nat
           → M unit)
    (node : value) (path : NodePath) (key : string) : M unit :=
  let* prop := read (λ h, member h node key) in
  λ h,
    if isArray h prop then
      forEach_array prop
        (λ childNode index,
           rec childNode node (Some path) (Some key) (Some index)) h
    else
      rec prop node (Some path) (Some key) None h.

(**
<<
  function traverse(node, visitors, parent, parentPath, key, listKey) {
      const definition = astDefinitionsMap.get(node.type);
      let visitorFuncs = visitors[node.type] || {};
      if(typeof visitorFuncs === 'function') {
          visitorFuncs = { enter: visitorFuncs }
      }
      const path = new NodePath(node, parent, parentPath, key, listKey);
      visitorFuncs.enter && visitorFuncs.enter(path);
      if (definition.visitor) {
          definition.visitor.forEach(key => { ... })
      }
      visitorFuncs.exit && visitorFuncs.exit(path);
  }
>>
    The recursion follows the store, which hooks rewrite and which may be
    cyclic, so it is bounded by [fuel]. *)
Fixpoint traverse (fuel : nat) (node : value)
    (visitors : gmap string visitor_entry) (parent : value)
    (parentPath : option NodePath) (key : option string)
    (listKey : option nat) : M unit :=
  match fuel with
  | 0 => out_of_fuel
  | S fuel =>
      let* ty := read (λ h, member h node "type") in
      let definition := Map_get table ty in
      let visitorFuncs := normalise (visitors_get visitors ty) in
      let path := mkNodePath node parent parentPath key listKey in
      call Enter ty path (enter visitorFuncs) ;;
      let* fields := definition_visitor definition in
      match fields with
      | Some keys =>
          forEach
            (visit_field (λ n p pp k i, traverse fuel n visitors p pp k i)
               node path)
            keys
      | None => ret tt
      end ;;
      call Exit ty path (exit visitorFuncs)
  end.

(** [traverse(ast, visitors)]: the call that starts a walk. *)
Definition walk (fuel : nat) (ast : value) (visitors : gmap string visitor_entry)
  : M unit :=
  traverse fuel ast visitors VUndef None None None.

End Traverse.

(** ** Reading the record *)

(** How many times the walk reached phase [ph] of an activation for the
    node [n]. *)
Definition visits (ph : phase) (n : value) (t : list event) : nat :=
  length (filter (λ e, ev_phase e = ph ∧ node (ev_path e) = n) t).

(** The nodes of the visits of phase [ph], in order. *)
Definition visited (ph : phase) (t : list event) : list value :=
  node ∘ ev_path <$> filter (λ e, ev_phase e = ph) t.

(** A result with one more visit in front of its record. *)
Definition after_visit {A} (e : event) (x : heap * list event * outcome A)
  : heap * list event * outcome A :=
  match x with (h, t, r) => (h, e :: t, r) end.

(** The path [traverse] builds for the node a walk starts from. *)
Definition root_path (ast : value) : NodePath :=
  mkNodePath ast VUndef None None None.

(** ** Building stores and hooks *)

Definition plain (fields : list (string * value)) : object :=
  Obj (list_to_map fields) None.

Definition array (es : list value) : object :=
  Obj ∅ (Some es).

(** A hook whose body is one call of a method of the path. *)
Definition calling (m : NodePath → heap → heap * result unit) : hook :=
  λ path h,
    match m path h with
    | (h', Done _) => (h', Done VUndef)
    | (h', Fail e) => (h', Fail e)
    end.

(** [path => path.replaceWith({...})]: the object literal is evaluated, a
    new object, each time the hook runs. *)
Definition replacing_with (o : object) : hook :=
  λ path h,
    let '(l, h1) := alloc h o in
    calling (λ p, replaceWith p (VRef l)) path h1.

(** A hook that does nothing and returns [undefined]. *)
Definition idle : hook := λ _ h, (h, Done VUndef).

Definition returning (v : value) : hook := λ _ h, (h, Done v).

Definition throwing (e : error) : hook := λ _ h, (h, Fail e).

(** [path => { path.parent[k] = []; path.remove() }]: the hook puts a new,
    empty sequence in the slot and then removes through the path. *)
Definition emptying_then_removing : hook :=
  λ path h,
    let '(l, h1) := alloc h (array []) in
    match set_member h1 (parent path) (key_name (key path)) (VRef l) with
    | (h2, Done _) => calling remove path h2
    | (h2, Fail e) => (h2, Fail e)
    end.

(** ** What ends a walk *)

(** The error a visit ends the walk with, if it does: the one its hook
    threw, or, on enter, the [TypeError] of reading [visitor] of an entry
    the table does not have. *)
Definition fatal (table : gmap string definition) (e : event) : option error :=
  match ev_hook e with
  | Some (Fail err) => Some err
  | _ =>
      match ev_phase e, Map_get table (ev_type e) with
      | Enter, None => Some (TypeError_read VUndef "visitor")
      | _, _ => None
      end
  end.

(** A record and an outcome agree on aborting: a fatal visit is the last of
    the record, and the walk ends by throwing its error. *)
Fixpoint aborts {A} (table : gmap string definition) (t : list event)
    (r : outcome A) : Prop :=
  match t with
  | [] => True
  | e :: t' =>
      match fatal table e with
      | Some err => t' = [] ∧ r = Throw err
      | None => aborts table t' r
      end
  end.


(** Computations whose record and outcome agree on aborting. *)
Definition abortive_in (table : gmap string definition) {A} (m : M A) : Prop :=
  ∀ h h' t r, m h = (h', t, r) → aborts table t r.

(** ** The shape of a walk *)

(** One activation of [traverse]: its path, the type it read, what its
    enter and exit hooks did, and the activations of its recursive calls in
    the order they were made. *)
#[warnings="-register-all"]
Inductive activation : Type :=
  | Act (path : NodePath) (ty : value) (entered exited : option (result value))
        (children : list activation).

Definition act_path (a : activation) : NodePath :=
  match a with Act p _ _ _ _ => p end.

(** The record of an activation: its enter, the records of its children one
    after the other, its exit. *)
Fixpoint flatten (a : activation) : list event :=
  match a with
  | Act p ty hi ho cs =>
      Ev Enter ty p hi :: concat (map flatten cs) ++ [Ev Exit ty p ho]
  end.

(** Activations made for the elements of a sequence: each has an index, and
    the indices ascend strictly from [lo] on. *)
Fixpoint ascending (lo : nat) (cs : list activation) : Prop :=
  match cs with
  | [] => True
  | c :: cs =>
      ∃ i, listKey (act_path c) = Some i ∧ lo ≤ i ∧ ascending (S i) cs
  end.

(** The activations made for the field [k] of a node: one activation with
    no index, or the activations of the elements of a sequence. *)
Inductive field_group (k : string) : list activation → Prop :=
  | group_single c :
      key (act_path c) = Some k → listKey (act_path c) = None →
      field_group k [c]
  | group_sequence cs :
      Forall (λ c, key (act_path c) = Some k) cs → ascending 0 cs →
      field_group k cs.

(** An activation is ordered when its children are the groups of the fields
    its table entry lists, in the order of the entry, each child was reached
    from this activation's node and path, and the children are ordered. *)
#[warnings="-register-all"]
Inductive ordered (table : gmap string definition) : activation → Prop :=
  | ordered_act p ty hi ho d groups :
      Map_get table ty = Some d →
      Forall2 field_group (default [] (visitor d)) groups →
      Forall (λ c, parent (act_path c) = node p
                   ∧ parentPath (act_path c) = Some p) (concat groups) →
      Forall (ordered table) (concat groups) →
      ordered table (Act p ty hi ho (concat groups)).

(** The fields the table lists for a type, none when it has no entry. *)
Definition entry_fields (table : gmap string definition) (ty : value)
  : list string :=
  match Map_get table ty with
  | Some d => default [] (visitor d)
  | None => []
  end.

(** The order of an activation that may have been cut short: its children
    are the groups of the first fields of its entry, in order. *)
#[warnings="-register-all"]
Inductive ordered_so_far (table : gmap string definition)
  : activation → Prop :=
  | ordered_so_far_act p ty hi ho groups :
      Forall2 field_group (take (length groups) (entry_fields table ty))
        groups →
      Forall (λ c, parent (act_path c) = node p
                   ∧ parentPath (act_path c) = Some p) (concat groups) →
      Forall (ordered_so_far table) (concat groups) →
      ordered_so_far table (Act p ty hi ho (concat groups)).

(** The record [t] of a computation that ended with [r] is a part of the
    record [full]: an initial segment of it, and all of it when the
    computation ended normally. *)
Definition part_of (full t : list event) (r : outcome unit) : Prop :=
  t `prefix_of` full ∧ ∀ u, r = Ok u → t = full.

(** ** The nodes a table reaches *)

(** [closure table h v ns]: in the store [h] the value [v] is a node whose
    type the table knows, every field its entry lists holds such a node or a
    sequence of such nodes, and so on below; [ns] lists the nodes reached,
    parents before children, fields in the order of the entry, elements in
    the order of the sequence. *)
Inductive closure (table : gmap string definition) (h : heap)
  : value → list value → Prop :=
  | closure_node l o ty d ns :
      h !! l = Some o →
      props o !! "type" = Some (VStr ty) →
      table !! ty = Some d →
      closure_fields table h (VRef l) (default [] (visitor d)) ns →
      closure table h (VRef l) (VRef l :: ns)
with closure_fields (table : gmap string definition) (h : heap)
  : value → list string → list value → Prop :=
  | closure_fields_nil n :
      closure_fields table h n [] []
  | closure_fields_single n k ks c ns1 ns2 :
      member h n k = Done c →
      as_array h c = None →
      closure table h c ns1 →
      closure_fields table h n ks ns2 →
      closure_fields table h n (k :: ks) (ns1 ++ ns2)
  | closure_fields_sequence n k ks c es ns1 ns2 :
      member h n k = Done c →
      as_array h c = Some es →
      closure_list table h es ns1 →
      closure_fields table h n ks ns2 →
      closure_fields table h n (k :: ks) (ns1 ++ ns2)
with closure_list (table : gmap string definition) (h : heap)
  : list value → list value → Prop :=
  | closure_list_nil :
      closure_list table h [] []
  | closure_list_cons e es ns1 ns2 :
      closure table h e ns1 →
      closure_list table h es ns2 →
      closure_list table h (e :: es) (ns1 ++ ns2).

Scheme closure_mut := Minimality for closure Sort Prop
  with closure_fields_mut := Minimality for closure_fields Sort Prop
  with closure_list_mut := Minimality for closure_list Sort Prop.

Combined Scheme conj_closure_mut
  from closure_mut, closure_fields_mut, closure_list_mut.

(** A part of a walk is quiet on the store [h] when, from some amount of
    fuel on, it ends normally with the store as it was, and its record has
    the nodes [ns] on enter, in this order, the same nodes on exit, and no
    hook. *)
Definition quiet_in (h : heap) (run : nat → M unit) (ns : list value) : Prop :=
  ∃ t, (∃ f0, ∀ fuel, f0 ≤ fuel → run fuel h = (h, t, Ok tt))
       ∧ visited Enter t = ns
       ∧ visited Exit t ≡ₚ ns
       ∧ Forall (λ e, ev_hook e = None) t.

(** The recursive call with an empty visitor map. *)
Definition traverse_without_hooks (table : gmap string definition)
    (fuel : nat) :=
  λ n p pp k i, traverse table fuel n ∅ p pp k i.

(** ** Two walks side by side *)

(** To compare two walks, values, stores, errors and the values hooks
    return are related, relative to a world that may grow as the walks go
    (a hook may create objects). *)
Record relations : Type := Relations {
  world : Type;
  future : world → world → Prop;
  rel_value : world → value → value → Prop;
  rel_heap : world → heap → heap → Prop;
  rel_error : world → error → error → Prop;
  rel_return : world → value → value → Prop
}.

Section Relating.

Variable R : relations.

(** Paths are related member by member, up the chain of parent paths. *)
Fixpoint rel_path (w : world R) (p1 p2 : NodePath) : Prop :=
  match p1 with
  | mkNodePath n1 pa1 pp1 k1 i1 =>
      rel_value R w n1 (node p2)
      ∧ rel_value R w pa1 (parent p2)
      ∧ match pp1, parentPath p2 with
        | Some a, Some b => rel_path w a b
        | None, None => True
        | _, _ => False
        end
      ∧ k1 = key p2
      ∧ i1 = listKey p2
  end.

Definition rel_parentPath (w : world R) (pp1 pp2 : option NodePath) : Prop :=
  match pp1, pp2 with
  | Some a, Some b => rel_path w a b
  | None, None => True
  | _, _ => False
  end.

Definition rel_result (w : world R) (r1 r2 : result value) : Prop :=
  match r1, r2 with
  | Done a, Done b => rel_return R w a b
  | Fail e1, Fail e2 => rel_error R w e1 e2
  | _, _ => False
  end.

(** Two hooks are related when, on related paths and stores, they leave
    related stores in a future world and both return or both throw. *)
Definition rel_hook (f1 f2 : hook) : Prop :=
  ∀ w p1 p2 h1 h2,
    rel_path w p1 p2 → rel_heap R w h1 h2 →
    ∃ w', future R w w'
          ∧ rel_heap R w' (f1 p1 h1).1 (f2 p2 h2).1
          ∧ rel_result w' (f1 p1 h1).2 (f2 p2 h2).2.

Definition rel_hook_opt (f1 f2 : option hook) : Prop :=
  match f1, f2 with
  | Some f1, Some f2 => rel_hook f1 f2
  | None, None => True
  | _, _ => False
  end.

Definition rel_visitors (vis1 vis2 : gmap string visitor_entry) : Prop :=
  ∀ s, rel_hook_opt (enter (normalise (vis1 !! s)))
                    (enter (normalise (vis2 !! s)))
       ∧ rel_hook_opt (exit (normalise (vis1 !! s)))
                      (exit (normalise (vis2 !! s))).

Definition rel_event (w : world R) (e1 e2 : event) : Prop :=
  ev_phase e1 = ev_phase e2
  ∧ rel_value R w (ev_type e1) (ev_type e2)
  ∧ rel_path w (ev_path e1) (ev_path e2)
  ∧ match ev_hook e1, ev_hook e2 with
    | Some r1, Some r2 => rel_result w r1 r2
    | None, None => True
    | _, _ => False
    end.

Definition rel_outcome (w : world R) (r1 r2 : outcome unit) : Prop :=
  match r1, r2 with
  | Ok _, Ok _ => True
  | Throw e1, Throw e2 => rel_error R w e1 e2
  | OutOfFuel, OutOfFuel => True
  | _, _ => False
  end.

Definition rel_run (w : world R)
    (x1 x2 : heap * list event * outcome unit) : Prop :=
  rel_heap R w x1.1.1 x2.1.1
  ∧ Forall2 (rel_event w) x1.1.2 x2.1.2
  ∧ rel_outcome w x1.2 x2.2.

(** Two computations are related at a world when from related stores of any
    future world they make related runs, in a world further on. *)
Definition related (w : world R) (m1 m2 : M unit) : Prop :=
  ∀ w1 h1 h2,
    future R w w1 → rel_heap R w1 h1 h2 →
    ∃ w2, future R w1 w2 ∧ rel_run w2 (m1 h1) (m2 h2).

(** What the relations must satisfy: worlds are preordered and relations
    persist in the future; related values are the same string or neither is
    one; member access and array reads on related values of related stores
    agree. *)
Record lawful : Prop := Lawful {
  future_refl : ∀ w, future R w w;
  future_trans : ∀ w1 w2 w3, future R w1 w2 → future R w2 w3 → future R w1 w3;
  rel_value_mono : ∀ w w' a b,
    future R w w' → rel_value R w a b → rel_value R w' a b;
  rel_error_mono : ∀ w w' a b,
    future R w w' → rel_error R w a b → rel_error R w' a b;
  rel_return_mono : ∀ w w' a b,
    future R w w' → rel_return R w a b → rel_return R w' a b;
  rel_value_string : ∀ w a b s,
    rel_value R w a b → a = VStr s ↔ b = VStr s;
  rel_member : ∀ w h1 h2 a b k,
    rel_heap R w h1 h2 → rel_value R w a b →
    match member h1 a k, member h2 b k with
    | Done x, Done y => rel_value R w x y
    | Fail e1, Fail e2 => rel_error R w e1 e2
    | _, _ => False
    end;
  rel_array : ∀ w h1 h2 a b,
    rel_heap R w h1 h2 → rel_value R w a b →
    option_Forall2 (Forall2 (rel_value R w)) (as_array h1 a) (as_array h2 b);
  rel_no_entry : ∀ w,
    rel_error R w (TypeError_read VUndef "visitor")
                  (TypeError_read VUndef "visitor")
}.

End Relating.

(** ** Relations for hooks that differ only in what they return *)

(** Everything is related to itself only, except the values hooks return,
    which are all related. *)
Definition up_to_returns : relations :=
  Relations unit (λ _ _, True) (λ _, eq) (λ _, eq) (λ _, eq) (λ _ _ _, True).

(** Two hooks act alike when on every path and store they leave the same
    store and both return (anything) or both throw the same error. *)
Definition act_alike (f1 f2 : hook) : Prop :=
  ∀ p h,
    (f1 p h).1 = (f2 p h).1
    ∧ match (f1 p h).2, (f2 p h).2 with
      | Done _, Done _ => True
      | Fail e1, Fail e2 => e1 = e2
      | _, _ => False
      end.

Definition act_alike_opt (f1 f2 : option hook) : Prop :=
  match f1, f2 with
  | Some f1, Some f2 => act_alike f1 f2
  | None, None => True
  | _, _ => False
  end.

(** A visit without the value its hook returned. *)
Definition forget_return (e : event) : event :=
  match ev_hook e with
  | Some (Done _) => Ev (ev_phase e) (ev_type e) (ev_path e) (Some (Done VUndef))
  | _ => e
  end.

(** ** Structurally equal trees *)

(** Two stores hold structurally equal trees when a partial injection [π]
    of locations carries the objects of the one to objects of the other with
    the same properties and elements, references following [π]. *)
Definition iso_value (π : gmap loc loc) (a b : value) : Prop :=
  match a, b with
  | VRef x, VRef y => π !! x = Some y
  | VRef _, _ | _, VRef _ => False
  | _, _ => a = b
  end.

Definition iso_object (π : gmap loc loc) (o1 o2 : object) : Prop :=
  map_Forall2 (λ _, iso_value π) (props o1) (props o2)
  ∧ option_Forall2 (Forall2 (iso_value π)) (elems o1) (elems o2).

Definition iso_heap (π : gmap loc loc) (h1 h2 : heap) : Prop :=
  (∀ a a' b, π !! a = Some b → π !! a' = Some b → a = a')
  ∧ ∀ a b, π !! a = Some b →
      ∃ o1 o2, h1 !! a = Some o1 ∧ h2 !! b = Some o2 ∧ iso_object π o1 o2.

Definition iso_error (π : gmap loc loc) (e1 e2 : error) : Prop :=
  match e1, e2 with
  | TypeError_read v1 k1, TypeError_read v2 k2 => iso_value π v1 v2 ∧ k1 = k2
  | TypeError_set v1 k1, TypeError_set v2 k2 => iso_value π v1 v2 ∧ k1 = k2
  | TypeError_not_a_function k1, TypeError_not_a_function k2 => k1 = k2
  | Thrown v1, Thrown v2 => iso_value π v1 v2
  | NoSuchObject _, NoSuchObject _ => True
  | _, _ => False
  end.

(** Results of the methods, which return nothing, are related when both
    return or both throw related errors. *)
Definition iso_outcome (π : gmap loc loc) (r1 r2 : result unit) : Prop :=
  match r1, r2 with
  | Done _, Done _ => True
  | Fail e1, Fail e2 => iso_error π e1 e2
  | _, _ => False
  end.

(** The world is the injection, which grows when hooks create objects. *)
Definition up_to_iso : relations :=
  Relations (gmap loc loc) (⊆) iso_value iso_heap iso_error iso_value.

(** What a visit shows of itself whatever the locations: its phase, the
    name of the type, and whether a hook was called. *)
Definition type_name (v : value) : option string :=
  match v with
  | VStr s => Some s
  | _ => None
  end.

Definition signature (e : event) : phase * option string * bool :=
  (ev_phase e, type_name (ev_type e), bool_decide (is_Some (ev_hook e))).

(** ** Scenarios *)

(** Scenario A: [{type:"Program", body:[{type:"NumericLiteral", value:1}]}]
    and the visitor
    [{NumericLiteral: {exit(path){path.replaceWith({type:"Identifier", name:"x"})}}}]. *)
Definition identifier_x : object :=
  plain [("type", VStr "Identifier"); ("name", VStr "x")].

Definition scenario_A : heap :=
  list_to_map [
    (1%positive, plain [("type", VStr "Program"); ("body", VRef 2)]);
    (2%positive, array [VRef 3]);
    (3%positive, plain [("type", VStr "NumericLiteral"); ("value", VNum 1)])
  ].

Definition visitors_A : gmap string visitor_entry :=
  {[ "NumericLiteral" :=
       VObject (VisitorFuncs None (Some (replacing_with identifier_x))) ]}.

(** Scenario B: [{type:"Program", body:[{type:"A"},{type:"B"},{type:"C"}]}],
    a table that knows these types, and a visitor that removes [B] on
    enter. *)
Definition table_B : gmap string definition :=
  list_to_map [
    ("Program", Definition_ (Some ["body"]) false);
    ("A", Definition_ None false);
    ("B", Definition_ None false);
    ("C", Definition_ None false)
  ].

Definition scenario_B : heap :=
  list_to_map [
    (1%positive, plain [("type", VStr "Program"); ("body", VRef 2)]);
    (2%positive, array [VRef 3; VRef 4; VRef 5]);
    (3%positive, plain [("type", VStr "A")]);
    (4%positive, plain [("type", VStr "B")]);
    (5%positive, plain [("type", VStr "C")])
  ].

Definition visitors_B : gmap string visitor_entry :=
  {[ "B" := VObject (VisitorFuncs (Some (calling remove)) None) ]}.

(** Visitors for scenario B whose hook on [A] "stops" the only ways a hook
    can: by returning [false], or by calling a [stop] that NodePath does not
    have, which throws. The second map also has an exit hook on the
    Program. *)
Definition visitors_stop_return : gmap string visitor_entry :=
  {[ "A" := VFunction (returning (VBool false)) ]}.

Definition visitors_stop_throw : gmap string visitor_entry :=
  <[ "A" := VFunction (throwing (TypeError_not_a_function "stop")) ]>
    {[ "Program" := VObject (VisitorFuncs None (Some idle)) ]}.

(** Scenario C: a sequence [[A, X, C]] whose second element has a type the
    table does not know; no hooks. *)
Definition scenario_C : heap :=
  list_to_map [
    (1%positive, plain [("type", VStr "Program"); ("body", VRef 2)]);
    (2%positive, array [VRef 3; VRef 4; VRef 5]);
    (3%positive, plain [("type", VStr "A")]);
    (4%positive, plain [("type", VStr "X")]);
    (5%positive, plain [("type", VStr "C")])
  ].

(** Scenario D: the statement [a + 1;], and beside it a call [f()] that a
    hook holds and substitutes for the sum:
    cell 1 is the ExpressionStatement, 2 the BinaryExpression with children
    3 and 4, and 5 the CallExpression with callee 6 and arguments 7. *)
Definition scenario_D : heap :=
  list_to_map [
    (1%positive, plain [("type", VStr "ExpressionStatement");
                         ("expression", VRef 2)]);
    (2%positive, plain [("type", VStr "BinaryExpression");
                         ("left", VRef 3); ("right", VRef 4)]);
    (3%positive, plain [("type", VStr "Identifier"); ("name", VStr "a")]);
    (4%positive, plain [("type", VStr "NumericLiteral"); ("value", VNum 1)]);
    (5%positive, plain [("type", VStr "CallExpression");
                         ("callee", VRef 6); ("arguments", VRef 7)]);
    (6%positive, plain [("type", VStr "Identifier"); ("name", VStr "f")]);
    (7%positive, array [])
  ].

(** [{BinaryExpression: {enter(path){ path.replaceWith(call) }, exit(path){}}}] *)
Definition visitors_replace : gmap string visitor_entry :=
  {[ "BinaryExpression" :=
       VObject (VisitorFuncs (Some (calling (λ p, replaceWith p (VRef 5))))
                             (Some idle)) ]}.

(** [{BinaryExpression: {enter(path){ path.remove() }, exit(path){}}}] *)
Definition visitors_remove : gmap string visitor_entry :=
  {[ "BinaryExpression" :=
       VObject (VisitorFuncs (Some (calling remove)) (Some idle)) ]}.

(** The path of the BinaryExpression of scenario D. *)
Definition path_D : NodePath :=
  mkNodePath (VRef 2) (VRef 1) (Some (root_path (VRef 1)))
    (Some "expression") None.

(** Scenario D once more, at other locations, and a visitor map that
    replaces every identifier on exit by a new one and removes every number
    on enter. *)
Definition scenario_D' : heap :=
  list_to_map [
    (21%positive, plain [("type", VStr "ExpressionStatement");
                          ("expression", VRef 27)]);
    (27%positive, plain [("type", VStr "BinaryExpression");
                          ("left", VRef 23); ("right", VRef 22)]);
    (23%positive, plain [("type", VStr "Identifier"); ("name", VStr "a")]);
    (22%positive, plain [("type", VStr "NumericLiteral"); ("value", VNum 1)]);
    (25%positive, plain [("type", VStr "CallExpression");
                          ("callee", VRef 26); ("arguments", VRef 24)]);
    (26%positive, plain [("type", VStr "Identifier"); ("name", VStr "f")]);
    (24%positive, array [])
  ].

Definition iso_D : gmap loc loc :=
  list_to_map [
    (1%positive, 21%positive); (2%positive, 27%positive);
    (3%positive, 23%positive); (4%positive, 22%positive);
    (5%positive, 25%positive); (6%positive, 26%positive);
    (7%positive, 24%positive)
  ].

Definition visitors_rewrite : gmap string visitor_entry :=
  <[ "Identifier" :=
       VObject (VisitorFuncs None (Some (replacing_with identifier_x))) ]>
    {[ "NumericLiteral" := VFunction (calling remove) ]}.

(** Scenario E: the declarator of [let a;], whose [init] is [null]. *)
Definition scenario_E : heap :=
  list_to_map [
    (1%positive, plain [("type", VStr "VariableDeclarator");
                         ("id", VRef 2); ("init", VNull)]);
    (2%positive, plain [("type", VStr "Identifier"); ("name", VStr "a")])
  ].

(** Scenario F: the program [const a = 1;] of the repository's own runs. *)
Definition scenario_F : heap :=
  list_to_map [
    (1%positive, plain [("type", VStr "Program"); ("body", VRef 2)]);
    (2%positive, array [VRef 3]);
    (3%positive, plain [("type", VStr "VariableDeclaration");
                         ("declarations", VRef 4); ("kind", VStr "const")]);
    (4%positive, array [VRef 5]);
    (5%positive, plain [("type", VStr "VariableDeclarator");
                         ("id", VRef 6); ("init", VRef 7)]);
    (6%positive, plain [("type", VStr "Identifier"); ("name", VStr "a")]);
    (7%positive, plain [("type", VStr "NumericLiteral"); ("value", VNum 1)])
  ].

(** ** What a walk keeps *)

(** The hooks of a visitor map: the functions [traverse] may call. *)
Definition hook_of (visitors : gmap string visitor_entry) (f : hook) : Prop :=
  ∃ ty, enter (normalise (visitors !! ty)) = Some f
        ∨ exit (normalise (visitors !! ty)) = Some f.

(** A computation keeps the property [I] of stores, and the visits of its
    record have the property [Q]. *)
Definition keeps (I : heap → Prop) (Q : event → Prop) (m : M unit) : Prop :=
  ∀ h, I h → I (m h).1.1 ∧ Forall Q (m h).1.2.

(** The paths above a path: its [parentPath], the [parentPath] of that, and
    so on, as the loop
    [while (curPath) { ...; curPath = curPath.parentPath }] meets them. *)
Fixpoint ancestors (p : NodePath) : list NodePath :=
  match p with
  | mkNodePath _ _ (Some pp) _ _ => pp :: ancestors pp
  | mkNodePath _ _ None _ _ => []
  end.

(** The paths a walk builds under the path [root]: each is made for a child
    found in a field [k] of the node of its [parentPath], which is its
    [parent]. *)
Inductive below (root : NodePath) : NodePath → Prop :=
  | below_root : below root root
  | below_child pp n k i :
      below root pp →
      below root (mkNodePath n (node pp) (Some pp) (Some k) i).

(** ** Walks that agree *)

(** [m2] does what [m1] does on the runs of [m1] that [P] selects by their
    record and outcome. *)
Definition agrees_on (P : list event → outcome unit → Prop) (m1 m2 : M unit)
  : Prop :=
  ∀ h h' t r, m1 h = (h', t, r) → P t r → m2 h = (h', t, r).

(** [P] selects the parts of a run it selects. *)
Definition splits (P : list event → outcome unit → Prop) : Prop :=
  ∀ t1 t2 r, P (t1 ++ t2) r → P t1 (Ok tt) ∧ P t2 r.

(** A table that has the entries of another, with the same fields. *)
Definition extends (table' table : gmap string definition) : Prop :=
  ∀ ty d, table !! ty = Some d →
          ∃ d', table' !! ty = Some d' ∧ visitor d' = visitor d.

(** The names of the members every object literal inherits from
    [Object.prototype]: [visitors[name]] finds them when the map itself
    holds nothing under the name. *)
Definition Object_prototype_keys : list string :=
  ["constructor"; "__defineGetter__"; "__defineSetter__"; "hasOwnProperty";
   "__lookupGetter__"; "__lookupSetter__"; "isPrototypeOf";
   "propertyIsEnumerable"; "toString"; "valueOf"; "__proto__";
   "toLocaleString"].

(** The type [ty] names a member of the visitor map as written, or nothing
    at all: it is a string (a value of another kind would be looked up
    under its conversion to a string, [undefined] under "undefined"), and
    where the map holds nothing under it, it is not the name of an
    inherited member. For such a type [visitors[ty]] is what [visitors_get]
    finds. *)
Definition plainly_named (visitors : gmap string visitor_entry) (ty : value)
  : Prop :=
  ∃ s, ty = VStr s ∧ (visitors !! s = None → s ∉ Object_prototype_keys).

(** The types of the visits of the record are plainly named, and the two
    visitor maps hold the same under each of them. *)
Definition same_hooks_on (vis1 vis2 : gmap string visitor_entry)
    (t : list event) : Prop :=
  Forall (λ e, plainly_named vis1 (ev_type e)
               ∧ visitors_get vis1 (ev_type e) = visitors_get vis2 (ev_type e))
    t.

(** ** The parser extension of [utils.js] *)

(** [typeof v]. Functions are not values of the store, so a reference is an
    object. *)
Definition typeof (v : value) : string :=
  match v with
  | VUndef => "undefined"
  | VNull => "object"
  | VBool _ => "boolean"
  | VNum _ => "number"
  | VStr _ => "string"
  | VRef _ => "object"
  end.

(**
<<
    parseLiteral(...args) {
        const node = super.parseLiteral(...args);
        switch (typeof node.value) {
            case 'number':
                node.type = 'NumericLiteral';
                break;
            case 'string':
                node.type = 'StringLiteral';
                break;
        }
        return node;
    }
>>
    The method of the class [literalExtend] returns, from the line after the
    call of the parser it extends: [node] is what that call returned, in the
    store it left. The body of a class is strict code. *)
Definition parseLiteral (node : value) (h : heap) : heap * result value :=
  match member h node "value" with
  | Fail e => (h, Fail e)
  | Done v =>
      if decide (typeof v = "number") then
        and_then (set_member h node "type" (VStr "NumericLiteral"))
          (λ _ h, (h, Done node))
      else if decide (typeof v = "string") then
        and_then (set_member h node "type" (VStr "StringLiteral"))
          (λ _ h, (h, Done node))
      else (h, Done node)
  end.

(** ** The validators of [types/index.js] *)

(** [astDefinitionsMap.keys()] for the table of [types/index.js]: the type
    names in the order of the entries. *)
Definition visitorKeys_keys : list string :=
  ["Program"; "VariableDeclaration"; "VariableDeclarator"; "Identifier";
   "NumericLiteral"; "FunctionDeclaration"; "BlockStatement";
   "ReturnStatement"; "BinaryExpression"; "ExpressionStatement";
   "CallExpression"].

(** [function (node) { return node.type === name; }] *)
Definition is_type (name : string) (node : value) (h : heap) : result bool :=
  match member h node "type" with
  | Done ty => Done (bool_decide (ty = VStr name))
  | Fail e => Fail e
  end.

(**
<<
    const validations = {};
    for (let name of astDefinitionsMap.keys()) {
        validations['is' + name] = function (node) { ... }
    }
>> *)
Definition validations_of (names : list string)
  : gmap string (value → heap → result bool) :=
  foldl (λ validations name, <["is" +:+ name := is_type name]> validations)
    ∅ names.

Definition validations : gmap string (value → heap → result bool) :=
  validations_of visitorKeys_keys.

(** ** The walker that hands nodes to its hooks *)

(** [traverse] as it was before it had paths: the hooks of its visitor map
    are functions of the node. *)
Module Part004.

Definition hook : Type := value → heap → heap * result value.

Record visitorFuncs : Type := VisitorFuncs {
  enter : option hook;
  exit : option hook
}.

Inductive visitor_entry : Type :=
  | VFunction (f : hook)
  | VObject (o : visitorFuncs).

Definition visitors_get (visitors : gmap string visitor_entry) (v : value)
  : option visitor_entry :=
  match v with
  | VStr s => visitors !! s
  | _ => None
  end.

Definition normalise (v : option visitor_entry) : visitorFuncs :=
  match v with
  | None => VisitorFuncs None None
  | Some (VFunction f) => VisitorFuncs (Some f) None
  | Some (VObject o) => o
  end.

(** [hook && hook(node)], entered in the record. This walker builds no
    path; the record notes the node of a visit in a path that has nothing
    else. *)
Definition call (ph : phase) (ty : value) (node : value) (f : option hook)
  : M unit :=
  λ h,
    match f with
    | None => (h, [Ev ph ty (root_path node) None], Ok tt)
    | Some f =>
        match f node h with
        | (h', Done v) => (h', [Ev ph ty (root_path node) (Some (Done v))], Ok tt)
        | (h', Fail e) => (h', [Ev ph ty (root_path node) (Some (Fail e))], Throw e)
        end
    end.

Section Traverse.

Variable table : gmap string definition.

(**
<<
      const prop = node[key];
      if (Array.isArray(prop)) {
          prop.forEach(childNode => {
              traverse(childNode, visitors);
          })
      } else {
          traverse(prop, visitors);
      }
>> *)
Definition visit_field (rec : value → M unit) (node : value) (key : string)
  : M unit :=
  let* prop := read (λ h, member h node key) in
  λ h,
    if isArray h prop then
      forEach_array prop (λ childNode _, rec childNode) h
    else
      rec prop h.

(**
<<
  function traverse(node, visitors) {
      const definition = astDefinitionsMap.get(node.type);
      let visitorFuncs = visitors[node.type] || {};
      if(typeof visitorFuncs === 'function') {
          visitorFuncs = { enter: visitorFuncs }
      }
      visitorFuncs.enter && visitorFuncs.enter(node);
      if (definition.visitor) {
          definition.visitor.forEach(key => { ... })
      }
      visitorFuncs.exit && visitorFuncs.exit(node);
  }
>> *)
Fixpoint traverse (fuel : nat) (node : value)
    (visitors : gmap string visitor_entry) : M unit :=
  match fuel with
  | 0 => out_of_fuel
  | S fuel =>
      let* ty := read (λ h, member h node "type") in
      let definition := Map_get table ty in
      let visitorFuncs := normalise (visitors_get visitors ty) in
      call Enter ty node (enter visitorFuncs) ;;
      let* fields := definition_visitor definition in
      match fields with
      | Some keys =>
          forEach (visit_field (λ n, traverse fuel n visitors) node) keys
      | None => ret tt
      end ;;
      call Exit ty node (exit visitorFuncs)
  end.

End Traverse.

End Part004.

(** A hook of the node as a hook of the path: [path => f(path.node)]. *)
Definition on_node (f : Part004.hook) : hook := λ path, f (node path).

Definition on_nodes (e : Part004.visitor_entry) : visitor_entry :=
  match e with
  | Part004.VFunction f => VFunction (on_node f)
  | Part004.VObject o =>
      VObject (VisitorFuncs (on_node <$> Part004.enter o)
                            (on_node <$> Part004.exit o))
  end.

(** A record with the paths of its visits cut down to their nodes. *)
Definition nodes_only (t : list event) : list event :=
  (λ e, Ev (ev_phase e) (ev_type e) (root_path (node (ev_path e))) (ev_hook e))
    <$> t.

(** [m1] does what [m2] does, and its record is that of [m2] seen
    through [g]. *)
Definition mirrors (g : list event → list event) (m1 m2 : M unit) : Prop :=
  ∀ h, m1 h = ((m2 h).1.1, g (m2 h).1.2, (m2 h).2).

(** ** The walker whose paths have no key *)

(** [traverse] as it was when a path had a node, a parent and a parent path
    only: the constructor assigns no [key] and no [listKey], and the class
    has no methods. *)
Module Part005.

Section Traverse.

Variable table : gmap string definition.

(**
<<
      const prop = node[key];
      if (Array.isArray(prop)) {
          prop.forEach(childNode => {
              traverse(childNode, visitors, node, path);
          })
      } else {
          traverse(prop, visitors, node, path);
      }
>> *)
Definition visit_field (rec : value → value → option NodePath → M unit)
    (node : value) (path : NodePath) (key : string) : M unit :=
  let* prop := read (λ h, member h node key) in
  λ h,
    if isArray h prop then
      forEach_array prop (λ childNode _, rec childNode node (Some path)) h
    else
      rec prop node (Some path) h.

(**
<<
  function traverse(node, visitors, parent, parentPath) {
      const definition = astDefinitionsMap.get(node.type);
      let visitorFuncs = visitors[node.type] || {};
      if (typeof visitorFuncs === 'function') {
          visitorFuncs = { enter: visitorFuncs }
      }
      const path = new NodePath(node, parent, parentPath);
      visitorFuncs.enter && visitorFuncs.enter(path);
      if (definition.visitor) {
          definition.visitor.forEach(key => { ... })
      }
      visitorFuncs.exit && visitorFuncs.exit(path);
  }
>> *)
Fixpoint traverse (fuel : nat) (node : value)
    (visitors : gmap string visitor_entry) (parent : value)
    (parentPath : option NodePath) : M unit :=
  match fuel with
  | 0 => out_of_fuel
  | S fuel =>
      let* ty := read (λ h, member h node "type") in
      let definition := Map_get table ty in
      let visitorFuncs := normalise (visitors_get visitors ty) in
      let path := mkNodePath node parent parentPath None None in
      call Enter ty path (enter visitorFuncs) ;;
      let* fields := definition_visitor definition in
      match fields with
      | Some keys =>
          forEach
            (visit_field (λ n p pp, traverse fuel n visitors p pp) node path)
            keys
      | None => ret tt
      end ;;
      call Exit ty path (exit visitorFuncs)
  end.

End Traverse.

End Part005.

(** A path without its [key] and [listKey], and so for the paths above
    it. *)
Fixpoint short (p : NodePath) : NodePath :=
  match p with
  | mkNodePath n p pp _ _ =>
      mkNodePath n p
        match pp with Some q => Some (short q) | None => None end
        None None
  end.

(** A hook that reads no key as a hook of the paths that have one:
    [path => f(short path)]. *)
Definition on_short (f : hook) : hook := λ path, f (short path).

Definition on_shorts (e : visitor_entry) : visitor_entry :=
  match e with
  | VFunction f => VFunction (on_short f)
  | VObject o =>
      VObject (VisitorFuncs (on_short <$> enter o) (on_short <$> exit o))
  end.

Definition short_paths (t : list event) : list event :=
  (λ e, Ev (ev_phase e) (ev_type e) (short (ev_path e)) (ev_hook e)) <$> t.

(** ** The walker that calls functions only *)

(** [traverse] of [traverse/temp/test2.js]: one call per node, before its
    children, and only of an entry that is a function. *)
Module Test2.

(** [visitorFunc && typeof visitorFunc === 'function'] *)
Definition function_entry (v : option Part004.visitor_entry)
  : option Part004.hook :=
  match v with
  | Some (Part004.VFunction f) => Some f
  | _ => None
  end.

Section Traverse.

Variable table : gmap string definition.

(**
<<
  function traverse(node, visitors) {
      const definition = astDefinitionsMap.get(node.type);
      const visitorFunc = visitors[node.type];
      if(visitorFunc && typeof visitorFunc === 'function') {
          visitorFunc(node);
      }
      if (definition.visitor) {
          definition.visitor.forEach(key => { ... })
      }
  }
>>
    The loop over the fields is the one of the walker that hands nodes to
    its hooks. *)
Fixpoint traverse (fuel : nat) (node : value)
    (visitors : gmap string Part004.visitor_entry) : M unit :=
  match fuel with
  | 0 => out_of_fuel
  | S fuel =>
      let* ty := read (λ h, member h node "type") in
      let definition := Map_get table ty in
      let visitorFunc := Part004.visitors_get visitors ty in
      Part004.call Enter ty node (function_entry visitorFunc) ;;
      let* fields := definition_visitor definition in
      match fields with
      | Some keys =>
          forEach
            (Part004.visit_field (λ n, traverse fuel n visitors) node) keys
      | None => ret tt
      end
  end.

End Traverse.

End Test2.

(** The entries of a visitor map that are functions. *)
Definition functions_only (visitors : gmap string Part004.visitor_entry)
  : gmap string Part004.visitor_entry :=
  omap (λ e, match e with
             | Part004.VFunction _ => Some e
             | Part004.VObject _ => None
             end) visitors.

(** The enter visits of a record. *)
Definition enters_only (t : list event) : list event :=
  filter (λ e, ev_phase e = Enter) t.

(** ** The walker that prints *)

(** [traverse] of the first version: no visitor map, the type of each node
    goes to the console. *)
Module Part003.

(** [console.log(node.type)]: the record has the line as a visit of the
    node, of the type printed. *)
Definition log (ty : value) (node : value) : M unit :=
  λ h, (h, [Ev Enter ty (root_path node) None], Ok tt).

Section Traverse.

Variable table : gmap string definition.

(**
<<
  function traverse(node) {
      const definition = astDefinitionsMap.get(node.type);
      console.log(node.type);
      if (definition.visitor) {
          definition.visitor.forEach(key => {
              const prop = node[key];
              if (Array.isArray(prop)) {
                  prop.forEach(childNode => {
                      traverse(childNode);
                  })
              } else {
                  traverse(prop);
              }
          })
      }
  }
>> *)
Fixpoint traverse (fuel : nat) (node : value) : M unit :=
  match fuel with
  | 0 => out_of_fuel
  | S fuel =>
      let* ty := read (λ h, member h node "type") in
      let definition := Map_get table ty in
      log ty node ;;
      let* fields := definition_visitor definition in
      match fields with
      | Some keys => forEach (Part004.visit_field (traverse fuel) node) keys
      | None => ret tt
      end
  end.

End Traverse.

End Part003.

(** The lines a record of the printing walker stands for. *)
Definition printed (t : list event) : list value := ev_type <$> t.

(** The path of the BinaryExpression of scenario D in the walker whose
    paths have no key. *)
Definition path_D_short : NodePath :=
  mkNodePath (VRef 2) (VRef 1) (Some (root_path (VRef 1))) None None.

(** ** Hooks that keep the tree *)

(** The members [traverse] reads of a node: its [type], and the fields the
    table lists for some type. *)
Definition read_by (table : gmap string definition) (k : string) : Prop :=
  k = "type" ∨ ∃ ty d, table !! ty = Some d ∧ k ∈ default [] (visitor d).

(** The store [h'] has every object of [h], with the elements it had if it
    is a sequence and with the members [traverse] reads as they were. Other
    members may differ, and [h'] may have further objects. *)
Definition kept (table : gmap string definition) (h h' : heap) : Prop :=
  ∀ l o, h !! l = Some o →
         ∃ o', h' !! l = Some o' ∧ elems o' = elems o
               ∧ ∀ k, read_by table k → props o' !! k = props o !! k.

(** From some amount of fuel on, a part of a walk started in [h1] ends
    normally, in a store that [post] relates to [h1], having entered the
    nodes [ns] in this order and left the same nodes. *)
Definition well_run (run : nat → M unit) (post : heap → heap → Prop)
    (ns : list value) (h1 : heap) : Prop :=
  ∃ t h2, (∃ f0, ∀ fuel, f0 ≤ fuel → run fuel h1 = (h2, t, Ok tt))
          ∧ post h1 h2
          ∧ visited Enter t = ns
          ∧ visited Exit t ≡ₚ ns.

(** ** The visitor of the runs of [part_004] and [part_005] *)

(** [v[k] = x] in the code of a script, which is not strict: on a primitive
    the assignment does nothing. *)
Definition assign (h : heap) (v : value) (k : string) (x : value)
  : heap * result unit :=
  match v with
  | VUndef | VNull => (h, Fail (TypeError_set v k))
  | VBool _ | VNum _ | VStr _ => (h, Done tt)
  | VRef _ => set_member h v k x
  end.

(** [enter(node) { console.log('enter'); }] *)
Definition logging : Part004.hook := λ _ h, (h, Done VUndef).

(** [exit(node) { console.log('exit'); node.name = 'b'; }] *)
Definition renaming : Part004.hook :=
  λ node h,
    match assign h node "name" (VStr "b") with
    | (h', Done _) => (h', Done VUndef)
    | (h', Fail e) => (h', Fail e)
    end.

(** [{ Identifier: { enter(node) {...}, exit(node) {...} } }] *)
Definition visitors_004 : gmap string Part004.visitor_entry :=
  {[ "Identifier" :=
       Part004.VObject (Part004.VisitorFuncs (Some logging) (Some renaming)) ]}.

(** An object as [renaming] leaves it. *)
Definition renamed (o : object) : object :=
  Obj (<["name" := VStr "b"]> (props o)) (elems o).

(** The store with the node [n] renamed if it is an Identifier. *)
Definition rename_identifier (h : heap) (n : value) : heap :=
  match n with
  | VRef l =>
      match h !! l with
      | Some o =>
          if decide (props o !! "type" = Some (VStr "Identifier"))
          then <[l := renamed o]> h
          else h
      | None => h
      end
  | _ => h
  end.

(** A hook tends the tree when, called with a path whose node is an object,
    it returns and keeps what [traverse] reads of every object. *)
Definition tends (table : gmap string definition) (f : hook) : Prop :=
  ∀ path l o h1,
    node path = VRef l → h1 !! l = Some o →
    ∃ v, (f path h1).2 = Done v ∧ kept table h1 (f path h1).1.

(** [exit(path) { path.node.name = 'b'; ... }], the hook of the run of
    [part_005]; the loop that follows the assignment only prints. *)
Definition visitors_005 : gmap string visitor_entry :=
  {[ "Identifier" := VObject (VisitorFuncs None (Some (on_node renaming))) ]}.

(** ** Elements of a sequence, for the loop that goes on after a removal *)

(** In the store [h] the value [e] is a node of a type the table knows and
    lists no fields for, and the visitor map holds nothing under that
    type. *)
Definition leaf_without_hook (table : gmap string definition)
    (visitors : gmap string visitor_entry) (h : heap) (e : value) : Prop :=
  ∃ ty d,
    member h e "type" = Done (VStr ty)
    ∧ table !! ty = Some d
    ∧ default [] (visitor d) = []
    ∧ visitors !! ty = None.

(** In the store [h] the value [b] is a node of a type the table knows and
    lists no fields for, whose enter hook is [path => path.remove()] and
    which has no exit hook. *)
Definition leaf_removed_on_enter (table : gmap string definition)
    (visitors : gmap string visitor_entry) (h : heap) (b : value) : Prop :=
  ∃ ty d,
    member h b "type" = Done (VStr ty)
    ∧ table !! ty = Some d
    ∧ default [] (visitor d) = []
    ∧ enter (normalise (visitors !! ty)) = Some (calling remove)
    ∧ exit (normalise (visitors !! ty)) = None.

(** ** The course of a walk that ends normally *)

(** The hook [f], if there is one, was called with [path] in the store [h],
    returned, and left the store [h']; [res] is what the record keeps of
    the call. Without a hook the store stays and the record keeps
    nothing. *)
Definition hook_ran (f : option hook) (path : NodePath) (h : heap)
    (res : option (result value)) (h' : heap) : Prop :=
  match f with
  | None => res = None ∧ h' = h
  | Some g => ∃ v, g path h = (h', Done v) ∧ res = Some (Done v)
  end.

(** [walked table visitors h a h']: from the store [h], the activation [a]
    took place and left the store [h'].
    - For a node: its type is read and has an entry; the enter hook
      registered for the type runs; the fields of the entry are walked, in
      the order of the entry; the exit hook registered for the type runs.
    - For a field: the child is what the field of the node holds when the
      loop reaches the field. A value that is not a sequence is walked, with
      no index. For a sequence the indices from [0] up to the length it has
      then are gone through.
    - For an index: the element is what the sequence holds at that index
      when the loop reaches the index, and it is walked with that index; an
      index at which the sequence holds nothing by then is passed over. *)
Inductive walked (table : gmap string definition)
    (visitors : gmap string visitor_entry) : heap → activation → heap → Prop :=
  | walked_node h h1 h2 h3 n p pp k i ty d hi ho groups :
      member h n "type" = Done ty →
      Map_get table ty = Some d →
      hook_ran (enter (normalise (visitors_get visitors ty)))
        (mkNodePath n p pp k i) h hi h1 →
      walked_fields table visitors n (mkNodePath n p pp k i) h1
        (default [] (visitor d)) groups h2 →
      hook_ran (exit (normalise (visitors_get visitors ty)))
        (mkNodePath n p pp k i) h2 ho h3 →
      walked table visitors h
        (Act (mkNodePath n p pp k i) ty hi ho (concat groups)) h3
with walked_fields (table : gmap string definition)
    (visitors : gmap string visitor_entry)
  : value → NodePath → heap → list string → list (list activation) → heap
    → Prop :=
  | walked_fields_nil n path h :
      walked_fields table visitors n path h [] [] h
  | walked_fields_single n path h h1 h2 k ks c a groups :
      member h n k = Done c →
      as_array h c = None →
      act_path a = mkNodePath c n (Some path) (Some k) None →
      walked table visitors h a h1 →
      walked_fields table visitors n path h1 ks groups h2 →
      walked_fields table visitors n path h (k :: ks) ([a] :: groups) h2
  | walked_fields_sequence n path h h1 h2 k ks c es cs groups :
      member h n k = Done c →
      as_array h c = Some es →
      walked_elements table visitors n path k c h 0 (length es) cs h1 →
      walked_fields table visitors n path h1 ks groups h2 →
      walked_fields table visitors n path h (k :: ks) (cs :: groups) h2
with walked_elements (table : gmap string definition)
    (visitors : gmap string visitor_entry)
  : value → NodePath → string → value → heap → nat → nat → list activation
    → heap → Prop :=
  | walked_elements_nil n path k c h lo :
      walked_elements table visitors n path k c h lo 0 [] h
  | walked_elements_present n path k c h h1 h2 lo count es v a cs :
      as_array h c = Some es →
      es !! lo = Some v →
      act_path a = mkNodePath v n (Some path) (Some k) (Some lo) →
      walked table visitors h a h1 →
      walked_elements table visitors n path k c h1 (S lo) count cs h2 →
      walked_elements table visitors n path k c h lo (S count) (a :: cs) h2
  | walked_elements_absent n path k c h h2 lo count cs :
      (∀ es, as_array h c = Some es → es !! lo = None) →
      walked_elements table visitors n path k c h (S lo) count cs h2 →
      walked_elements table visitors n path k c h lo (S count) cs h2.

Scheme walked_mut := Minimality for walked Sort Prop
  with walked_fields_mut := Minimality for walked_fields Sort Prop
  with walked_elements_mut := Minimality for walked_elements Sort Prop.

Combined Scheme conj_walked_mut
  from walked_mut, walked_fields_mut, walked_elements_mut.

(** * Properties *)

(** ** The methods of NodePath *)

Lemma spliced_remove_lookup_lt start (es : list value) j :
  j < start → spliced start [] es !! j = es !! j.
Proof.
  intros Hj. unfold spliced. simpl.
  destruct (decide (start ≤ length es)).
  - rewrite lookup_app_l by (rewrite length_take; lia).
    by rewrite lookup_take_lt.
  - rewrite take_ge, drop_ge by lia. by rewrite app_nil_r.
Qed.

Lemma spliced_remove_lookup_ge start (es : list value) j :
  start ≤ j → spliced start [] es !! j = es !! S j.
Proof.
  intros Hj. unfold spliced. simpl.
  destruct (decide (start ≤ length es)).
  - rewrite lookup_app_r by (rewrite length_take; lia).
    rewrite length_take, lookup_drop. f_equal. lia.
  - rewrite take_ge, drop_ge by lia. rewrite app_nil_r.
    rewrite !lookup_ge_None_2 by lia. done.
Qed.

Lemma spliced_remove_length start (es : list value) :
  start < length es → length (spliced start [] es) = length es - 1.
Proof.
  intros Hlen. unfold spliced. simpl.
  rewrite length_app, length_take, length_drop. lia.
Qed.

Lemma spliced_past_end start items (es : list value) :
  length es ≤ start → spliced start items es = es ++ items.
Proof.
  intros Hlen. unfold spliced.
  rewrite take_ge by lia. rewrite drop_ge by lia. by rewrite app_nil_r.
Qed.

Lemma set_member_ref (h : heap) l o k x :
  h !! l = Some o →
  set_member h (VRef l) k x
  = (<[l := Obj (<[k := x]> (props o)) (elems o)]> h, Done tt).
Proof. intros Hl. simpl. by rewrite Hl. Qed.

Lemma member_after_set (h : heap) l o k x :
  member (<[l := Obj (<[k := x]> (props o)) (elems o)]> h) (VRef l) k = Done x.
Proof. simpl. rewrite lookup_insert_eq. simpl. by rewrite lookup_insert_eq. Qed.

Lemma member_is_ref (h : heap) v k l :
  member h v k = Done (VRef l) → ∃ pl o, v = VRef pl ∧ h !! pl = Some o.
Proof.
  destruct v as [| | | | |pl]; try done. simpl.
  destruct (h !! pl) as [o|] eqn:Hpl; [|done]. intros _. by exists pl, o.
Qed.

(** With a non-zero index on a slot that holds a sequence, [remove] splices
    in that sequence and then assigns [null] to the slot. *)
Lemma remove_indexed this (h : heap) i la es :
  listKey this = Some (S i) →
  member h (parent this) (key_name (key this)) = Done (VRef la) →
  as_array h (VRef la) = Some es →
  ∃ h', remove this h = (h', Done tt)
        ∧ as_array h' (VRef la) = Some (spliced (S i) [] es)
        ∧ member h' (parent this) (key_name (key this)) = Done VNull.
Proof.
  intros Hi Hm Ha. destruct (member_is_ref _ _ _ _ Hm) as (pl & o & Hp & Hpl).
  unfold remove. rewrite Hi, Hm. simpl in Ha |- *.
  destruct (h !! la) as [oa|] eqn:Hla; [|done]. simpl in Ha. rewrite Ha.
  simpl. rewrite Hp.
  set (h1 := <[la := _]> h).
  assert (∃ o1, h1 !! pl = Some o1
                ∧ as_array (<[pl := Obj (<[key_name (key this) := VNull]> (props o1)) (elems o1)]> h1) (VRef la)
                  = Some (spliced (S i) [] es)) as (o1 & Ho1 & Harr).
  { destruct (decide (la = pl)) as [->|Hne].
    - eexists. split; [apply lookup_insert_eq|].
      simpl. by rewrite lookup_insert_eq.
    - exists o. split; [by unfold h1; rewrite lookup_insert_ne|].
      simpl. rewrite lookup_insert_ne by done. unfold h1.
      by rewrite lookup_insert_eq. }
  rewrite (set_member_ref _ _ _ _ _ Ho1).
  eexists. split; [done|]. split; [done|]. apply member_after_set.
Qed.

(** Likewise [replaceWith] splices the new node in and then assigns it to
    the slot. *)
Lemma replaceWith_indexed this n (h : heap) i la es :
  listKey this = Some (S i) →
  member h (parent this) (key_name (key this)) = Done (VRef la) →
  as_array h (VRef la) = Some es →
  ∃ h', replaceWith this n h = (h', Done tt)
        ∧ as_array h' (VRef la) = Some (spliced (S i) [n] es)
        ∧ member h' (parent this) (key_name (key this)) = Done n.
Proof.
  intros Hi Hm Ha. destruct (member_is_ref _ _ _ _ Hm) as (pl & o & Hp & Hpl).
  unfold replaceWith. rewrite Hi, Hm. simpl in Ha |- *.
  destruct (h !! la) as [oa|] eqn:Hla; [|done]. simpl in Ha. rewrite Ha.
  simpl. rewrite Hp.
  set (h1 := <[la := _]> h).
  assert (∃ o1, h1 !! pl = Some o1
                ∧ as_array (<[pl := Obj (<[key_name (key this) := n]> (props o1)) (elems o1)]> h1) (VRef la)
                  = Some (spliced (S i) [n] es)) as (o1 & Ho1 & Harr).
  { destruct (decide (la = pl)) as [->|Hne].
    - eexists. split; [apply lookup_insert_eq|].
      simpl. by rewrite lookup_insert_eq.
    - exists o. split; [by unfold h1; rewrite lookup_insert_ne|].
      simpl. rewrite lookup_insert_ne by done. unfold h1.
      by rewrite lookup_insert_eq. }
  rewrite (set_member_ref _ _ _ _ _ Ho1).
  eexists. split; [done|]. split; [done|]. apply member_after_set.
Qed.

(** Without a truthy index both methods only assign to the slot. *)
Lemma remove_unindexed this (h : heap) pl o :
  truthy_index (listKey this) = None →
  parent this = VRef pl → h !! pl = Some o →
  remove this h
  = (<[pl := Obj (<[key_name (key this) := VNull]> (props o)) (elems o)]> h,
     Done tt).
Proof.
  intros Hi Hp Hpl. unfold remove. rewrite Hi, Hp. simpl. by rewrite Hpl.
Qed.

Lemma replaceWith_unindexed this n (h : heap) pl o :
  truthy_index (listKey this) = None →
  parent this = VRef pl → h !! pl = Some o →
  replaceWith this n h
  = (<[pl := Obj (<[key_name (key this) := n]> (props o)) (elems o)]> h,
     Done tt).
Proof.
  intros Hi Hp Hpl. unfold replaceWith. rewrite Hi, Hp. simpl. by rewrite Hpl.
Qed.

(** What the writes of the methods leave alone. *)
Lemma set_member_frame (h h' : heap) v k x r :
  set_member h v k x = (h', r) →
  dom h' = dom h ∧ ∀ l, v ≠ VRef l → h' !! l = h !! l.
Proof.
  destruct v as [| | | | |pl]; simpl; try (intros [= <- <-]; done).
  destruct (h !! pl) as [o|] eqn:Hpl; intros [= <- <-]; [|done].
  split; [by apply dom_insert_lookup_L|].
  intros l Hl. apply lookup_insert_ne. congruence.
Qed.

Lemma splice_frame (h h' : heap) a i items r :
  splice h a i items = (h', r) →
  dom h' = dom h ∧ ∀ l, a ≠ VRef l → h' !! l = h !! l.
Proof.
  destruct a as [| | | | |la]; simpl; try (intros [= <- <-]; done).
  destruct (h !! la) as [o|] eqn:Hla; [|intros [= <- <-]; done].
  destruct (elems o) as [es|]; intros [= <- <-]; [|done].
  split; [by apply dom_insert_lookup_L|].
  intros l Hl. apply lookup_insert_ne. congruence.
Qed.

Lemma set_member_fail (h h' : heap) v k x e :
  set_member h v k x = (h', Fail e) → h' = h.
Proof.
  destruct v as [| | | | |pl]; simpl; try (intros [= <- <-]; done).
  by destruct (h !! pl); intros [= <-].
Qed.

Lemma splice_fail (h h' : heap) a i items e :
  splice h a i items = (h', Fail e) → h' = h.
Proof.
  destruct a as [| | | | |la]; simpl; try (intros [= <- <-]; done).
  destruct (h !! la) as [o|]; [|by intros [= <-]].
  by destruct (elems o); intros [= <-].
Qed.

(** Both methods are a splice, when the index is truthy, followed by an
    assignment to the slot. *)
Lemma mutation_inv (h h' : heap) this items x r :
  and_then
    (match truthy_index (listKey this) with
     | Some i =>
         match member h (parent this) (key_name (key this)) with
         | Done a => splice h a i items
         | Fail e => (h, Fail e)
         end
     | None => (h, Done tt)
     end)
    (λ _ h, set_member h (parent this) (key_name (key this)) x)
  = (h', r) →
  (∃ e, r = Fail e ∧ h' = h)
  ∨ (truthy_index (listKey this) = None
     ∧ set_member h (parent this) (key_name (key this)) x = (h', Done tt)
     ∧ r = Done tt)
  ∨ (∃ i a h1,
       truthy_index (listKey this) = Some i
       ∧ member h (parent this) (key_name (key this)) = Done a
       ∧ splice h a i items = (h1, Done tt)
       ∧ set_member h1 (parent this) (key_name (key this)) x = (h', Done tt)
       ∧ r = Done tt).
Proof.
  destruct (truthy_index (listKey this)) as [i|]; simpl.
  - destruct (member h (parent this) (key_name (key this))) as [a|e] eqn:Hm;
      simpl; [|intros [= <- <-]; left; by exists e].
    destruct (splice h a i items) as [h1 [[]|e]] eqn:Hs; simpl.
    2: { intros [= <- <-]. left. exists e. split; [done|].
         by eapply splice_fail. }
    intros Hset. destruct r as [[]|e].
    + right. right. by exists i, a, h1.
    + exfalso. revert Hm Hset.
      destruct (parent this) as [| | | | |pl]; try done;
        try (intros [= <-]; done).
      intros Hm Hset. simpl in Hm. destruct (h !! pl) as [o|] eqn:Hpl; [|done].
      apply splice_frame in Hs as [Hdom _].
      assert (is_Some (h1 !! pl)) as [o1 Ho1].
      { apply elem_of_dom. rewrite Hdom. apply elem_of_dom. by exists o. }
      simpl in Hset. by rewrite Ho1 in Hset.
  - intros Hset. destruct r as [[]|e].
    + right. by left.
    + left. exists e. split; [done|]. by eapply set_member_fail.
Qed.

Lemma splice_member (h h1 : heap) a i items r :
  splice h a i items = (h1, r) → ∀ v k, member h1 v k = member h v k.
Proof.
  destruct a as [| | | | |la]; simpl; try (by intros [= <- <-]).
  destruct (h !! la) as [o|] eqn:Hla; [|by intros [= <- <-]].
  destruct (elems o) as [es|]; intros [= <- <-]; [|done].
  intros [| | | | |l] k; try done. simpl.
  destruct (decide (l = la)) as [->|Hne].
  - by rewrite lookup_insert_eq, Hla.
  - by rewrite lookup_insert_ne.
Qed.

Lemma set_member_member (h h1 : heap) v0 k0 x r :
  set_member h v0 k0 x = (h1, r) →
  ∀ v k, k ≠ k0 → member h1 v k = member h v k.
Proof.
  destruct v0 as [| | | | |pl]; simpl; try (by intros [= <- <-]).
  destruct (h !! pl) as [o|] eqn:Hpl; intros [= <- <-]; [|done].
  intros [| | | | |l] k Hk; try done. simpl.
  destruct (decide (l = pl)) as [->|Hne].
  - rewrite lookup_insert_eq, Hpl. simpl. by rewrite lookup_insert_ne.
  - by rewrite lookup_insert_ne.
Qed.

(** [remove] changes no member of any object but the one it assigns. *)
Lemma remove_member this (h h1 : heap) r :
  remove this h = (h1, r) →
  ∀ v k, k ≠ key_name (key this) → member h1 v k = member h v k.
Proof.
  intros Hrun v k Hk. apply mutation_inv in Hrun
    as [(e & _ & ->)|[(_ & Hset & _)|(i & a & h0 & _ & _ & Hs & Hset & _)]].
  - done.
  - by apply (set_member_member _ _ _ _ _ _ Hset).
  - rewrite (set_member_member _ _ _ _ _ _ Hset) by done.
    by apply (splice_member _ _ _ _ _ _ Hs).
Qed.

(** ** C1: replaceWith on an element of a sequence *)

(** C1 (the code departs from it). On scenario A the exit hook of the
    NumericLiteral calls [replaceWith] on a path whose index is [0]. The walk
    ends normally, but the index [0] is falsy, so nothing is spliced: the
    sequence still holds the NumericLiteral, and the assignment that follows
    puts the new Identifier in place of the whole sequence, so [root.body] is
    the Identifier object and [root.body[0]] is [undefined]. *)
Theorem replaceWith_scenario_A :
  ∃ h' t,
    walk astDefinitionsMap 3 (VRef 1) visitors_A scenario_A = (h', t, Ok tt)
    ∧ member h' (VRef 1) "body" = Done (VRef 4)
    ∧ h' !! 4%positive = Some identifier_x
    ∧ isArray h' (VRef 4) = false
    ∧ index h' (VRef 4) 0 = VUndef
    ∧ as_array h' (VRef 2) = Some [VRef 3].
Proof. do 2 eexists. vm_compute. repeat split; reflexivity. Qed.

(** ** C2: remove on an element of a sequence *)

(** C2 fails as stated: on scenario B no walk visits both [A] and [C]
    once. The [forEach] over [body] reads the length once and goes on with
    the next index after [B] was spliced out at index [1]; [C] has moved to
    index [1] by then and index [2] is gone, so [C] is never visited. *)
Lemma remove_scenario_B_counterexample :
  ¬ ∃ fuel h' t r,
      walk table_B fuel (VRef 1) visitors_B scenario_B = (h', t, r)
      ∧ r ≠ OutOfFuel
      ∧ visits Enter (VRef 3) t = 1
      ∧ visits Enter (VRef 5) t = 1.
Proof.
  intros (fuel & h' & t & r & Hw & Hr & _ & HC).
  destruct fuel as [|[|fuel]].
  - vm_compute in Hw. by injection Hw as <- <- <-.
  - vm_compute in Hw. by injection Hw as <- <- <-.
  - assert (walk table_B (S (S fuel)) (VRef 1) visitors_B scenario_B
            = walk table_B 2 (VRef 1) visitors_B scenario_B) as Heq.
    { clear. destruct fuel; reflexivity. }
    rewrite Heq in Hw. vm_compute in Hw. injection Hw as <- <- <-.
    vm_compute in HC. discriminate.
Qed.

(** ** Equations of the walk *)

Lemma bind_throw {A B} (m : M A) (f : A → M B) h h1 t1 e :
  m h = (h1, t1, Throw e) → bind m f h = (h1, t1, Throw e).
Proof. intros Hm. unfold bind. by rewrite Hm. Qed.

(** Inversion of a bind: either the first part ended the computation, or it
    returned and the second part ran from where it stopped. *)
Lemma bind_inv {A B} (m : M A) (f : A → M B) h h' t r :
  bind m f h = (h', t, r) →
  (∃ h1 t1 a t2, m h = (h1, t1, Ok a) ∧ f a h1 = (h', t2, r) ∧ t = t1 ++ t2)
  ∨ (m h = (h', t, OutOfFuel) ∧ r = OutOfFuel)
  ∨ (∃ e, m h = (h', t, Throw e) ∧ r = Throw e).
Proof.
  unfold bind. destruct (m h) as [[h1 t1] [a|e|]].
  - destruct (f a h1) as [[h2 t2] r2] eqn:Hf. intros [= <- <- <-].
    left. by exists h1, t1, a, t2.
  - intros [= <- <- <-]. right. right. by exists e.
  - intros [= <- <- <-]. right. by left.
Qed.

Lemma bind_ok_inv {A B} (m : M A) (f : A → M B) h h' t b :
  bind m f h = (h', t, Ok b) →
  ∃ h1 t1 a t2, m h = (h1, t1, Ok a) ∧ f a h1 = (h', t2, Ok b) ∧ t = t1 ++ t2.
Proof.
  intros Hb. apply bind_inv in Hb as [H|[[_ ?]|[e [_ ?]]]]; done.
Qed.

Lemma bind_read_done {B} (g : heap → result value) (f : value → M B) h c :
  g h = Done c → bind (read g) f h = f c h.
Proof.
  intros Hg. unfold bind, read. rewrite Hg.
  by destruct (f c h) as [[??]?].
Qed.

Lemma bind_read_fail {B} (g : heap → result value) (f : value → M B) h e :
  g h = Fail e → bind (read g) f h = (h, [], Throw e).
Proof. intros Hg. unfold bind, read. by rewrite Hg. Qed.

Lemma bind_definition_some {B} d (f : option (list string) → M B) h :
  bind (definition_visitor (Some d)) f h = f (visitor d) h.
Proof. unfold bind, definition_visitor. by destruct (f _ h) as [[??]?]. Qed.

Lemma bind_definition_none {B} (f : option (list string) → M B) h :
  bind (definition_visitor None) f h
  = (h, [], Throw (TypeError_read VUndef "visitor")).
Proof. done. Qed.

Section Walk.

Variable table : gmap string definition.
Variable visitors : gmap string visitor_entry.

(** The body of [traverse] once [node.type] has been read. *)
Lemma traverse_S fuel n p pp k i h :
  traverse table (S fuel) n visitors p pp k i h
  = match member h n "type" with
    | Fail e => (h, [], Throw e)
    | Done ty =>
        let path := mkNodePath n p pp k i in
        let funcs := normalise (visitors_get visitors ty) in
        (call Enter ty path (enter funcs) ;;
         let* fields := definition_visitor (Map_get table ty) in
         match fields with
         | Some keys =>
             forEach
               (visit_field
                  (λ n p pp k i, traverse table fuel n visitors p pp k i)
                  n path) keys
         | None => ret tt
         end ;;
         call Exit ty path (exit funcs)) h
    end.
Proof.
  simpl. unfold bind at 1, read at 1.
  destruct (member h n "type") as [ty|e]; [|done].
  match goal with |- context [?f h] =>
    match f with bind _ _ => destruct (f h) as [[h2 t2] r2] end end.
  done.
Qed.

End Walk.

(** ** Aborting *)

Section Aborting.

Variable table : gmap string definition.
Variable visitors : gmap string visitor_entry.

Local Abbreviation abortive := (abortive_in table).

Lemma aborts_app {A B} t1 t2 (a : A) (r : outcome B) :
  aborts table t1 (Ok a) → aborts table t2 r → aborts table (t1 ++ t2) r.
Proof.
  induction t1 as [|e t1 IH]; simpl; [done|].
  destruct (fatal table e); [by intros [_ ?]|]. auto.
Qed.

Lemma abortive_ret {A} (a : A) : abortive (ret a).
Proof. by intros h h' t r [= <- <- <-]. Qed.

Lemma abortive_out_of_fuel {A} : abortive (@out_of_fuel A).
Proof. by intros h h' t r [= <- <- <-]. Qed.

Lemma abortive_read {A} (f : heap → result A) : abortive (read f).
Proof.
  intros h h' t r. unfold read. by destruct (f h); intros [= <- <- <-].
Qed.

Lemma abortive_bind {A B} (m : M A) (f : A → M B) :
  abortive m → (∀ a, abortive (f a)) → abortive (bind m f).
Proof.
  intros Hm Hf h h' t r Hb.
  apply bind_inv in Hb as [(h1 & t1 & a & t2 & H1 & H2 & ->)|[[H1 ->]|[e [H1 ->]]]].
  - eapply aborts_app; [by eapply Hm|by eapply Hf].
  - specialize (Hm _ _ _ _ H1). clear -Hm.
    induction t as [|e t IH]; simpl in *; [done|].
    destruct (fatal table e); [by destruct Hm|auto].
  - specialize (Hm _ _ _ _ H1). clear -Hm.
    induction t as [|e' t IH]; simpl in *; [done|].
    destruct (fatal table e'); [|auto].
    destruct Hm as [-> [= ->]]. done.
Qed.

Lemma abortive_forEach {A} (f : A → M unit) l :
  (∀ a, abortive (f a)) → abortive (forEach f l).
Proof.
  intros Hf. induction l as [|a l IH]; simpl.
  - apply abortive_ret.
  - apply abortive_bind; auto.
Qed.

Lemma abortive_forEach_array prop (f : value → nat → M unit) :
  (∀ v k, abortive (f v k)) → abortive (forEach_array prop f).
Proof.
  intros Hf h h' t r. unfold forEach_array.
  destruct (as_array h prop) as [es|]; [|by intros [= <- <- <-]].
  apply abortive_forEach. intros k h1 h1' t1 r1. unfold forEach_step.
  destruct (as_array h1 prop) as [es1|]; [|by intros [= <- <- <-]].
  destruct (es1 !! k) as [v|]; [apply Hf|by intros [= <- <- <-]].
Qed.

Lemma abortive_visit_field rec n path k :
  (∀ n p pp k i, abortive (rec n p pp k i)) →
  abortive (visit_field rec n path k).
Proof.
  intros Hrec. unfold visit_field.
  apply abortive_bind; [apply abortive_read|]. intros prop.
  intros h h' t r. destruct (isArray h prop); [|apply Hrec].
  apply abortive_forEach_array. intros. apply Hrec.
Qed.

Lemma abortive_call_exit ty path f : abortive (call Exit ty path f).
Proof.
  intros h h' t r. unfold call. destruct f as [f|].
  - destruct (f path h) as [h1 [v|e]]; by intros [= <- <- <-].
  - by intros [= <- <- <-].
Qed.

Lemma abortive_traverse fuel n p pp k i :
  abortive (λ h, traverse table fuel n visitors p pp k i h).
Proof.
  revert n p pp k i. induction fuel as [|fuel IH]; intros n p pp k i.
  { apply abortive_out_of_fuel. }
  intros h h' t r. rewrite traverse_S.
  destruct (member h n "type") as [ty|e]; [|by intros [= <- <- <-]].
  cbv zeta. set (path := mkNodePath n p pp k i).
  set (funcs := normalise (visitors_get visitors ty)).
  intros Hb.
  apply bind_inv in Hb as [(h1 & t1 & [] & t2 & H1 & H2 & ->)|[[H1 ->]|[e [H1 ->]]]].
  - (* the enter hook returned *)
    assert (∃ hk, t1 = [Ev Enter ty path hk]
                  ∧ ∀ err, hk ≠ Some (Fail err)) as (hk & -> & Hhk).
    { unfold call in H1. destruct (enter funcs) as [f|].
      - destruct (f path h) as [h0 [v|e]]; [|done].
        injection H1 as <- <-. by eexists.
      - injection H1 as <- <-. by eexists. }
    destruct (Map_get table ty) as [d|] eqn:Hd.
    + assert (aborts table t2 r) as Ht2.
      { revert H2. generalize h1 h' t2 r.
        change (abortive (let* fields := definition_visitor (Some d) in
          match fields with
          | Some keys => forEach (visit_field
              (λ n p pp k i, traverse table fuel n visitors p pp k i) n path)
              keys
          | None => ret tt
          end ;; call Exit ty path (exit funcs))).
        apply abortive_bind.
        { by intros h0 h0' t0 r0 [= <- <- <-]. }
        intros fields. apply abortive_bind; [|intros; apply abortive_call_exit].
        destruct fields as [keys|]; [|apply abortive_ret].
        apply abortive_forEach. intros key0.
        apply abortive_visit_field. intros. apply IH. }
      simpl. unfold fatal. simpl. rewrite Hd.
      destruct hk as [[v|err]|]; [done|by destruct (Hhk err)|done].
    + unfold bind, definition_visitor in H2. injection H2 as <- <- <-.
      simpl. unfold fatal. simpl. rewrite Hd.
      destruct hk as [[v|err]|]; [done|by destruct (Hhk err)|done].
  - unfold call in H1. destruct (enter funcs) as [f|]; [|done].
    by destruct (f path h) as [h0 [v|e]].
  - unfold call in H1. destruct (enter funcs) as [f|]; [|done].
    destruct (f path h) as [h0 [v|e0]]; [done|].
    injection H1 as <- <- <-. done.
Qed.

End Aborting.

Lemma aborts_split {A} table t (r : outcome A) t1 e t2 err :
  aborts table t r → t = t1 ++ e :: t2 → fatal table e = Some err →
  t2 = [] ∧ r = Throw err.
Proof.
  intros Ha -> He. induction t1 as [|e1 t1 IH]; simpl in Ha.
  - by rewrite He in Ha.
  - destruct (fatal table e1); [|auto].
    destruct Ha as [Hnil _]. by destruct t1.
Qed.

(** ** C5: a node type the table does not know *)




(** ** C8: mutations that cannot be carried out *)

(** C8 fails as stated. In scenario B the enter hook of [B], reached at
    index [1], first puts an empty sequence in [body] and then calls
    [remove]: the splice is requested at index [1] of a sequence of length
    [0], out of range, and nothing is thrown; the walk ends normally. The
    same holds of [remove] and [replaceWith] called directly on a path whose
    index is past the end of the sequence. *)
Lemma out_of_range_splice_counterexample :
  let this := mkNodePath (VRef 4) (VRef 1) (Some (root_path (VRef 1)))
                (Some "body") (Some 7) in
  (∃ h' t,
     walk table_B 3 (VRef 1)
       {[ "B" := VFunction emptying_then_removing ]} scenario_B
     = (h', t, Ok tt))
  ∧ (∃ h', remove this scenario_B = (h', Done tt))
  ∧ (∃ h', replaceWith this (VRef 5) scenario_B = (h', Done tt)).
Proof. repeat split; eexists; try eexists; vm_compute; reflexivity. Qed.

Lemma mutation_without_parent (this : NodePath) x (h : heap) :
  parent this = VUndef →
  ∃ e, and_then
         (match truthy_index (listKey this) with
          | Some i =>
              match member h (parent this) (key_name (key this)) with
              | Done a => splice h a i x
              | Fail e => (h, Fail e)
              end
          | None => (h, Done tt)
          end)
         (λ _ h, set_member h (parent this) (key_name (key this))
                   (default VNull (head x)))
       = (h, Fail e)
       ∧ e = match truthy_index (listKey this) with
             | Some _ => TypeError_read VUndef (key_name (key this))
             | None => TypeError_set VUndef (key_name (key this))
             end.
Proof.
  intros ->. destruct (truthy_index (listKey this)); simpl; eauto.
Qed.

(** C8, amended. On a path with no parent, the root path, [remove] and
    [replaceWith] throw a [TypeError] and leave the store as it was; when the
    enter hook of the node a walk starts from is such a call, the walk ends
    at once, with that error thrown to its caller. A splice requested past
    the end of the sequence throws nothing: [remove] deletes no element and
    [replaceWith] appends the new node. *)
Theorem mutation_errors (this : NodePath) n (h : heap) :
  (parent this = VUndef →
     ∃ e, remove this h = (h, Fail e) ∧ replaceWith this n h = (h, Fail e)
          ∧ e = match truthy_index (listKey this) with
                | Some _ => TypeError_read VUndef (key_name (key this))
                | None => TypeError_set VUndef (key_name (key this))
                end)
  ∧ (∀ table visitors fuel ast ty f,
       member h ast "type" = Done ty →
       enter (normalise (visitors_get visitors ty)) = Some f →
       f = calling remove ∨ f = calling (λ p, replaceWith p n) →
       let e := TypeError_set VUndef "undefined" in
       walk table (S fuel) ast visitors h
       = (h, [Ev Enter ty (root_path ast) (Some (Fail e))], Throw e))
  ∧ (∀ i la es,
       listKey this = Some (S i) →
       member h (parent this) (key_name (key this)) = Done (VRef la) →
       as_array h (VRef la) = Some es →
       length es ≤ S i →
       ∃ h1 h2,
         remove this h = (h1, Done tt) ∧ as_array h1 (VRef la) = Some es
         ∧ replaceWith this n h = (h2, Done tt)
         ∧ as_array h2 (VRef la) = Some (es ++ [n])).
Proof.
  split; [|split].
  - intros Hp.
    destruct (mutation_without_parent this [] h Hp) as (e & He & ->).
    destruct (mutation_without_parent this [n] h Hp) as (e' & He' & ->).
    eexists. split; [exact He|]. split; [exact He'|done].
  - intros table visitors fuel ast ty f Hty Hf Hcall e.
    unfold walk. rewrite traverse_S, Hty. cbv zeta.
    apply bind_throw. unfold call. rewrite Hf.
    by destruct Hcall as [->| ->].
  - intros i la es Hi Hm Ha Hlen.
    destruct (remove_indexed this h i la es Hi Hm Ha) as (h1 & Hr & Ha1 & _).
    destruct (replaceWith_indexed this n h i la es Hi Hm Ha)
      as (h2 & Hr2 & Ha2 & _).
    exists h1, h2. rewrite Ha1, Ha2, !spliced_past_end by done.
    by rewrite app_nil_r.
Qed.

Lemma mutation_errors_witness :
  let this := mkNodePath (VRef 4) (VRef 1) (Some (root_path (VRef 1)))
                (Some "body") (Some 3) in
  (∃ e, remove (root_path (VRef 1)) scenario_B = (scenario_B, Fail e)
        ∧ replaceWith (root_path (VRef 1)) (VRef 5) scenario_B
          = (scenario_B, Fail e)
        ∧ e = TypeError_set VUndef "undefined")
  ∧ walk table_B 1 (VRef 1) {[ "Program" := VFunction (calling remove) ]}
      scenario_B
    = (scenario_B,
       [Ev Enter (VStr "Program") (root_path (VRef 1))
          (Some (Fail (TypeError_set VUndef "undefined")))],
       Throw (TypeError_set VUndef "undefined"))
  ∧ (∃ h1 h2,
       remove this scenario_B = (h1, Done tt)
       ∧ as_array h1 (VRef 2) = Some [VRef 3; VRef 4; VRef 5]
       ∧ replaceWith this (VRef 5) scenario_B = (h2, Done tt)
       ∧ as_array h2 (VRef 2) = Some ([VRef 3; VRef 4; VRef 5] ++ [VRef 5])).
Proof.
  intros this.
  destruct (mutation_errors (root_path (VRef 1)) (VRef 5) scenario_B)
    as (Hroot & _ & _).
  destruct (mutation_errors this (VRef 5) scenario_B) as (_ & Hwalk & Hpast).
  split; [|split].
  - apply Hroot. reflexivity.
  - apply (Hwalk table_B _ 0 (VRef 1) (VStr "Program") (calling remove));
      [reflexivity..|]. by left.
  - apply (Hpast 2 2%positive); try reflexivity.
Defined.

(** ** The order of visits *)

Lemma ascending_weaken lo lo' cs : lo' ≤ lo → ascending lo cs → ascending lo' cs.
Proof.
  destruct cs as [|c cs]; [done|]. simpl.
  intros Hlo (i & Hi & Hle & Hcs). exists i. split; [done|]. split; [lia|done].
Qed.

(** The callbacks of a [forEach] over a sequence that end normally make
    activations with strictly ascending indices. *)
Lemma forEach_steps_shape (P : activation → Prop) prop
    (f : value → nat → M unit) n :
  (∀ v k h1 h2 t1, f v k h1 = (h2, t1, Ok tt) →
     ∃ a, t1 = flatten a ∧ listKey (act_path a) = Some k ∧ P a) →
  ∀ lo (h h' : heap) t,
    forEach (forEach_step prop f) (seq lo n) h = (h', t, Ok tt) →
    ∃ cs, t = concat (map flatten cs) ∧ ascending lo cs ∧ Forall P cs.
Proof.
  intros Hf. induction n as [|n IH]; intros lo h h' t; simpl.
  - intros [= <- <-]. by exists [].
  - intros Hb. apply bind_ok_inv in Hb as (h1 & t1 & [] & t2 & H1 & H2 & ->).
    destruct (IH _ _ _ _ H2) as (cs & -> & Hasc & HP).
    unfold forEach_step in H1.
    destruct (as_array h prop) as [es|].
    + destruct (es !! lo) as [v|].
      * destruct (Hf _ _ _ _ _ H1) as (a & -> & Hk & Ha).
        exists (a :: cs). split; [done|]. split; [|by constructor].
        simpl. exists lo. eauto.
      * injection H1 as <- <-. exists cs. split; [done|]. split; [|done].
        eapply ascending_weaken; [|done]. lia.
    + injection H1 as <- <-. exists cs. split; [done|]. split; [|done].
      eapply ascending_weaken; [|done]. lia.
Qed.

Section Order.

Variable table : gmap string definition.
Variable visitors : gmap string visitor_entry.

(** What one call of the [forEach] callback over the fields leaves in the
    record, given the shape of the recursive calls. *)
Lemma visit_field_shape rec n path k (h h' : heap) t :
  (∀ n' p pp k' i h1 h2 t1,
     rec n' p pp k' i h1 = (h2, t1, Ok tt) →
     ∃ a, t1 = flatten a ∧ act_path a = mkNodePath n' p pp k' i
          ∧ ordered table a) →
  visit_field rec n path k h = (h', t, Ok tt) →
  ∃ cs, t = concat (map flatten cs)
        ∧ field_group k cs
        ∧ Forall (λ c, parent (act_path c) = n
                       ∧ parentPath (act_path c) = Some path) cs
        ∧ Forall (ordered table) cs.
Proof.
  intros Hrec. unfold visit_field. intros Hb.
  apply bind_ok_inv in Hb as (h1 & t1 & prop' & t2 & H1 & H2 & ->).
  unfold read in H1. destruct (member h n k) as [prop|]; [|done].
  injection H1 as <- <- <-. simpl.
  destruct (isArray h prop).
  - unfold forEach_array in H2.
    destruct (as_array h prop) as [es|].
    + eapply (forEach_steps_shape
               (λ c, key (act_path c) = Some k
                     ∧ (parent (act_path c) = n
                        ∧ parentPath (act_path c) = Some path)
                     ∧ ordered table c)) in H2 as (cs & -> & Hasc & HP).
      * exists cs. split; [done|]. split.
        { apply group_sequence; [|done].
          eapply Forall_impl; [exact HP|]. by intros c (? & _). }
        split; eapply Forall_impl; try exact HP; by intros c (? & ? & ?).
      * intros v i h3 h4 t3 Hr.
        destruct (Hrec _ _ _ _ _ _ _ _ Hr) as (a & -> & Hp & Ho).
        exists a. rewrite Hp. done.
    + injection H2 as <- <-. exists []. split; [done|].
      split; [by apply group_sequence|]. done.
  - destruct (Hrec _ _ _ _ _ _ _ _ H2) as (a & -> & Hp & Ho).
    exists [a]. simpl. rewrite app_nil_r. split; [done|].
    split; [apply group_single; by rewrite Hp|].
    split; constructor; try done. by rewrite Hp.
Qed.

Lemma call_ok_inv ph ty path f (h h' : heap) t :
  call ph ty path f h = (h', t, Ok tt) → ∃ hk, t = [Ev ph ty path hk].
Proof.
  unfold call. destruct f as [f|].
  - destruct (f path h) as [h1 [v|e]]; [|done]. intros [= <- <-]. eauto.
  - intros [= <- <-]. eauto.
Qed.

Lemma traverse_shape fuel n p pp k i (h h' : heap) t :
  traverse table fuel n visitors p pp k i h = (h', t, Ok tt) →
  ∃ a, t = flatten a ∧ act_path a = mkNodePath n p pp k i ∧ ordered table a.
Proof.
  revert n p pp k i h h' t.
  induction fuel as [|fuel IH]; intros n p pp k i h h' t; [done|].
  rewrite traverse_S. destruct (member h n "type") as [ty|e]; [|done].
  cbv zeta. set (path := mkNodePath n p pp k i). intros Hb.
  apply bind_ok_inv in Hb as (h1 & t1 & [] & t2 & H1 & H2 & ->).
  apply call_ok_inv in H1 as (hi & ->).
  apply bind_ok_inv in H2 as (h2 & t2' & fields & t3 & H2 & H3 & ->).
  unfold definition_visitor in H2.
  destruct (Map_get table ty) as [d|] eqn:Hd; [|done].
  injection H2 as <- <- <-.
  apply bind_ok_inv in H3 as (h3 & t3' & [] & t4 & H3 & H4 & ->).
  apply call_ok_inv in H4 as (ho & ->).
  assert (∃ groups, t3' = concat (map flatten (concat groups))
            ∧ Forall2 field_group (default [] (visitor d)) groups
            ∧ Forall (λ c, parent (act_path c) = n
                           ∧ parentPath (act_path c) = Some path)
                (concat groups)
            ∧ Forall (ordered table) (concat groups))
    as (groups & -> & Hgroups & Hchild & Hord).
  { destruct (visitor d) as [keys|]; simpl.
    - clear Hd. revert h1 t3' H3.
      induction keys as [|key0 keys IHk]; intros h1 t3' H3; simpl in H3.
      + injection H3 as <- <-. exists []. by repeat constructor.
      + apply bind_ok_inv in H3 as (h5 & t5 & [] & t6 & H5 & H6 & ->).
        destruct (IHk _ _ H6) as (groups & -> & Hg & Hc & Ho).
        apply visit_field_shape in H5 as (cs & -> & Hcs & Hcc & Hco);
          [|intros; by eapply IH].
        exists (cs :: groups). simpl. rewrite map_app, concat_app.
        split; [done|]. split; [by constructor|].
        split; apply Forall_app; done.
    - injection H3 as <- <-. exists []. by repeat constructor. }
  exists (Act path ty hi ho (concat groups)). simpl.
  split; [done|]. split; [done|]. by econstructor.
Qed.

End Order.

(** *** Walks that are cut short *)

Lemma part_of_nil full r : r ≠ Ok tt → part_of full [] r.
Proof. intros Hr. split; [apply prefix_nil|]. by intros [] ->. Qed.

Lemma part_of_whole full r : part_of full full r.
Proof. by split. Qed.

Lemma part_of_app full1 full2 t2 r :
  part_of full2 t2 r → part_of (full1 ++ full2) (full1 ++ t2) r.
Proof.
  intros [Hp Hok]. split; [by apply prefix_app|].
  intros u Hu. by rewrite (Hok u Hu).
Qed.

Lemma part_of_cut full1 full2 t1 r :
  r ≠ Ok tt → part_of full1 t1 r → part_of (full1 ++ full2) t1 r.
Proof.
  intros Hr [Hp _]. split; [by apply prefix_app_r|]. by intros [] ->.
Qed.

Lemma forEach_steps_any (P : activation → Prop) prop
    (f : value → nat → M unit) n :
  (∀ v k h1 h2 t1 r1, f v k h1 = (h2, t1, r1) →
     ∃ a, listKey (act_path a) = Some k ∧ P a ∧ part_of (flatten a) t1 r1) →
  ∀ lo (h h' : heap) t r,
    forEach (forEach_step prop f) (seq lo n) h = (h', t, r) →
    ∃ cs, ascending lo cs ∧ Forall P cs
          ∧ part_of (concat (map flatten cs)) t r.
Proof.
  intros Hf. induction n as [|n IH]; intros lo h h' t r; simpl.
  - intros [= <- <- <-]. exists []. split; [done|]. split; [done|].
    apply part_of_whole.
  - intros Hb.
    assert (∀ h1 t1 r1, forEach_step prop f lo h = (h1, t1, r1) →
              (t1 = [] ∧ r1 = Ok tt)
              ∨ ∃ a, listKey (act_path a) = Some lo ∧ P a
                     ∧ part_of (flatten a) t1 r1) as Hstep.
    { intros h1 t1 r1. unfold forEach_step.
      destruct (as_array h prop) as [es|]; [|intros [= <- <- <-]; by left].
      destruct (es !! lo) as [v|]; [|intros [= <- <- <-]; by left].
      intros Hr. right. by eapply Hf. }
    apply bind_inv in Hb
      as [(h1 & t1 & [] & t2 & H1 & H2 & ->)|[[H1 ->]|[e [H1 ->]]]].
    + destruct (IH _ _ _ _ _ H2) as (cs & Hasc & HP & Hpart).
      destruct (Hstep _ _ _ H1) as [[-> _]|(a & Hk & Ha & [_ Hwhole])].
      * exists cs. split; [|done]. eapply ascending_weaken; [|done]. lia.
      * rewrite (Hwhole tt eq_refl). exists (a :: cs).
        split; [simpl; eauto|]. split; [by constructor|].
        simpl. by apply part_of_app.
    + destruct (Hstep _ _ _ H1) as [[_ ?]|(a & Hk & Ha & Hpart)]; [done|].
      exists [a]. split; [simpl; eauto|]. split; [by constructor|].
      simpl. by rewrite app_nil_r.
    + destruct (Hstep _ _ _ H1) as [[_ ?]|(a & Hk & Ha & Hpart)]; [done|].
      exists [a]. split; [simpl; eauto|]. split; [by constructor|].
      simpl. by rewrite app_nil_r.
Qed.

Section OrderSoFar.

Variable table : gmap string definition.
Variable visitors : gmap string visitor_entry.

Lemma visit_field_any rec n path k (h h' : heap) t r :
  (∀ n' p pp k' i h1 h2 t1 r1,
     rec n' p pp k' i h1 = (h2, t1, r1) →
     ∃ a, act_path a = mkNodePath n' p pp k' i
          ∧ ordered_so_far table a ∧ part_of (flatten a) t1 r1) →
  visit_field rec n path k h = (h', t, r) →
  ∃ cs, field_group k cs
        ∧ Forall (λ c, parent (act_path c) = n
                       ∧ parentPath (act_path c) = Some path) cs
        ∧ Forall (ordered_so_far table) cs
        ∧ part_of (concat (map flatten cs)) t r.
Proof.
  intros Hrec. unfold visit_field.
  destruct (member h n k) as [prop|e] eqn:Hm.
  2: { rewrite (bind_read_fail (λ h, member h n k) _ h e Hm).
       intros [= <- <- <-]. exists []. split; [by apply group_sequence|].
       split; [done|]. split; [done|]. by apply part_of_nil. }
  rewrite (bind_read_done (λ h, member h n k) _ h prop Hm).
  destruct (isArray h prop).
  - unfold forEach_array. destruct (as_array h prop) as [es|].
    + intros H2.
      eapply (forEach_steps_any
               (λ c, key (act_path c) = Some k
                     ∧ (parent (act_path c) = n
                        ∧ parentPath (act_path c) = Some path)
                     ∧ ordered_so_far table c)) in H2
        as (cs & Hasc & HP & Hpart).
      * exists cs. split.
        { apply group_sequence; [|done].
          eapply Forall_impl; [exact HP|]. by intros c (? & _). }
        split; [|split; [|done]];
          (eapply Forall_impl; [exact HP|]); by intros c (? & ? & ?).
      * intros v i h3 h4 t3 r3 Hr.
        destruct (Hrec _ _ _ _ _ _ _ _ _ Hr) as (a & Hp & Ho & Hpart).
        exists a. rewrite Hp. done.
    + intros [= <- <- <-]. exists []. split; [by apply group_sequence|].
      split; [done|]. split; [done|]. apply part_of_whole.
  - intros H2. destruct (Hrec _ _ _ _ _ _ _ _ _ H2) as (a & Hp & Ho & Hpart).
    exists [a]. split; [apply group_single; by rewrite Hp|].
    split; [constructor; [by rewrite Hp|done]|].
    split; [by constructor|]. simpl. by rewrite app_nil_r.
Qed.

Lemma fields_any rec n path keys (h h' : heap) t r :
  (∀ n' p pp k' i h1 h2 t1 r1,
     rec n' p pp k' i h1 = (h2, t1, r1) →
     ∃ a, act_path a = mkNodePath n' p pp k' i
          ∧ ordered_so_far table a ∧ part_of (flatten a) t1 r1) →
  forEach (visit_field rec n path) keys h = (h', t, r) →
  ∃ groups,
    Forall2 field_group (take (length groups) keys) groups
    ∧ Forall (λ c, parent (act_path c) = n
                   ∧ parentPath (act_path c) = Some path) (concat groups)
    ∧ Forall (ordered_so_far table) (concat groups)
    ∧ part_of (concat (map flatten (concat groups))) t r.
Proof.
  intros Hrec. revert h t.
  induction keys as [|k keys IH]; intros h t; simpl.
  - intros [= <- <- <-]. exists []. by repeat split.
  - intros Hb.
    assert (∀ h1 t1 r1, r1 ≠ Ok tt →
              visit_field rec n path k h = (h1, t1, r1) →
              ∃ groups,
                Forall2 field_group (take (length groups) (k :: keys)) groups
                ∧ Forall (λ c, parent (act_path c) = n
                               ∧ parentPath (act_path c) = Some path)
                    (concat groups)
                ∧ Forall (ordered_so_far table) (concat groups)
                ∧ part_of (concat (map flatten (concat groups))) t1 r1)
      as Hcut.
    { intros h1 t1 r1 Hr1 H1.
      destruct (visit_field_any _ _ _ _ _ _ _ _ Hrec H1)
        as (cs & Hcs & Hcc & Hco & Hpart).
      exists [cs]. simpl. rewrite app_nil_r.
      split; [constructor; [done|constructor]|]. done. }
    apply bind_inv in Hb
      as [(h1 & t1 & [] & t2 & H1 & H2 & ->)|[[H1 ->]|[e [H1 ->]]]].
    + destruct (IH _ _ H2) as (groups & Hg & Hc & Ho & Hpart).
      destruct (visit_field_any _ _ _ _ _ _ _ _ Hrec H1)
        as (cs & Hcs & Hcc & Hco & [_ Hwhole]).
      rewrite (Hwhole tt eq_refl).
      exists (cs :: groups). simpl. rewrite map_app, concat_app.
      split; [by constructor|]. split; [by apply Forall_app|].
      split; [by apply Forall_app|]. by apply part_of_app.
    + by apply (Hcut h' t OutOfFuel).
    + by apply (Hcut h' t (Throw e)).
Qed.

Lemma call_inv ph ty path f (h h' : heap) t r :
  call ph ty path f h = (h', t, r) →
  ∃ hk, t = [Ev ph ty path hk] ∧ r ≠ OutOfFuel.
Proof.
  unfold call. destruct f as [f|].
  - destruct (f path h) as [h1 [v|e]]; intros [= <- <- <-]; eauto.
  - intros [= <- <- <-]. eauto.
Qed.

Lemma traverse_any fuel n p pp k i (h h' : heap) t r :
  traverse table fuel n visitors p pp k i h = (h', t, r) →
  ∃ a, act_path a = mkNodePath n p pp k i
       ∧ ordered_so_far table a ∧ part_of (flatten a) t r.
Proof.
  revert n p pp k i h h' t r.
  induction fuel as [|fuel IH]; intros n p pp k i h h' t r.
  { intros [= <- <- <-]. exists (Act (mkNodePath n p pp k i) VUndef None None (concat [])).
    split; [done|]. split; [by constructor|]. by apply part_of_nil. }
  rewrite traverse_S. set (path := mkNodePath n p pp k i).
  destruct (member h n "type") as [ty|e].
  2: { intros [= <- <- <-]. exists (Act path VUndef None None (concat [])).
       split; [done|]. split; [by constructor|]. by apply part_of_nil. }
  cbv zeta. fold path. intros Hb.
  assert (∀ hi : option (result value), ordered_so_far table (Act path ty hi None (concat [])))
    as Hleaf by (intros; by constructor).
  apply bind_inv in Hb
    as [(h1 & t1 & [] & t2 & H1 & H2 & ->)|[[H1 ->]|[e [H1 ->]]]].
  2: { by apply call_inv in H1 as (? & _ & ?). }
  2: { apply call_inv in H1 as (hi & -> & _).
       exists (Act path ty hi None (concat [])). split; [done|].
       split; [done|]. split; [by exists [Ev Exit ty path None]|done]. }
  apply call_inv in H1 as (hi & -> & _).
  destruct (Map_get table ty) as [d|] eqn:Hd.
  2: { rewrite bind_definition_none in H2. injection H2 as <- <- <-.
       exists (Act path ty hi None (concat [])). split; [done|].
       split; [done|]. split; [by exists [Ev Exit ty path None]|done]. }
  rewrite bind_definition_some in H2.
  assert ((match visitor d with
           | Some keys =>
               forEach (visit_field
                 (λ n p pp k i, traverse table fuel n visitors p pp k i)
                 n path) keys
           | None => ret tt
           end)
          = forEach (visit_field
              (λ n p pp k i, traverse table fuel n visitors p pp k i) n path)
              (entry_fields table ty)) as Heq.
  { unfold entry_fields. rewrite Hd. by destruct (visitor d). }
  rewrite Heq in H2. clear Heq.
  assert (∀ h3 t3 r3,
            forEach (visit_field
              (λ n p pp k i, traverse table fuel n visitors p pp k i) n path)
              (entry_fields table ty) h1 = (h3, t3, r3) →
            ∃ groups,
              (∀ ho, ordered_so_far table (Act path ty hi ho (concat groups)))
              ∧ part_of (concat (map flatten (concat groups))) t3 r3)
    as Hfields.
  { intros h3 t3 r3 H3.
    apply fields_any in H3 as (groups & Hg & Hc & Ho & Hpart);
      [|intros; by eapply IH].
    exists groups. split; [|done]. intros ho. by constructor. }
  apply bind_inv in H2
    as [(h3 & t3 & [] & t4 & H3 & H4 & ->)|[[H3 ->]|[e [H3 ->]]]].
  - destruct (Hfields _ _ _ H3) as (groups & Hord & [_ Hwhole]).
    rewrite (Hwhole tt eq_refl). apply call_inv in H4 as (ho & -> & _).
    exists (Act path ty hi ho (concat groups)). split; [done|].
    split; [done|]. apply part_of_whole.
  - destruct (Hfields _ _ _ H3) as (groups & Hord & Hpart).
    exists (Act path ty hi None (concat groups)). split; [done|].
    split; [done|]. simpl.
    apply (part_of_app [_]). by apply part_of_cut.
  - destruct (Hfields _ _ _ H3) as (groups & Hord & Hpart).
    exists (Act path ty hi None (concat groups)). split; [done|].
    split; [done|]. simpl.
    apply (part_of_app [_]). by apply part_of_cut.
Qed.

End OrderSoFar.

(** ** C6: enter, children, exit *)

Lemma call_ran ph ty path f (h h' : heap) t :
  call ph ty path f h = (h', t, Ok tt) →
  ∃ res, t = [Ev ph ty path res] ∧ hook_ran f path h res h'.
Proof.
  unfold call, hook_ran. destruct f as [g|].
  - destruct (g path h) as [h1 [v|e]]; intros [= <- <-]. eauto.
  - intros [= <- <-]. eauto.
Qed.

Section TakingPlace.

Variable table : gmap string definition.
Variable visitors : gmap string visitor_entry.

(** What the recursive calls are assumed to do. *)
Variable rec : value → value → option NodePath → option string → option nat
               → M unit.
Hypothesis rec_walked :
  ∀ n p pp k i (h h' : heap) t,
    rec n p pp k i h = (h', t, Ok tt) →
    ∃ a, act_path a = mkNodePath n p pp k i
         ∧ t = flatten a ∧ walked table visitors h a h'.

Lemma elements_walked n path k c count :
  ∀ lo (h h' : heap) t,
    forEach
      (forEach_step c (λ v idx, rec v n (Some path) (Some k) (Some idx)))
      (seq lo count) h = (h', t, Ok tt) →
    ∃ cs, t = concat (map flatten cs)
          ∧ walked_elements table visitors n path k c h lo count cs h'.
Proof.
  induction count as [|count IH]; intros lo h h' t; cbn [seq forEach].
  - intros [= <- <-]. exists []. split; [done|]. constructor.
  - intros Hrun.
    apply bind_ok_inv in Hrun as (h1 & t1 & [] & t2 & Hstep & Hrest & ->).
    destruct (IH _ _ _ _ Hrest) as (cs & -> & Hcs).
    unfold forEach_step in Hstep.
    destruct (as_array h c) as [es|] eqn:Harr.
    + destruct (es !! lo) as [v|] eqn:Hlo.
      * destruct (rec_walked _ _ _ _ _ _ _ _ Hstep) as (a & Hpath & -> & Ha).
        exists (a :: cs). split; [done|].
        by apply (walked_elements_present _ _ _ _ _ _ _ h1 _ _ _ es v).
      * injection Hstep as <- <-. exists cs. split; [done|].
        apply walked_elements_absent; [|done].
        intros es' Heq. congruence.
    + injection Hstep as <- <-. exists cs. split; [done|].
      apply walked_elements_absent; [|done].
      intros es' Heq. congruence.
Qed.

Lemma fields_walked n path keys :
  ∀ (h h' : heap) t,
    forEach (visit_field rec n path) keys h = (h', t, Ok tt) →
    ∃ groups, t = concat (map flatten (concat groups))
              ∧ walked_fields table visitors n path h keys groups h'.
Proof.
  induction keys as [|k keys IH]; intros h h' t; cbn [forEach].
  - intros [= <- <-]. exists []. split; [done|]. constructor.
  - intros Hrun.
    apply bind_ok_inv in Hrun as (h1 & t1 & [] & t2 & Hfield & Hrest & ->).
    destruct (IH _ _ _ Hrest) as (groups & -> & Hgroups).
    unfold visit_field in Hfield.
    destruct (member h n k) as [c|e] eqn:Hm.
    2: { by rewrite (bind_read_fail (λ h, member h n k) _ h e Hm) in Hfield. }
    rewrite (bind_read_done (λ h, member h n k) _ h c Hm) in Hfield.
    unfold isArray, forEach_array in Hfield.
    destruct (as_array h c) as [es|] eqn:Harr.
    + rewrite bool_decide_eq_true_2 in Hfield by by eexists.
      destruct (elements_walked n path k c _ _ _ _ _ Hfield)
        as (cs & -> & Hcs).
      exists (cs :: groups). split.
      { cbn [concat]. by rewrite map_app, concat_app. }
      by apply (walked_fields_sequence _ _ _ _ _ h1 _ _ _ c es).
    + rewrite bool_decide_eq_false_2 in Hfield by by intros [? ?].
      destruct (rec_walked _ _ _ _ _ _ _ _ Hfield) as (a & Hpath & -> & Ha).
      exists ([a] :: groups). split.
      { cbn [concat app]. rewrite map_cons. cbn [concat]. done. }
      by apply (walked_fields_single _ _ _ _ _ h1 _ _ _ c).
Qed.

End TakingPlace.

Lemma traverse_walked table visitors fuel :
  ∀ n p pp k i (h h' : heap) t,
    traverse table fuel n visitors p pp k i h = (h', t, Ok tt) →
    ∃ a, act_path a = mkNodePath n p pp k i
         ∧ t = flatten a ∧ walked table visitors h a h'.
Proof.
  induction fuel as [|fuel IH]; intros n p pp k i h h' t; [done|].
  rewrite traverse_S. destruct (member h n "type") as [ty|e] eqn:Hty; [|done].
  cbv zeta. intros Hrun.
  apply bind_ok_inv in Hrun as (h1 & t1 & [] & t2 & Henter & Hrest & ->).
  apply call_ran in Henter as (hi & -> & Hin).
  destruct (Map_get table ty) as [d|] eqn:Hd;
    [|by rewrite bind_definition_none in Hrest].
  rewrite bind_definition_some in Hrest.
  apply bind_ok_inv in Hrest as (h2 & tf & [] & t3 & Hfields & Hexit & ->).
  apply call_ran in Hexit as (ho & -> & Hout).
  assert (forEach
            (visit_field
               (λ n p pp k i, traverse table fuel n visitors p pp k i)
               n (mkNodePath n p pp k i))
            (default [] (visitor d)) h1 = (h2, tf, Ok tt)) as Hloop.
  { destruct (visitor d); exact Hfields. }
  destruct (fields_walked table visitors _ IH _ _ _ _ _ _ Hloop)
    as (groups & -> & Hgroups).
  exists (Act (mkNodePath n p pp k i) ty hi ho (concat groups)).
  split; [done|]. split; [done|].
  by apply (walked_node _ _ h h1 h2 h' n p pp k i ty d).
Qed.

(** An activation that took place is ordered. *)
Lemma walked_ordered table visitors :
  (∀ h a h', walked table visitors h a h' → ordered table a)
  ∧ (∀ n path h keys groups h',
       walked_fields table visitors n path h keys groups h' →
       Forall2 field_group keys groups
       ∧ Forall (λ c, parent (act_path c) = n
                      ∧ parentPath (act_path c) = Some path) (concat groups)
       ∧ Forall (ordered table) (concat groups))
  ∧ (∀ n path k c h lo count cs h',
       walked_elements table visitors n path k c h lo count cs h' →
       Forall (λ a, key (act_path a) = Some k) cs
       ∧ ascending lo cs
       ∧ Forall (λ c, parent (act_path c) = n
                      ∧ parentPath (act_path c) = Some path) cs
       ∧ Forall (ordered table) cs).
Proof.
  apply (conj_walked_mut table visitors
    (λ h a h', ordered table a)
    (λ n path h keys groups h',
       Forall2 field_group keys groups
       ∧ Forall (λ c, parent (act_path c) = n
                      ∧ parentPath (act_path c) = Some path) (concat groups)
       ∧ Forall (ordered table) (concat groups))
    (λ n path k c h lo count cs h',
       Forall (λ a, key (act_path a) = Some k) cs
       ∧ ascending lo cs
       ∧ Forall (λ c, parent (act_path c) = n
                      ∧ parentPath (act_path c) = Some path) cs
       ∧ Forall (ordered table) cs)).
  - intros h h1 h2 h3 n p pp k i ty d hi ho groups _ Hd _ _
      (Hgroups & Hparents & Hordered) _.
    by apply (ordered_act table _ ty hi ho d groups).
  - intros n path h. by repeat split.
  - intros n path h h1 h2 k ks c a groups _ _ Hpath _ Ha _
      (Hgroups & Hparents & Hordered).
    split; [|split].
    + constructor; [|done]. apply group_single; by rewrite Hpath.
    + cbn [concat app]. constructor; [by rewrite Hpath|done].
    + cbn [concat app]. by constructor.
  - intros n path h h1 h2 k ks c es cs groups _ _ _
      (Hkeys & Hasc & Hpar & Hord) _ (Hgroups & Hparents & Hordered).
    split; [|split].
    + constructor; [|done]. by apply group_sequence.
    + cbn [concat]. by apply Forall_app.
    + cbn [concat]. by apply Forall_app.
  - intros n path k c h lo. by repeat split.
  - intros n path k c h h1 h2 lo count es v a cs _ _ Hpath _ Ha _
      (Hkeys & Hasc & Hpar & Hord).
    split; [|split; [|split]].
    + constructor; [by rewrite Hpath|done].
    + exists lo. rewrite Hpath. by repeat split.
    + constructor; [by rewrite Hpath|done].
    + by constructor.
  - intros n path k c h h2 lo count cs _ _ (Hkeys & Hasc & Hpar & Hord).
    split; [done|]. split; [|done].
    eapply ascending_weaken; [|done]. lia.
Qed.

(** C6 fails as stated where a child is replaced during its own walk: in
    scenario D the enter hook of the sum puts the call in its place, so when
    the statement is left its child is the call, which was neither entered
    nor left. *)
Lemma replaced_child_counterexample :
  ¬ ∃ h' t,
      walk visitorKeys 4 (VRef 1) visitors_replace scenario_D = (h', t, Ok tt)
      ∧ ∀ c, member h' (VRef 1) "expression" = Done c →
             0 < visits Enter c t ∧ 0 < visits Exit c t.
Proof.
  intros (h' & t & Hw & Hchild). vm_compute in Hw. injection Hw as <- <-.
  destruct (Hchild (VRef 5)) as [Hin _]; [reflexivity|].
  vm_compute in Hin. lia.
Qed.

(** C6, amended. A call of [traverse] that ends normally has made the
    visits of one activation that took place as follows. The enter visit of
    the node comes first, with the enter hook registered for its type
    called then. Next come, for each field the table entry of the type
    lists and in the order of the entry, the complete walks of the children:
    of the value the field holds when the loop reaches it, or, when that is
    a sequence, of the element found at each index from [0] up to the
    length it has then, in ascending order, an index that holds nothing by
    its turn being passed over. The exit visit of the node, with its exit
    hook, comes last. So the enter of every visited node precedes its exit,
    and its exit follows the enter and the exit of each child that was so
    met; a node put in the place of a child during the walk of that child
    is not among them. The record of a call that is cut short, by a throw or
    for lack of fuel, is an initial segment of the record of an activation,
    ordered as far as it got. *)
Theorem visits_are_ordered table visitors fuel n p pp k i (h h' : heap) t r :
  traverse table fuel n visitors p pp k i h = (h', t, r) →
  ∃ a, act_path a = mkNodePath n p pp k i
       ∧ match r with
         | Ok _ =>
             t = flatten a ∧ ordered table a
             ∧ walked table visitors h a h'
         | _ => t `prefix_of` flatten a ∧ ordered_so_far table a
         end.
Proof.
  intros Hrun. destruct r as [[]|e|].
  - destruct (traverse_walked table visitors _ _ _ _ _ _ _ _ _ Hrun)
      as (a & Hp & Ht & Ha).
    exists a. split; [done|]. split; [done|]. split; [|done].
    by apply (proj1 (walked_ordered table visitors) h a h').
  - destruct (traverse_any table visitors _ _ _ _ _ _ _ _ _ _ Hrun)
      as (a & Hp & Ho & [Ht _]). by exists a.
  - destruct (traverse_any table visitors _ _ _ _ _ _ _ _ _ _ Hrun)
      as (a & Hp & Ho & [Ht _]). by exists a.
Qed.

Lemma visits_are_ordered_witness :
  (∃ a, act_path a = root_path (VRef 1)
        ∧ (walk table_B 3 (VRef 1) visitors_B scenario_B).1.2 = flatten a
        ∧ ordered table_B a
        ∧ walked table_B visitors_B scenario_B a
            (walk table_B 3 (VRef 1) visitors_B scenario_B).1.1)
  ∧ (∃ a, act_path a = root_path (VRef 1)
          ∧ (walk table_B 3 (VRef 1) ∅ scenario_C).1.2 `prefix_of` flatten a
          ∧ ordered_so_far table_B a).
Proof.
  split.
  - apply (visits_are_ordered table_B visitors_B 3 (VRef 1) VUndef None None
             None scenario_B
             (walk table_B 3 (VRef 1) visitors_B scenario_B).1.1
             (walk table_B 3 (VRef 1) visitors_B scenario_B).1.2 (Ok tt)).
    vm_compute. reflexivity.
  - apply (visits_are_ordered table_B ∅ 3 (VRef 1) VUndef None None
             None scenario_C
             (walk table_B 3 (VRef 1) ∅ scenario_C).1.1
             (walk table_B 3 (VRef 1) ∅ scenario_C).1.2
             (Throw (TypeError_read VUndef "visitor"))).
    vm_compute. reflexivity.
Defined.

(** ** C3 and C4: what the walk does after a hook has mutated *)

(** After an enter hook that returned, whatever it did to the store, the
    walk runs over the fields of the node [traverse] was called with, under
    the table entry of the type read before the hook ran, and then calls the
    exit hook registered for that type with the same path. *)
Lemma traverse_after_enter table visitors fuel n p pp k i (h h1 : heap)
    ty d f v :
  let path := mkNodePath n p pp k i in
  let funcs := normalise (visitors_get visitors ty) in
  member h n "type" = Done ty →
  Map_get table ty = Some d →
  enter funcs = Some f →
  f path h = (h1, Done v) →
  traverse table (S fuel) n visitors p pp k i h
  = after_visit (Ev Enter ty path (Some (Done v)))
      ((forEach
          (visit_field (λ n p pp k i, traverse table fuel n visitors p pp k i)
             n path)
          (default [] (visitor d)) ;;
        call Exit ty path (exit funcs)) h1).
Proof.
  intros path funcs Hty Hd Hf Hrun. rewrite traverse_S, Hty. cbv zeta.
  fold path funcs. unfold bind at 1. unfold call at 1. rewrite Hf, Hrun.
  unfold bind at 1. unfold definition_visitor. rewrite Hd.
  assert ((match visitor d with
           | Some keys =>
               forEach (visit_field
                 (λ n p pp k i, traverse table fuel n visitors p pp k i)
                 n path) keys
           | None => ret tt
           end)
          = forEach (visit_field
              (λ n p pp k i, traverse table fuel n visitors p pp k i) n path)
              (default [] (visitor d))) as -> by by destruct (visitor d).
  match goal with |- context [bind ?m ?g h1] =>
    destruct (bind m g h1) as [[h2 t2] r2] end.
  done.
Qed.

(** When the rest of the activation ends normally, the fields were walked
    and the exit visit was made. *)
Lemma fields_then_exit_ok (m : M unit) ty path f e (h1 h' : heap) t :
  after_visit e ((m ;; call Exit ty path f) h1) = (h', t, Ok tt) →
  ∃ h2 tc ho, m h1 = (h2, tc, Ok tt) ∧ t = e :: tc ++ [Ev Exit ty path ho].
Proof.
  unfold after_visit.
  destruct ((m ;; call Exit ty path f) h1) as [[h2 t2] r2] eqn:Hb.
  intros [= <- <- ->].
  apply bind_ok_inv in Hb as (h3 & tc & [] & t4 & Hm & Hc & ->).
  apply call_ok_inv in Hc as (ho & ->). by exists h3, tc, ho.
Qed.


(** C4 fails as stated: in scenario D the enter hook of the sum removes it,
    and the walk still visits both children of the sum and still makes its
    exit visit, running the exit hook. *)
Lemma remove_on_enter_counterexample :
  ¬ ∃ h' t,
      walk visitorKeys 4 (VRef 1) visitors_remove scenario_D = (h', t, Ok tt)
      ∧ visits Enter (VRef 3) t = 0
      ∧ visits Enter (VRef 4) t = 0
      ∧ visits Exit (VRef 2) t = 0.
Proof.
  intros (h' & t & Hw & H3 & _). vm_compute in Hw.
  injection Hw as <- <-. vm_compute in H3. discriminate.
Qed.

(** C4, amended. When the enter hook of a node is a call of [remove()] that
    returns, the walk still goes on over the fields of that node, as the
    table entry of its type lists them, and then makes its exit visit,
    calling the exit hook registered for its type with the same path; the
    caller's loop then continues with what follows. *)
Theorem remove_on_enter table visitors fuel n p pp k i (h h1 : heap) ty d :
  let path := mkNodePath n p pp k i in
  let funcs := normalise (visitors_get visitors ty) in
  member h n "type" = Done ty →
  Map_get table ty = Some d →
  enter funcs = Some (calling remove) →
  remove path h = (h1, Done tt) →
  let fields :=
    forEach
      (visit_field (λ n p pp k i, traverse table fuel n visitors p pp k i)
         n path)
      (default [] (visitor d)) in
  traverse table (S fuel) n visitors p pp k i h
  = after_visit (Ev Enter ty path (Some (Done VUndef)))
      ((fields ;; call Exit ty path (exit funcs)) h1)
  ∧ ∀ h' t,
      traverse table (S fuel) n visitors p pp k i h = (h', t, Ok tt) →
      ∃ h2 tc ho,
        fields h1 = (h2, tc, Ok tt)
        ∧ t = Ev Enter ty path (Some (Done VUndef)) :: tc
              ++ [Ev Exit ty path ho].
Proof.
  intros path funcs Hty Hd Hf Hrun fields.
  assert (traverse table (S fuel) n visitors p pp k i h
          = after_visit (Ev Enter ty path (Some (Done VUndef)))
              ((fields ;; call Exit ty path (exit funcs)) h1)) as Heq.
  { apply (traverse_after_enter table visitors fuel n p pp k i h h1 ty d
             (calling remove) VUndef); try done.
    unfold calling. fold path. by rewrite Hrun. }
  split; [done|]. intros h' t. rewrite Heq. apply fields_then_exit_ok.
Qed.

Lemma remove_on_enter_witness :
  ∃ h1,
    remove path_D scenario_D = (h1, Done tt)
    ∧ ∃ h' t h2 tc ho,
        traverse visitorKeys 3 (VRef 2) visitors_remove (VRef 1)
          (Some (root_path (VRef 1))) (Some "expression") None scenario_D
        = (h', t, Ok tt)
        ∧ forEach
            (visit_field
               (λ n p pp k i,
                  traverse visitorKeys 2 n visitors_remove p pp k i)
               (VRef 2) path_D)
            ["left"; "right"] h1
          = (h2, tc, Ok tt)
        ∧ t = Ev Enter (VStr "BinaryExpression") path_D (Some (Done VUndef))
              :: tc ++ [Ev Exit (VStr "BinaryExpression") path_D ho].
Proof.
  exists (remove path_D scenario_D).1.
  split; [vm_compute; reflexivity|].
  destruct (remove_on_enter visitorKeys visitors_remove 2 (VRef 2)
              (VRef 1) (Some (root_path (VRef 1))) (Some "expression") None
              scenario_D (remove path_D scenario_D).1
              (VStr "BinaryExpression")
              (Definition_ (Some ["left"; "right"]) false))
    as (_ & Hshape).
  - reflexivity.
  - reflexivity.
  - reflexivity.
  - vm_compute. reflexivity.
  - do 2 eexists. edestruct Hshape as (h2 & tc & ho & Hf & Ht).
    { vm_compute. reflexivity. }
    exists h2, tc, ho. split; [reflexivity|]. split; [exact Hf|exact Ht].
Defined.

(** ** C7: a walk without hooks *)

Lemma visited_app ph t1 t2 :
  visited ph (t1 ++ t2) = visited ph t1 ++ visited ph t2.
Proof. unfold visited. by rewrite filter_app, fmap_app. Qed.

Lemma visited_cons ph e t :
  visited ph (e :: t)
  = if decide (ev_phase e = ph) then node (ev_path e) :: visited ph t
    else visited ph t.
Proof. unfold visited. rewrite filter_cons. by case_decide. Qed.

Lemma visits_visited ph n t :
  visits ph n t = length (filter (λ v, v = n) (visited ph t)).
Proof.
  unfold visits, visited. induction t as [|e t IH]; [done|].
  rewrite !filter_cons. destruct (decide (ev_phase e = ph)) as [Hph|Hph].
  - rewrite fmap_cons, filter_cons. simpl.
    destruct (decide (node (ev_path e) = n)) as [Hn|Hn].
    + rewrite decide_True by done. simpl. by rewrite IH.
    + rewrite decide_False by tauto. done.
  - rewrite decide_False by tauto. done.
Qed.

Lemma filter_eq_NoDup (n : value) ns :
  NoDup ns →
  length (filter (λ v, v = n) ns) = if decide (n ∈ ns) then 1 else 0.
Proof.
  induction 1 as [|v ns Hv Hns IH]; [done|].
  rewrite filter_cons. destruct (decide (v = n)) as [->|Hne].
  - simpl. rewrite IH. rewrite decide_False by done.
    by rewrite decide_True by apply list_elem_of_here.
  - rewrite IH. destruct (decide (n ∈ ns)) as [Hin|Hin].
    + by rewrite decide_True by by apply list_elem_of_further.
    + rewrite decide_False; [done|]. rewrite elem_of_cons.
      intros [?|?]; congruence.
Qed.

Section NoHooks.

Variable table : gmap string definition.
Variable h : heap.

Local Abbreviation quiet := (quiet_in h).
Local Abbreviation go := (traverse_without_hooks table).

Lemma quiet_closure :
  (∀ v ns, closure table h v ns →
     ∀ p pp k i, quiet (λ fuel, go fuel v p pp k i) ns)
  ∧ (∀ n ks ns, closure_fields table h n ks ns →
     ∀ path, quiet (λ fuel, forEach (visit_field (go fuel) n path) ks) ns)
  ∧ (∀ es ns, closure_list table h es ns →
     ∀ c es_all lo n path key,
       as_array h c = Some es_all → drop lo es_all = es →
       quiet (λ fuel,
                forEach
                  (forEach_step c
                     (λ v idx, go fuel v n (Some path) (Some key) (Some idx)))
                  (seq lo (length es))) ns).
Proof.
  apply (conj_closure_mut table h
    (λ v ns, ∀ p pp k i, quiet (λ fuel, go fuel v p pp k i) ns)
    (λ n ks ns, ∀ path,
       quiet (λ fuel, forEach (visit_field (go fuel) n path) ks) ns)
    (λ es ns, ∀ c es_all lo n path key,
       as_array h c = Some es_all → drop lo es_all = es →
       quiet (λ fuel,
                forEach
                  (forEach_step c
                     (λ v idx, go fuel v n (Some path) (Some key) (Some idx)))
                  (seq lo (length es))) ns)).
  - (* a node *)
    intros l o ty d ns Hl Hty Hd _ IH p pp k i.
    set (path := mkNodePath (VRef l) p pp k i).
    destruct (IH path) as (tf & (f0 & Hrun) & Hin & Hout & Hno).
    exists (Ev Enter (VStr ty) path None :: tf ++ [Ev Exit (VStr ty) path None]).
    split; [exists (S f0)|split; [|split]].
    + intros [|fuel] Hfuel; [lia|]. unfold go. rewrite traverse_S.
      simpl. rewrite Hl. simpl. rewrite Hty. simpl.
      rewrite lookup_empty. simpl. unfold bind at 1. simpl.
      unfold bind at 1. simpl. rewrite Hd. simpl.
      assert ((match visitor d with
               | Some keys =>
                   forEach (visit_field
                     (λ n p pp k i, traverse table fuel n ∅ p pp k i)
                     (VRef l) path) keys
               | None => ret tt
               end) h = (h, tf, Ok tt)) as Hf.
      { specialize (Hrun fuel ltac:(lia)).
        destruct (visitor d); [exact Hrun|].
        simpl in Hrun. by injection Hrun as <-. }
      unfold bind at 1. fold path. rewrite Hf. simpl. done.
    + rewrite visited_cons, visited_app, visited_cons, Hin. simpl.
      by rewrite app_nil_r.
    + rewrite visited_cons. simpl. rewrite visited_app, visited_cons. simpl.
      rewrite Hout. by rewrite Permutation_app_comm.
    + constructor; [done|]. apply Forall_app. split; [done|].
      by constructor.
  - (* no field left *)
    intros n path. exists []. split; [by exists 0|]. by repeat split.
  - (* a field that holds a node *)
    intros n k ks c ns1 ns2 Hm Harr _ IH1 _ IH2 path.
    destruct (IH1 n (Some path) (Some k) None)
      as (t1 & (f1 & Hrun1) & Hin1 & Hout1 & Hno1).
    destruct (IH2 path) as (t2 & (f2 & Hrun2) & Hin2 & Hout2 & Hno2).
    exists (t1 ++ t2). split; [exists (f1 `max` f2)|split; [|split]].
    + intros fuel Hfuel. simpl.
      assert (visit_field (go fuel) n path k h = (h, t1, Ok tt)) as Hv.
      { unfold visit_field, bind, read. rewrite Hm.
        unfold isArray. rewrite Harr.
        rewrite bool_decide_eq_false_2 by by intros [? ?].
        rewrite Hrun1 by lia. done. }
      unfold bind. rewrite Hv, Hrun2 by lia. done.
    + by rewrite visited_app, Hin1, Hin2.
    + by rewrite visited_app, Hout1, Hout2.
    + by apply Forall_app.
  - (* a field that holds a sequence *)
    intros n k ks c es ns1 ns2 Hm Harr _ IH1 _ IH2 path.
    destruct (IH1 c es 0 n path k Harr eq_refl)
      as (t1 & (f1 & Hrun1) & Hin1 & Hout1 & Hno1).
    destruct (IH2 path) as (t2 & (f2 & Hrun2) & Hin2 & Hout2 & Hno2).
    exists (t1 ++ t2). split; [exists (f1 `max` f2)|split; [|split]].
    + intros fuel Hfuel. simpl.
      assert (visit_field (go fuel) n path k h = (h, t1, Ok tt)) as Hv.
      { unfold visit_field, bind, read. rewrite Hm.
        unfold isArray. rewrite Harr.
        rewrite bool_decide_eq_true_2 by by eexists.
        unfold forEach_array. rewrite Harr.
        rewrite Hrun1 by lia. done. }
      unfold bind. rewrite Hv, Hrun2 by lia. done.
    + by rewrite visited_app, Hin1, Hin2.
    + by rewrite visited_app, Hout1, Hout2.
    + by apply Forall_app.
  - (* no element left *)
    intros c es_all lo n path key0 _ _. exists [].
    split; [by exists 0|]. by repeat split.
  - (* an element *)
    intros e es ns1 ns2 _ IH1 _ IH2 c es_all lo n path key0 Harr Hdrop.
    assert (es_all !! lo = Some e) as Hlo.
    { rewrite <-(Nat.add_0_r lo), <-lookup_drop, Hdrop. done. }
    assert (drop (S lo) es_all = es) as Hdrop'.
    { replace (S lo) with (lo + 1) by lia.
      by rewrite <-drop_drop, Hdrop. }
    destruct (IH1 n (Some path) (Some key0) (Some lo))
      as (t1 & (f1 & Hrun1) & Hin1 & Hout1 & Hno1).
    destruct (IH2 c es_all (S lo) n path key0 Harr Hdrop')
      as (t2 & (f2 & Hrun2) & Hin2 & Hout2 & Hno2).
    exists (t1 ++ t2). split; [exists (f1 `max` f2)|split; [|split]].
    + intros fuel Hfuel. simpl. unfold bind.
      unfold forEach_step at 1. rewrite Harr, Hlo.
      rewrite Hrun1 by lia. rewrite Hrun2 by lia. done.
    + by rewrite visited_app, Hin1, Hin2.
    + by rewrite visited_app, Hout1, Hout2.
    + by apply Forall_app.
Qed.

End NoHooks.

(** C7 fails as stated: the declarator of [let a;] has two nodes the table
    reaches, itself and its identifier, and [null] for [init]. With no hooks
    at all, no amount of fuel lets the walk end normally: after the
    identifier it is called on [null] and throws reading [type]. *)
Lemma null_child_counterexample :
  (¬ ∃ fuel h' t,
       walk astDefinitionsMap fuel (VRef 1) ∅ scenario_E = (h', t, Ok tt))
  ∧ ∃ t, walk astDefinitionsMap 2 (VRef 1) ∅ scenario_E
         = (scenario_E, t, Throw (TypeError_read VNull "type"))
         ∧ visited Enter t = [VRef 1; VRef 2]
         ∧ visited Exit t = [VRef 2].
Proof.
  split.
  - intros (fuel & h' & t & Hw). destruct fuel as [|[|fuel]].
    + vm_compute in Hw. discriminate.
    + vm_compute in Hw. discriminate.
    + assert (walk astDefinitionsMap (S (S fuel)) (VRef 1) ∅ scenario_E
              = walk astDefinitionsMap 2 (VRef 1) ∅ scenario_E) as Heq.
      { clear. destruct fuel; reflexivity. }
      rewrite Heq in Hw. vm_compute in Hw. discriminate.
  - eexists. vm_compute. repeat split; reflexivity.
Qed.

(** C7, amended. Take a tree in which every node the table reaches has a
    type the table knows and every field its entry lists holds a node or a
    sequence of nodes (no [null], absent or other child), and in which no
    node is reached twice; let [ns] be its [N] nodes. With an empty visitor
    map the walk, given enough fuel, ends normally and leaves the store as it
    was; it visits the nodes on enter in the order of [ns], each node of the
    tree exactly once on enter and exactly once on exit, nothing else, and
    calls no hook. *)
Theorem walk_without_hooks table (h : heap) ast ns :
  closure table h ast ns →
  NoDup ns →
  ∃ t, (∃ f0, ∀ fuel, f0 ≤ fuel → walk table fuel ast ∅ h = (h, t, Ok tt))
       ∧ visited Enter t = ns
       ∧ length t = 2 * length ns
       ∧ (∀ n, n ∈ ns → visits Enter n t = 1 ∧ visits Exit n t = 1)
       ∧ (∀ n, n ∉ ns → visits Enter n t = 0 ∧ visits Exit n t = 0)
       ∧ Forall (λ e, ev_hook e = None) t.
Proof.
  intros Hc Hnd.
  destruct (proj1 (quiet_closure table h) ast ns Hc VUndef None None None)
    as (t & Hrun & Hin & Hout & Hno).
  exists t. split; [exact Hrun|]. split; [done|].
  assert (∀ n, visits Enter n t = (if decide (n ∈ ns) then 1 else 0)
               ∧ visits Exit n t = (if decide (n ∈ ns) then 1 else 0)) as Hv.
  { intros n. rewrite !visits_visited, Hin. split.
    - by apply filter_eq_NoDup.
    - rewrite Hout. by apply filter_eq_NoDup. }
  split; [|split; [|split]].
  - assert (length t = length (visited Enter t) + length (visited Exit t))
      as ->.
    { clear. unfold visited. rewrite !length_fmap.
      induction t as [|e t IH]; [done|]. rewrite !filter_cons. simpl.
      destruct (ev_phase e); simpl; lia. }
    rewrite Hout, Hin. lia.
  - intros n Hn. destruct (Hv n) as [-> ->]. by rewrite decide_True.
  - intros n Hn. destruct (Hv n) as [-> ->]. by rewrite decide_False.
  - done.
Qed.

Lemma scenario_F_closure :
  closure astDefinitionsMap scenario_F (VRef 1)
    [VRef 1; VRef 3; VRef 5; VRef 6; VRef 7].
Proof.
  assert (closure astDefinitionsMap scenario_F (VRef 6) [VRef 6]) as H6.
  { eapply closure_node; [reflexivity..|]. apply closure_fields_nil. }
  assert (closure astDefinitionsMap scenario_F (VRef 7) [VRef 7]) as H7.
  { eapply closure_node; [reflexivity..|]. apply closure_fields_nil. }
  assert (closure astDefinitionsMap scenario_F (VRef 5)
            [VRef 5; VRef 6; VRef 7]) as H5.
  { eapply closure_node; [reflexivity..|]. simpl.
    eapply (closure_fields_single _ _ _ _ _ _ [VRef 6] [VRef 7]);
      [reflexivity|reflexivity|exact H6|].
    eapply (closure_fields_single _ _ _ _ _ _ [VRef 7] []);
      [reflexivity|reflexivity|exact H7|]. apply closure_fields_nil. }
  assert (closure astDefinitionsMap scenario_F (VRef 3)
            [VRef 3; VRef 5; VRef 6; VRef 7]) as H3.
  { eapply closure_node; [reflexivity..|]. simpl.
    eapply (closure_fields_sequence _ _ _ _ _ _ _ [VRef 5; VRef 6; VRef 7] []);
      [reflexivity|reflexivity| |apply closure_fields_nil].
    eapply (closure_list_cons _ _ _ _ [VRef 5; VRef 6; VRef 7] []);
      [exact H5|apply closure_list_nil]. }
  eapply closure_node; [reflexivity..|]. simpl.
  eapply (closure_fields_sequence _ _ _ _ _ _ _
            [VRef 3; VRef 5; VRef 6; VRef 7] []);
    [reflexivity|reflexivity| |apply closure_fields_nil].
  eapply (closure_list_cons _ _ _ _ [VRef 3; VRef 5; VRef 6; VRef 7] []);
    [exact H3|apply closure_list_nil].
Defined.

Lemma walk_without_hooks_witness :
  ∃ t, (∃ f0, ∀ fuel, f0 ≤ fuel →
          walk astDefinitionsMap fuel (VRef 1) ∅ scenario_F
          = (scenario_F, t, Ok tt))
       ∧ visited Enter t = [VRef 1; VRef 3; VRef 5; VRef 6; VRef 7]
       ∧ length t = 2 * 5
       ∧ (∀ n, n ∈ [VRef 1; VRef 3; VRef 5; VRef 6; VRef 7] →
               visits Enter n t = 1 ∧ visits Exit n t = 1)
       ∧ (∀ n, n ∉ [VRef 1; VRef 3; VRef 5; VRef 6; VRef 7] →
               visits Enter n t = 0 ∧ visits Exit n t = 0)
       ∧ Forall (λ e, ev_hook e = None) t.
Proof.
  apply (walk_without_hooks astDefinitionsMap scenario_F (VRef 1)
           [VRef 1; VRef 3; VRef 5; VRef 6; VRef 7]).
  - exact scenario_F_closure.
  - apply (bool_decide_unpack
             (NoDup [VRef 1; VRef 3; VRef 5; VRef 6; VRef 7])).
    vm_compute. exact I.
Defined.

(** ** C2: the loop that goes on after a removal *)

Lemma forEach_app {A} (f : A → M unit) l1 l2 (h h1 : heap) t1 :
  forEach f l1 h = (h1, t1, Ok tt) →
  forEach f (l1 ++ l2) h
  = ((forEach f l2 h1).1.1, t1 ++ (forEach f l2 h1).1.2, (forEach f l2 h1).2).
Proof.
  revert h t1. induction l1 as [|a l1 IH]; intros h t1; simpl.
  - intros [= <- <-]. by destruct (forEach f l2 h) as [[??]?].
  - intros Hrun.
    apply bind_ok_inv in Hrun as (h0 & ta & [] & tb & Ha & Hb & ->).
    unfold bind. rewrite Ha, (IH _ _ Hb). simpl. by rewrite app_assoc.
Qed.

Lemma omap_lookup_seq {A} (l : list A) n :
  ∀ a, omap (λ j, l !! j) (seq a n) = take n (drop a l).
Proof.
  induction n as [|n IH]; intros a; [done|].
  simpl. rewrite IH. destruct (l !! a) as [x|] eqn:Ha.
  - by rewrite (drop_S l x a Ha).
  - apply lookup_ge_None in Ha.
    rewrite (drop_ge l a) by done. rewrite (drop_ge l (S a)) by lia.
    by rewrite take_nil.
Qed.

(** The walk of a leaf for which the visitor map holds nothing: an enter
    and an exit visit, and the store as it was. *)
Lemma leaf_traverse table visitors fuel e p pp k i (h : heap) :
  leaf_without_hook table visitors h e →
  ∃ t, traverse table (S fuel) e visitors p pp k i h = (h, t, Ok tt)
       ∧ visited Enter t = [e].
Proof.
  intros (ty & d & Hty & Hd & Hleaf & Hvis).
  rewrite traverse_S, Hty. cbv zeta. simpl visitors_get. simpl Map_get.
  rewrite Hvis, Hd. simpl normalise. unfold bind at 1. simpl.
  rewrite bind_definition_some. unfold bind.
  destruct (visitor d) as [[|key keys]|]; try done; simpl; eauto.
Qed.

(** The walk of a leaf whose enter hook removes it: the same two visits,
    and the store as [remove] leaves it. *)
Lemma removed_traverse table visitors fuel b p pp k i (h h1 : heap) :
  leaf_removed_on_enter table visitors h b →
  remove (mkNodePath b p pp k i) h = (h1, Done tt) →
  ∃ t, traverse table (S fuel) b visitors p pp k i h = (h1, t, Ok tt)
       ∧ visited Enter t = [b].
Proof.
  intros (ty & d & Hty & Hd & Hleaf & Hin & Hout) Hrun.
  rewrite traverse_S, Hty. cbv zeta. simpl visitors_get. simpl Map_get.
  rewrite Hin, Hout, Hd. unfold bind at 1. unfold call at 1, calling.
  rewrite Hrun. rewrite bind_definition_some. unfold bind.
  destruct (visitor d) as [[|key keys]|]; try done; simpl; eauto.
Qed.

(** A loop over indices at which the sequence holds leaves without hooks
    enters the elements at these indices, in order, and changes nothing. *)
Lemma leaves_loop table visitors fuel prop n path key es (h : heap) ks :
  as_array h prop = Some es →
  (∀ j e, j ∈ ks → es !! j = Some e → leaf_without_hook table visitors h e) →
  ∃ t,
    forEach
      (forEach_step prop
         (λ c idx,
            traverse table (S fuel) c visitors n (Some path) (Some key)
              (Some idx)))
      ks h = (h, t, Ok tt)
    ∧ visited Enter t = omap (λ j, es !! j) ks.
Proof.
  intros Harr. induction ks as [|j ks IH]; intros Hleaves.
  - by exists [].
  - destruct IH as (t2 & Hrun2 & Hin2).
    { intros j' e Hj'. apply Hleaves. apply elem_of_cons. by right. }
    cbn [forEach omap list_omap]. unfold bind, forEach_step at 1.
    rewrite Harr. destruct (es !! j) as [e|] eqn:Hj.
    + destruct (leaf_traverse table visitors fuel e n (Some path) (Some key)
                  (Some j) h) as (t1 & Hrun1 & Hin1).
      { apply (Hleaves j); [|done]. apply elem_of_cons. by left. }
      rewrite Hrun1, Hrun2. exists (t1 ++ t2). split; [done|].
      by rewrite visited_app, Hin1, Hin2.
    + rewrite Hrun2. by exists t2.
Qed.

(** The field loop of a node whose sequence has, at a non-zero index, a
    leaf that its enter hook removes, and otherwise leaves without hooks. *)
Lemma loop_after_removal table visitors fuel path key (h : heap) pl o la es
    i b :
  h !! pl = Some o →
  props o !! key = Some (VRef la) →
  key ≠ "type" →
  as_array h (VRef la) = Some es →
  es !! S i = Some b →
  leaf_removed_on_enter table visitors h b →
  (∀ j e, es !! j = Some e → j ≠ S i → leaf_without_hook table visitors h e) →
  ∃ h' t,
    visit_field
      (λ n p pp k i, traverse table (S fuel) n visitors p pp k i)
      (VRef pl) path key h = (h', t, Ok tt)
    ∧ as_array h' (VRef la) = Some (delete (S i) es)
    ∧ visited Enter t = take (S (S i)) es ++ drop (S (S (S i))) es.
Proof.
  intros Hpl Hla Hkey Harr Hb Hremoved Hleaves.
  pose proof (lookup_lt_Some _ _ _ Hb) as Hlen.
  assert (member h (VRef pl) key = Done (VRef la)) as Hm.
  { simpl. by rewrite Hpl, Hla. }
  set (this := mkNodePath b (VRef pl) (Some path) (Some key) (Some (S i))).
  destruct (remove_indexed this h i la es eq_refl Hm Harr)
    as (h1 & Hrun & Harr1 & _).
  set (f := λ c idx,
         traverse table (S fuel) c visitors (VRef pl) (Some path) (Some key)
           (Some idx)).
  (* the indices before the one removed *)
  destruct (leaves_loop table visitors fuel (VRef la) (VRef pl) path key es h
              (seq 0 (S i)) Harr) as (t1 & Hrun1 & Hin1).
  { intros j e Hj He. apply (Hleaves j e He).
    apply elem_of_seq in Hj. lia. }
  (* the removal *)
  destruct (removed_traverse table visitors fuel b (VRef pl) (Some path)
              (Some key) (Some (S i)) h h1 Hremoved Hrun)
    as (t2 & Hrun2 & Hin2).
  (* the indices after it, in the store the removal left *)
  destruct (leaves_loop table visitors fuel (VRef la) (VRef pl) path key
              (spliced (S i) [] es) h1
              (seq (S (S i)) (length es - S (S i))) Harr1)
    as (t3 & Hrun3 & Hin3).
  { intros j e Hj He. apply elem_of_seq in Hj.
    rewrite spliced_remove_lookup_ge in He by lia.
    destruct (Hleaves (S j) e He ltac:(lia)) as (ty & d & Hty & Hrest).
    exists ty, d. split; [|done].
    by rewrite (remove_member this h h1 _ Hrun) by done. }
  exists h1, (t1 ++ t2 ++ t3). split; [|split].
  - unfold visit_field.
    rewrite (bind_read_done (λ h, member h (VRef pl) key) _ h (VRef la) Hm).
    unfold isArray. rewrite Harr.
    rewrite bool_decide_eq_true_2 by by eexists.
    unfold forEach_array. rewrite Harr. fold f.
    assert (seq 0 (length es)
            = seq 0 (S i) ++ [S i] ++ seq (S (S i)) (length es - S (S i)))
      as ->.
    { replace (length es) with (S i + (1 + (length es - S (S i)))) at 1
        by lia.
      by rewrite seq_app. }
    fold f in Hrun1, Hrun3.
    rewrite (forEach_app _ _ _ h h t1 Hrun1).
    assert (forEach (forEach_step (VRef la) f) [S i] h = (h1, t2, Ok tt))
      as Hstep.
    { cbn [forEach]. unfold bind, forEach_step. rewrite Harr, Hb.
      unfold f. rewrite Hrun2. simpl. by rewrite app_nil_r. }
    rewrite (forEach_app _ _ _ h h1 t2 Hstep). by rewrite Hrun3.
  - rewrite Harr1. f_equal. unfold spliced. simpl.
    by rewrite delete_take_drop.
  - rewrite !visited_app, Hin1, Hin2, Hin3.
    rewrite !omap_lookup_seq. rewrite drop_0.
    rewrite (take_S_r es (S i) b Hb). rewrite <- app_assoc. f_equal. f_equal.
    unfold spliced. simpl.
    rewrite drop_app_ge by (rewrite length_take_le; lia).
    rewrite length_take_le by lia. rewrite drop_drop.
    replace (S (S i) + (S (S i) - S i)) with (S (S (S i))) by lia.
    apply take_ge. rewrite length_drop. lia.
Qed.

(** C2, amended. When [remove] is called on a path whose parent is an
    object: with a non-zero index on a slot that holds a sequence, the
    element at that index is spliced out of the sequence and the later
    elements shift down by one index, with no hole; with no index, [null]
    is written in the parent's named field and the parent's other fields
    stay as they were. The traversal that continues does not read the
    shifted sequence again, and goes on with the next index: when the enter
    hook of a leaf at a non-zero index of a sequence of leaves removes it,
    the loop over that sequence enters the elements up to and including the
    removed one and then those from the next but one on, so that the
    sibling that moved into the index of the removed element is passed
    over; where no element occurs twice, that sibling is not entered and
    every other element is entered once. In scenario B the sequence that
    was [root.body] is left as [[A, C]], [A] is visited once, and [C] is
    not visited. *)
Theorem remove_splices_or_nulls (this : NodePath) (h : heap) pl o :
  parent this = VRef pl →
  h !! pl = Some o →
  (∀ i la es,
     listKey this = Some (S i) →
     props o !! key_name (key this) = Some (VRef la) →
     as_array h (VRef la) = Some es →
     ∃ h' es',
       remove this h = (h', Done tt)
       ∧ as_array h' (VRef la) = Some es'
       ∧ (∀ j, j < S i → es' !! j = es !! j)
       ∧ (∀ j, S i ≤ j → es' !! j = es !! S j)
       ∧ (S i < length es → length es' = length es - 1))
  ∧ (listKey this = None →
     ∃ h',
       remove this h = (h', Done tt)
       ∧ member h' (parent this) (key_name (key this)) = Done VNull
       ∧ ∀ k, k ≠ key_name (key this) →
              member h' (parent this) k = member h (parent this) k)
  ∧ (∀ table visitors fuel path key la es i b,
       props o !! key = Some (VRef la) →
       key ≠ "type" →
       as_array h (VRef la) = Some es →
       es !! S i = Some b →
       leaf_removed_on_enter table visitors h b →
       (∀ j e, es !! j = Some e → j ≠ S i →
               leaf_without_hook table visitors h e) →
       ∃ h' t,
         visit_field
           (λ n p pp k i, traverse table (S fuel) n visitors p pp k i)
           (VRef pl) path key h = (h', t, Ok tt)
         ∧ as_array h' (VRef la) = Some (delete (S i) es)
         ∧ visited Enter t = take (S (S i)) es ++ drop (S (S (S i))) es
         ∧ (NoDup es →
            ∀ j e, es !! j = Some e →
                   visits Enter e t = if decide (j = S (S i)) then 0 else 1))
  ∧ (∃ h' t,
       walk table_B 3 (VRef 1) visitors_B scenario_B = (h', t, Ok tt)
       ∧ as_array h' (VRef 2) = Some [VRef 3; VRef 5]
       ∧ visits Enter (VRef 3) t = 1
       ∧ visits Enter (VRef 5) t = 0).
Proof.
  intros Hp Hpl. split; [|split; [|split]].
  - intros i la es Hi Hla Ha.
    destruct (remove_indexed this h i la es) as (h' & Hr & Ha' & _);
      [done| |done|].
    { rewrite Hp. simpl. by rewrite Hpl, Hla. }
    exists h', (spliced (S i) [] es). split; [done|]. split; [done|].
    split; [intros; by apply spliced_remove_lookup_lt|].
    split; [intros; by apply spliced_remove_lookup_ge|].
    apply spliced_remove_length.
  - intros Hi. eexists. split.
    { apply (remove_unindexed this h pl o); [by rewrite Hi|done..]. }
    rewrite Hp. split; [apply member_after_set|].
    intros k Hk. simpl. rewrite lookup_insert_eq, Hpl. simpl.
    by rewrite lookup_insert_ne.
  - intros table visitors fuel path key la es i b Hla Hkey Harr Hb Hrem Hleaves.
    destruct (loop_after_removal table visitors fuel path key h pl o la es i b
                Hpl Hla Hkey Harr Hb Hrem Hleaves)
      as (h' & t & Hrun & Harr' & Hin).
    exists h', t. split; [done|]. split; [done|]. split; [done|].
    intros Hnd j e He. rewrite visits_visited, Hin.
    pose proof (lookup_lt_Some _ _ _ Hb) as Hlen.
    destruct (decide (S (S i) < length es)) as [Hlt|Hge].
    + destruct (lookup_lt_is_Some_2 es (S (S i)) Hlt) as [c Hc].
      pose proof (take_drop_middle es (S (S i)) c Hc) as Hes.
      rewrite <- Hes in Hnd.
      apply NoDup_app in Hnd as (Hnd1 & Hdisj & Hnd2).
      apply NoDup_cons in Hnd2 as [Hc2 Hnd2].
      assert (NoDup (take (S (S i)) es ++ drop (S (S (S i))) es)) as Hnd'.
      { apply NoDup_app. split; [done|]. split; [|done].
        intros x Hx1 Hx2. apply (Hdisj x Hx1). apply elem_of_cons. by right. }
      rewrite (filter_eq_NoDup e _ Hnd').
      destruct (decide (j = S (S i))) as [->|Hj].
      * assert (e = c) as -> by congruence.
        rewrite decide_False; [done|]. rewrite elem_of_app.
        intros [Hin1|Hin2]; [|done].
        apply (Hdisj c Hin1). apply elem_of_cons. by left.
      * rewrite decide_True; [done|]. rewrite elem_of_app.
        destruct (decide (j < S (S i))) as [Hlo|Hhi].
        -- left. apply list_elem_of_lookup. exists j.
           by rewrite lookup_take_lt.
        -- right. apply list_elem_of_lookup. exists (j - S (S (S i))).
           rewrite lookup_drop. rewrite <- He. f_equal. lia.
    + rewrite (drop_ge es (S (S (S i)))) by lia. rewrite app_nil_r.
      rewrite (take_ge es (S (S i))) by lia.
      rewrite (filter_eq_NoDup e _ Hnd).
      pose proof (lookup_lt_Some _ _ _ He) as Hj.
      rewrite (decide_False (P := j = S (S i))) by lia.
      rewrite decide_True; [done|]. by apply list_elem_of_lookup_2 with j.
  - do 2 eexists. vm_compute. repeat split; reflexivity.
Qed.

Lemma remove_splices_or_nulls_witness :
  let b := mkNodePath (VRef 4) (VRef 1) (Some (root_path (VRef 1)))
             (Some "body") (Some 1) in
  (∃ h' es',
     remove b scenario_B = (h', Done tt)
     ∧ as_array h' (VRef 2) = Some es'
     ∧ (∀ j, j < 1 → es' !! j = [VRef 3; VRef 4; VRef 5] !! j)
     ∧ (∀ j, 1 ≤ j → es' !! j = [VRef 3; VRef 4; VRef 5] !! S j)
     ∧ (1 < length [VRef 3; VRef 4; VRef 5] →
        length es' = length [VRef 3; VRef 4; VRef 5] - 1))
  ∧ (∃ h' t,
       visit_field
         (λ n p pp k i, traverse table_B 1 n visitors_B p pp k i)
         (VRef 1) (root_path (VRef 1)) "body" scenario_B = (h', t, Ok tt)
       ∧ as_array h' (VRef 2) = Some [VRef 3; VRef 5]
       ∧ visited Enter t = [VRef 3; VRef 4]
       ∧ visits Enter (VRef 5) t = 0).
Proof.
  intros b.
  destruct (remove_splices_or_nulls b scenario_B 1%positive
              (plain [("type", VStr "Program"); ("body", VRef 2)]))
    as (Hidx & _ & Hloop & _); [reflexivity..|].
  split; [apply (Hidx 0 2%positive); reflexivity|].
  destruct (Hloop table_B visitors_B 0 (root_path (VRef 1)) "body" 2%positive
              [VRef 3; VRef 4; VRef 5] 0 (VRef 4))
    as (h' & t & Hrun & Harr & Hin & Hcount).
  - reflexivity.
  - discriminate.
  - reflexivity.
  - reflexivity.
  - exists "B", (Definition_ None false). repeat split; reflexivity.
  - intros j e He Hj. destruct j as [|[|[|j]]]; simpl in He; try done.
    + injection He as <-. exists "A", (Definition_ None false).
      repeat split; reflexivity.
    + injection He as <-. exists "C", (Definition_ None false).
      repeat split; reflexivity.
  - exists h', t. split; [exact Hrun|]. split; [exact Harr|].
    split; [exact Hin|].
    assert (NoDup [VRef 3; VRef 4; VRef 5]) as Hnd.
    { apply (bool_decide_unpack (NoDup [VRef 3; VRef 4; VRef 5])).
      vm_compute. exact I. }
    apply (Hcount Hnd 2 (VRef 5)). reflexivity.
Defined.

(** ** Related walks *)

Lemma NodePath_ind' (P : NodePath → Prop) :
  (∀ n pa k i, P (mkNodePath n pa None k i)) →
  (∀ n pa pp k i, P pp → P (mkNodePath n pa (Some pp) k i)) →
  ∀ p, P p.
Proof.
  intros H1 H2. fix IH 1. intros [n pa [pp|] k i].
  - apply H2, IH.
  - apply H1.
Qed.

Section Simulation.

Variable R : relations.
Hypothesis HR : lawful R.

Lemma rel_path_mono w w' p1 p2 :
  future R w w' → rel_path R w p1 p2 → rel_path R w' p1 p2.
Proof.
  intros Hw. revert p2. induction p1 as [n pa k i|n pa pp k i IH]
    using NodePath_ind'; intros [n2 pa2 pp2 k2 i2]; simpl.
  - intros (Hn & Hpa & Hpp & Hk & Hi).
    repeat split; try done; by eapply (rel_value_mono R HR).
  - intros (Hn & Hpa & Hpp & Hk & Hi).
    repeat split; try done; try by eapply (rel_value_mono R HR).
    destruct pp2 as [pp2|]; [|done]. by apply IH.
Qed.

Lemma rel_result_mono w w' r1 r2 :
  future R w w' → rel_result R w r1 r2 → rel_result R w' r1 r2.
Proof.
  intros Hw. destruct r1, r2; simpl; try done.
  - by apply (rel_return_mono R HR).
  - by apply (rel_error_mono R HR).
Qed.

Lemma rel_event_mono w w' e1 e2 :
  future R w w' → rel_event R w e1 e2 → rel_event R w' e1 e2.
Proof.
  intros Hw (Hph & Hty & Hp & Hh). split; [done|].
  split; [by eapply (rel_value_mono R HR)|].
  split; [by eapply rel_path_mono|].
  destruct (ev_hook e1), (ev_hook e2); try done.
  by eapply rel_result_mono.
Qed.

Lemma rel_events_mono w w' t1 t2 :
  future R w w' →
  Forall2 (rel_event R w) t1 t2 → Forall2 (rel_event R w') t1 t2.
Proof.
  intros Hw Ht. eapply Forall2_impl; [exact Ht|].
  intros. by eapply rel_event_mono.
Qed.

Lemma related_ext w (m1 m1' m2 m2' : M unit) :
  (∀ h, m1 h = m1' h) → (∀ h, m2 h = m2' h) →
  related R w m1' m2' → related R w m1 m2.
Proof.
  intros H1 H2 Hm w1 h1 h2 Hw Hh. rewrite H1, H2. by apply Hm.
Qed.

Lemma related_ret w : related R w (ret tt) (ret tt).
Proof.
  intros w1 h1 h2 Hw Hh. exists w1. split; [apply (future_refl R HR)|].
  by repeat split.
Qed.

Lemma related_out_of_fuel w : related R w out_of_fuel out_of_fuel.
Proof.
  intros w1 h1 h2 Hw Hh. exists w1. split; [apply (future_refl R HR)|].
  by repeat split.
Qed.

Lemma related_bind w (m1 m2 : M unit) (f1 f2 : unit → M unit) :
  related R w m1 m2 →
  (∀ w', future R w w' → related R w' (f1 tt) (f2 tt)) →
  related R w (bind m1 f1) (bind m2 f2).
Proof.
  intros Hm Hf w1 h1 h2 Hw Hh.
  destruct (Hm w1 h1 h2 Hw Hh) as (w2 & Hw2 & Hh' & Ht & Hr).
  unfold bind.
  destruct (m1 h1) as [[h1' t1] r1], (m2 h2) as [[h2' t2] r2]. simpl in *.
  destruct r1 as [[]|e1|], r2 as [[]|e2|]; try done.
  - assert (future R w w2) as Hww2 by by eapply (future_trans R HR).
    destruct (Hf w2 Hww2 w2 h1' h2' (future_refl R HR w2) Hh')
      as (w3 & Hw3 & Hh3 & Ht3 & Hr3).
    destruct (f1 tt h1') as [[h1'' t1'] r1'], (f2 tt h2') as [[h2'' t2'] r2'].
    simpl in *. exists w3. split; [by eapply (future_trans R HR)|].
    split; [done|]. split; [|done]. simpl.
    apply Forall2_app; [by eapply rel_events_mono|done].
  - exists w2. by repeat split.
  - exists w2. by repeat split.
Qed.

Lemma related_forEach {A} w (f1 f2 : A → M unit) l :
  (∀ a w', future R w w' → related R w' (f1 a) (f2 a)) →
  related R w (forEach f1 l) (forEach f2 l).
Proof.
  intros Hf. revert w Hf. induction l as [|a l IH]; intros w Hf; simpl.
  - apply related_ret.
  - apply related_bind; [apply Hf, (future_refl R HR)|].
    intros w' Hw'. apply IH. intros a' w'' Hw''. apply Hf.
    by eapply (future_trans R HR).
Qed.

Lemma isArray_related w (h1 h2 : heap) c1 c2 :
  rel_heap R w h1 h2 → rel_value R w c1 c2 → isArray h1 c1 = isArray h2 c2.
Proof.
  intros Hh Hc. unfold isArray.
  destruct (rel_array R HR w h1 h2 c1 c2 Hh Hc) as [es1 es2 _|].
  - rewrite !bool_decide_eq_true_2; by eauto.
  - rewrite !bool_decide_eq_false_2; [done|by intros [??]..].
Qed.

Lemma related_forEach_array w c1 c2 (f1 f2 : value → nat → M unit) :
  rel_value R w c1 c2 →
  (∀ w' v1 v2 k, future R w w' → rel_value R w' v1 v2 →
     related R w' (f1 v1 k) (f2 v2 k)) →
  related R w (forEach_array c1 f1) (forEach_array c2 f2).
Proof.
  intros Hc Hf w1 h1 h2 Hw Hh. unfold forEach_array.
  assert (rel_value R w1 c1 c2) as Hc1 by by eapply (rel_value_mono R HR).
  destruct (rel_array R HR w1 h1 h2 c1 c2 Hh Hc1) as [es1 es2 Hes|].
  - rewrite (Forall2_length _ _ _ Hes).
    apply (related_forEach w1 (forEach_step c1 f1) (forEach_step c2 f2));
      [|apply (future_refl R HR)|done].
    intros k w2 Hw2 w3 h1' h2' Hw3 Hh'. unfold forEach_step.
    assert (future R w w3) as Hww3.
    { eapply (future_trans R HR); [exact Hw|].
      by eapply (future_trans R HR). }
    assert (rel_value R w3 c1 c2) as Hc3 by by eapply (rel_value_mono R HR).
    destruct (rel_array R HR w3 h1' h2' c1 c2 Hh' Hc3) as [es1' es2' Hes'|].
    + destruct (proj1 (Forall2_lookup _ _ _) Hes' k) as [v1 v2 Hv|].
      * apply (Hf w3 v1 v2 k Hww3 Hv); [apply (future_refl R HR)|done].
      * exists w3. split; [apply (future_refl R HR)|]. by repeat split.
    + exists w3. split; [apply (future_refl R HR)|]. by repeat split.
  - exists w1. split; [apply (future_refl R HR)|]. by repeat split.
Qed.

Lemma related_call w ph ty1 ty2 p1 p2 f1 f2 :
  rel_value R w ty1 ty2 → rel_path R w p1 p2 → rel_hook_opt R f1 f2 →
  related R w (call ph ty1 p1 f1) (call ph ty2 p2 f2).
Proof.
  intros Hty Hp Hf w1 h1 h2 Hw Hh. unfold call.
  destruct f1 as [f1|], f2 as [f2|]; try done.
  - assert (rel_path R w1 p1 p2) as Hp1 by by eapply rel_path_mono.
    destruct (Hf w1 p1 p2 h1 h2 Hp1 Hh) as (w2 & Hw2 & Hh2 & Hr2).
    assert (future R w w2) as Hww2 by by eapply (future_trans R HR).
    destruct (f1 p1 h1) as [h1' r1], (f2 p2 h2) as [h2' r2]. simpl in *.
    exists w2. split; [done|].
    destruct r1 as [v1|e1], r2 as [v2|e2]; try done.
    + split; [done|]. split; [|done]. constructor; [|done].
      split; [done|]. split; [by eapply (rel_value_mono R HR)|].
      split; [by eapply rel_path_mono|done].
    + split; [done|]. split; [|done]. constructor; [|done].
      split; [done|]. split; [by eapply (rel_value_mono R HR)|].
      split; [by eapply rel_path_mono|done].
  - exists w1. split; [apply (future_refl R HR)|]. split; [done|].
    split; [|done]. constructor; [|done].
    split; [done|]. split; [by eapply (rel_value_mono R HR)|].
    split; [by eapply rel_path_mono|done].
Qed.

Lemma related_visit_field w rec1 rec2 n1 n2 path1 path2 k :
  rel_value R w n1 n2 → rel_path R w path1 path2 →
  (∀ w' c1 c2 i, future R w w' → rel_value R w' c1 c2 →
     related R w' (rec1 c1 n1 (Some path1) (Some k) i)
                  (rec2 c2 n2 (Some path2) (Some k) i)) →
  related R w (visit_field rec1 n1 path1 k) (visit_field rec2 n2 path2 k).
Proof.
  intros Hn Hp Hrec w1 h1 h2 Hw Hh. unfold visit_field.
  assert (rel_value R w1 n1 n2) as Hn1 by by eapply (rel_value_mono R HR).
  pose proof (rel_member R HR w1 h1 h2 n1 n2 k Hh Hn1) as Hm.
  destruct (member h1 n1 k) as [c1|e1] eqn:H1,
           (member h2 n2 k) as [c2|e2] eqn:H2; try done.
  - rewrite (bind_read_done (λ h, member h n1 k) _ h1 c1 H1).
    rewrite (bind_read_done (λ h, member h n2 k) _ h2 c2 H2).
    rewrite (isArray_related w1 h1 h2 c1 c2 Hh Hm).
    destruct (isArray h2 c2).
    + apply (related_forEach_array w1 c1 c2); try done;
        [|apply (future_refl R HR)].
      intros w2 v1 v2 i Hw2 Hv. apply Hrec; [|done].
      by eapply (future_trans R HR).
    + apply (Hrec w1 c1 c2 None Hw Hm); [apply (future_refl R HR)|done].
  - rewrite (bind_read_fail (λ h, member h n1 k) _ h1 e1 H1).
    rewrite (bind_read_fail (λ h, member h n2 k) _ h2 e2 H2).
    exists w1. split; [apply (future_refl R HR)|]. by repeat split.
Qed.

Section Traverse.

Variable table : gmap string definition.
Variables vis1 vis2 : gmap string visitor_entry.
Hypothesis Hvis : rel_visitors R vis1 vis2.

Lemma Map_get_related w ty1 ty2 :
  rel_value R w ty1 ty2 → Map_get table ty1 = Map_get table ty2.
Proof.
  intros Hty. destruct ty1 as [| | | |s|].
  5: { by rewrite (proj1 (rel_value_string R HR w _ _ s Hty) eq_refl). }
  all: destruct ty2 as [| | | |s|]; try done.
  all: by pose proof (proj2 (rel_value_string R HR w _ _ s Hty) eq_refl).
Qed.

Lemma visitors_get_related w ty1 ty2 :
  rel_value R w ty1 ty2 →
  rel_hook_opt R (enter (normalise (visitors_get vis1 ty1)))
                 (enter (normalise (visitors_get vis2 ty2)))
  ∧ rel_hook_opt R (exit (normalise (visitors_get vis1 ty1)))
                   (exit (normalise (visitors_get vis2 ty2))).
Proof.
  intros Hty. destruct ty1 as [| | | |s|].
  5: { rewrite (proj1 (rel_value_string R HR w _ _ s Hty) eq_refl).
       apply Hvis. }
  all: destruct ty2 as [| | | |s|]; try done.
  all: by pose proof (proj2 (rel_value_string R HR w _ _ s Hty) eq_refl).
Qed.

Lemma related_traverse fuel :
  ∀ w n1 n2 pa1 pa2 pp1 pp2 k i,
    rel_value R w n1 n2 → rel_value R w pa1 pa2 →
    rel_parentPath R w pp1 pp2 →
    related R w (λ h, traverse table fuel n1 vis1 pa1 pp1 k i h)
                (λ h, traverse table fuel n2 vis2 pa2 pp2 k i h).
Proof.
  induction fuel as [|fuel IH]; intros w n1 n2 pa1 pa2 pp1 pp2 k i Hn Hpa Hpp.
  { apply related_out_of_fuel. }
  intros w1 h1 h2 Hw Hh. rewrite !traverse_S.
  assert (rel_value R w1 n1 n2) as Hn1 by by eapply (rel_value_mono R HR).
  pose proof (rel_member R HR w1 h1 h2 n1 n2 "type" Hh Hn1) as Hm.
  destruct (member h1 n1 "type") as [ty1|e1],
           (member h2 n2 "type") as [ty2|e2]; try done.
  2: { exists w1. split; [apply (future_refl R HR)|]. by repeat split. }
  cbv zeta.
  set (path1 := mkNodePath n1 pa1 pp1 k i).
  set (path2 := mkNodePath n2 pa2 pp2 k i).
  assert (rel_path R w1 path1 path2) as Hpath.
  { simpl. split; [done|]. split; [by eapply (rel_value_mono R HR)|].
    split; [|done].
    destruct pp1 as [pp1|], pp2 as [pp2|]; try done.
    by eapply rel_path_mono. }
  destruct (visitors_get_related w1 ty1 ty2 Hm) as [Henter Hexit].
  rewrite (Map_get_related w1 ty1 ty2 Hm).
  eapply (λ H : related R w1 _ _, H w1 h1 h2 (future_refl R HR w1) Hh).
  clear h1 h2 Hh.
  apply related_bind; [by apply related_call|].
  intros w2 Hw2. destruct (Map_get table ty2) as [d|].
  - eapply related_ext;
      [intros h; apply bind_definition_some
      |intros h; apply bind_definition_some|].
    apply related_bind.
    + destruct (visitor d) as [keys|]; [|apply related_ret].
      apply related_forEach. intros key0 w3 Hw3.
      assert (future R w1 w3) as Hw13 by by eapply (future_trans R HR).
      apply related_visit_field.
      * by eapply (rel_value_mono R HR).
      * by eapply rel_path_mono.
      * intros w4 c1 c2 i' Hw4 Hc. apply IH; [done| |].
        -- eapply (rel_value_mono R HR); [|exact Hn1].
           by eapply (future_trans R HR).
        -- apply (rel_path_mono w1 w4 path1 path2); [|exact Hpath].
           by eapply (future_trans R HR).
    + intros w3 Hw3.
      assert (future R w1 w3) as Hw13 by by eapply (future_trans R HR).
      apply related_call; [|by eapply rel_path_mono|done].
      by eapply (rel_value_mono R HR).
  - intros w3 h1 h2 Hw3 Hh. rewrite !bind_definition_none.
    exists w3. split; [apply (future_refl R HR)|].
    split; [done|]. split; [done|]. apply (rel_no_entry R HR).
Qed.

End Traverse.

End Simulation.

(** ** C9: stopping a walk *)

Lemma up_to_returns_lawful : lawful up_to_returns.
Proof.
  split; simpl; try done.
  - intros _ a b s ->. done.
  - intros _ h1 h2 a b k -> ->. by destruct (member h2 b k).
  - intros _ h1 h2 a b -> ->. destruct (as_array h2 b) as [es|]; constructor.
    by apply Forall_Forall2_diag, Forall_true.
Qed.

Lemma up_to_returns_path p1 p2 : rel_path up_to_returns tt p1 p2 → p1 = p2.
Proof.
  revert p2. induction p1 as [n pa k i|n pa pp k i IH] using NodePath_ind';
    intros [n2 pa2 pp2 k2 i2]; simpl.
  - intros (-> & -> & Hpp & -> & ->). by destruct pp2.
  - intros (-> & -> & Hpp & -> & ->). destruct pp2 as [pp2|]; [|done].
    by rewrite (IH pp2 Hpp).
Qed.

Lemma up_to_returns_hook f1 f2 :
  act_alike_opt f1 f2 → rel_hook_opt up_to_returns f1 f2.
Proof.
  destruct f1 as [f1|], f2 as [f2|]; try done. simpl.
  intros Hf [] p1 p2 h1 h2 Hp Hh. simpl in Hh. subst h2.
  apply up_to_returns_path in Hp as <-. exists tt. split; [done|].
  destruct (Hf p1 h1) as [Hh Hr]. split; [done|].
  unfold rel_result. simpl. by destruct (f1 p1 h1).2, (f2 p1 h1).2.
Qed.

Lemma up_to_returns_events t1 t2 :
  Forall2 (rel_event up_to_returns tt) t1 t2 →
  forget_return <$> t1 = forget_return <$> t2.
Proof.
  induction 1 as [|e1 e2 t1 t2 He _ IH]; [done|].
  rewrite !fmap_cons, IH. f_equal.
  destruct e1 as [ph1 ty1 p1 hk1], e2 as [ph2 ty2 p2 hk2].
  destruct He as (Hph & Hty & Hp & Hhk). simpl in *. subst.
  apply up_to_returns_path in Hp as ->. unfold forget_return. simpl.
  destruct hk1 as [[?|?]|], hk2 as [[?|?]|]; simpl in *; try done.
  by subst.
Qed.

(** C9 fails as stated. In scenario B a hook on [A] that returns [false]
    does not keep the walk from visiting the siblings [B] and [C] after it;
    and a hook on [A] that calls [path.stop()], which NodePath does not have
    and which therefore throws, ends the walk with the error thrown to the
    caller, not absorbed by the call that started the walk, and without the
    pending exit hook of the Program being called. *)
Lemma stop_counterexample :
  (∃ h' t,
     walk table_B 3 (VRef 1) visitors_stop_return scenario_B = (h', t, Ok tt)
     ∧ visits Enter (VRef 4) t = 1
     ∧ visits Enter (VRef 5) t = 1)
  ∧ (∃ h' t,
       walk table_B 3 (VRef 1) visitors_stop_throw scenario_B
       = (h', t, Throw (TypeError_not_a_function "stop"))
       ∧ visits Exit (VRef 1) t = 0).
Proof. split; do 2 eexists; vm_compute; repeat split; reflexivity. Qed.

(** C9, amended. The walker has no stop signal. What a hook returns is
    discarded: with two visitor maps whose hooks act alike on the tree and
    differ at most in what they return, a walk leaves the same store, ends
    the same way and makes the same visits, so every sibling and descendant
    is visited as it would be without the returned signal. The one way a hook
    ends a walk early is by throwing: that visit is then the last of the
    walk, so no further node is visited and no pending exit hook of an
    ancestor is called, and the walk ends by throwing the error to its
    caller: no activation, the first included, absorbs it. Nothing done
    before the throw is undone. *)
Theorem no_stop_signal table vis1 vis2 fuel ast (h h1 h2 : heap) t1 t2 r1 r2 :
  (∀ s, act_alike_opt (enter (normalise (vis1 !! s)))
                      (enter (normalise (vis2 !! s)))
        ∧ act_alike_opt (exit (normalise (vis1 !! s)))
                        (exit (normalise (vis2 !! s)))) →
  walk table fuel ast vis1 h = (h1, t1, r1) →
  walk table fuel ast vis2 h = (h2, t2, r2) →
  h1 = h2 ∧ r1 = r2 ∧ forget_return <$> t1 = forget_return <$> t2
  ∧ ∀ ta e tb err,
      t1 = ta ++ e :: tb → ev_hook e = Some (Fail err) →
      tb = [] ∧ r1 = Throw err.
Proof.
  intros Hvis H1 H2.
  assert (rel_visitors up_to_returns vis1 vis2) as Hrel.
  { intros s. destruct (Hvis s). split; by apply up_to_returns_hook. }
  destruct (related_traverse up_to_returns up_to_returns_lawful table
              vis1 vis2 Hrel fuel tt ast ast VUndef VUndef None None None None
              eq_refl eq_refl I tt h h I eq_refl)
    as ([] & _ & Hh & Ht & Hr).
  unfold walk in H1, H2. rewrite H1, H2 in Hh, Ht, Hr. simpl in *.
  split; [done|]. split; [|split].
  - destruct r1 as [[]|e1|], r2 as [[]|e2|]; try done.
    simpl in Hr. by subst.
  - by apply up_to_returns_events.
  - intros ta e tb err Hta He.
    apply (aborts_split table t1 r1 ta e tb); [|done|].
    + by eapply (abortive_traverse table vis1 fuel).
    + unfold fatal. by rewrite He.
Qed.

Lemma no_stop_signal_witness :
  ∃ h1 t1 t2,
    walk table_B 3 (VRef 1) visitors_stop_return scenario_B = (h1, t1, Ok tt)
    ∧ walk table_B 3 (VRef 1) {[ "A" := VFunction idle ]} scenario_B
      = (h1, t2, Ok tt)
    ∧ forget_return <$> t1 = forget_return <$> t2.
Proof.
  do 3 eexists. split; [vm_compute; reflexivity|].
  split; [vm_compute; reflexivity|].
  eapply (no_stop_signal table_B visitors_stop_return
            {[ "A" := VFunction idle ]} 3 (VRef 1) scenario_B).
  - intros s. unfold visitors_stop_return.
    destruct (decide (s = "A")) as [->|Hs].
    + rewrite !lookup_singleton_eq. simpl. split; [|done]. by intros p h.
    + rewrite !lookup_singleton_ne by done. done.
  - vm_compute. reflexivity.
  - vm_compute. reflexivity.
Defined.

(** ** C10: walks on structurally equal trees *)

Lemma iso_value_inv π a b :
  iso_value π a b →
  (∃ x y, a = VRef x ∧ b = VRef y ∧ π !! x = Some y)
  ∨ (a = b ∧ ∀ x, a ≠ VRef x).
Proof.
  destruct a, b; simpl; try done; try (intros [= <-]); eauto 10.
Qed.

Lemma iso_value_mono π π' a b :
  π ⊆ π' → iso_value π a b → iso_value π' a b.
Proof.
  intros Hπ. destruct a, b; simpl; try done.
  intros Hx. by eapply lookup_weaken.
Qed.

Lemma iso_error_mono π π' e1 e2 :
  π ⊆ π' → iso_error π e1 e2 → iso_error π' e1 e2.
Proof.
  intros Hπ. destruct e1, e2; simpl; try done.
  - intros [? ?]. split; [by eapply iso_value_mono|done].
  - intros [? ?]. split; [by eapply iso_value_mono|done].
  - by apply iso_value_mono.
Qed.

Lemma iso_object_mono π π' o1 o2 :
  π ⊆ π' → iso_object π o1 o2 → iso_object π' o1 o2.
Proof.
  intros Hπ [Hp He]. split.
  - intros k. destruct (Hp k); constructor. by eapply iso_value_mono.
  - destruct He as [es1 es2 He|]; constructor.
    eapply Forall2_impl; [exact He|]. intros. by eapply iso_value_mono.
Qed.

Lemma iso_member π (h1 h2 : heap) a b k :
  iso_heap π h1 h2 → iso_value π a b →
  match member h1 a k, member h2 b k with
  | Done x, Done y => iso_value π x y
  | Fail e1, Fail e2 => iso_error π e1 e2
  | _, _ => False
  end.
Proof.
  intros [_ Hh] Hv.
  destruct (iso_value_inv _ _ _ Hv) as [(x & y & -> & -> & Hxy)|[<- Hna]].
  - destruct (Hh x y Hxy) as (o1 & o2 & H1 & H2 & Hp & _).
    simpl. rewrite H1, H2. by destruct (Hp k).
  - destruct a; simpl; try done. by destruct (Hna l).
Qed.

Lemma iso_as_array π (h1 h2 : heap) a b :
  iso_heap π h1 h2 → iso_value π a b →
  option_Forall2 (Forall2 (iso_value π)) (as_array h1 a) (as_array h2 b).
Proof.
  intros [_ Hh] Hv.
  destruct (iso_value_inv _ _ _ Hv) as [(x & y & -> & -> & Hxy)|[<- Hna]].
  - destruct (Hh x y Hxy) as (o1 & o2 & H1 & H2 & _ & He).
    simpl. by rewrite H1, H2.
  - destruct a; simpl; try constructor. by destruct (Hna l).
Qed.

Lemma up_to_iso_lawful : lawful up_to_iso.
Proof.
  split; simpl.
  - done.
  - intros π1 π2 π3 ? ?. by etrans.
  - apply iso_value_mono.
  - apply iso_error_mono.
  - apply iso_value_mono.
  - intros π a b s Hv. destruct a, b; simpl in Hv; try done.
    by injection Hv as ->.
  - apply iso_member.
  - apply iso_as_array.
  - done.
Qed.

Lemma up_to_iso_signatures π t1 t2 :
  Forall2 (rel_event up_to_iso π) t1 t2 → signature <$> t1 = signature <$> t2.
Proof.
  induction 1 as [|e1 e2 t1 t2 He _ IH]; [done|].
  rewrite !fmap_cons, IH. f_equal.
  destruct He as (Hph & Hty & _ & Hhk). unfold signature. rewrite Hph.
  f_equal; [f_equal|].
  - simpl in Hty. destruct (ev_type e1), (ev_type e2); simpl in *; try done.
    by injection Hty as ->.
  - destruct (ev_hook e1), (ev_hook e2); try done.
Qed.

Lemma iso_heap_insert π (h1 h2 : heap) x y o1 o2 :
  iso_heap π h1 h2 → π !! x = Some y → iso_object π o1 o2 →
  iso_heap π (<[x := o1]> h1) (<[y := o2]> h2).
Proof.
  intros [Hinj Hh] Hxy Ho. split; [done|]. intros a b Hab.
  destruct (decide (a = x)) as [->|Hne].
  - assert (b = y) as -> by congruence.
    exists o1, o2. by rewrite !lookup_insert_eq.
  - assert (b ≠ y) as Hne' by (intros ->; by apply Hne, (Hinj a x y)).
    rewrite !lookup_insert_ne by done. by apply Hh.
Qed.

Lemma iso_heap_extend π (h1 h2 : heap) l1 l2 o1 o2 :
  iso_heap π h1 h2 → h1 !! l1 = None → h2 !! l2 = None →
  iso_object (<[l1 := l2]> π) o1 o2 →
  π ⊆ <[l1 := l2]> π
  ∧ iso_heap (<[l1 := l2]> π) (<[l1 := o1]> h1) (<[l2 := o2]> h2).
Proof.
  intros [Hinj Hh] H1 H2 Ho.
  assert (π !! l1 = None) as Hl1.
  { destruct (π !! l1) as [b|] eqn:Hb; [|done].
    destruct (Hh l1 b Hb) as (? & ? & ? & _). congruence. }
  assert (∀ a, π !! a ≠ Some l2) as Hl2.
  { intros a Ha. destruct (Hh a l2 Ha) as (? & ? & _ & ? & _). congruence. }
  assert (π ⊆ <[l1 := l2]> π) as Hsub by by apply insert_subseteq.
  split; [done|]. split.
  - intros a a' b. rewrite !lookup_insert_Some.
    intros [[? ?]|[? Ha]] [[? ?]|[? Ha']]; subst; try done.
    + by destruct (Hl2 a').
    + by destruct (Hl2 a).
    + by eapply Hinj.
  - intros a b. rewrite lookup_insert_Some. intros [[<- <-]|[Hne Hab]].
    + exists o1, o2. by rewrite !lookup_insert_eq.
    + assert (b ≠ l2) as Hne' by (intros ->; by destruct (Hl2 a)).
      rewrite !lookup_insert_ne by done.
      destruct (Hh a b Hab) as (o1' & o2' & ? & ? & ?).
      exists o1', o2'. split; [done|]. split; [done|].
      by eapply iso_object_mono.
Qed.

Lemma iso_heap_empty : iso_heap ∅ ∅ ∅.
Proof. split; intros *; by rewrite lookup_empty. Qed.

Lemma iso_set_member π (h1 h2 : heap) a b k x1 x2 :
  iso_heap π h1 h2 → iso_value π a b → iso_value π x1 x2 →
  iso_heap π (set_member h1 a k x1).1 (set_member h2 b k x2).1
  ∧ iso_outcome π (set_member h1 a k x1).2 (set_member h2 b k x2).2.
Proof.
  intros Hh Hv Hx.
  destruct (iso_value_inv _ _ _ Hv) as [(x & y & -> & -> & Hxy)|[<- Hna]].
  - destruct (proj2 Hh x y Hxy) as (o1 & o2 & H1 & H2 & Hp & He).
    simpl. rewrite H1, H2. simpl. split; [|done].
    apply iso_heap_insert; [done..|]. split; [|done].
    by apply map_Forall2_insert_2.
  - destruct a; simpl; try done. by destruct (Hna l).
Qed.

Lemma iso_splice π (h1 h2 : heap) a b i items1 items2 :
  iso_heap π h1 h2 → iso_value π a b →
  Forall2 (iso_value π) items1 items2 →
  iso_heap π (splice h1 a i items1).1 (splice h2 b i items2).1
  ∧ iso_outcome π (splice h1 a i items1).2 (splice h2 b i items2).2.
Proof.
  intros Hh Hv Hitems.
  destruct (iso_value_inv _ _ _ Hv) as [(x & y & -> & -> & Hxy)|[<- Hna]].
  - destruct (proj2 Hh x y Hxy) as (o1 & o2 & H1 & H2 & Hp & He).
    simpl. rewrite H1, H2. destruct He as [es1 es2 He|]; simpl; [|done].
    split; [|done]. apply iso_heap_insert; [done..|]. split; [done|].
    simpl. constructor. unfold spliced.
    apply Forall2_app; [by apply Forall2_take|].
    apply Forall2_app; [done|by apply Forall2_drop].
  - destruct a; simpl; try done. by destruct (Hna l).
Qed.

Lemma rel_path_members (R : relations) w p1 p2 :
  rel_path R w p1 p2 →
  rel_value R w (node p1) (node p2)
  ∧ rel_value R w (parent p1) (parent p2)
  ∧ key p1 = key p2 ∧ listKey p1 = listKey p2.
Proof. destruct p1. simpl. tauto. Qed.

(** The shared body of [remove] and [replaceWith] respects the relation. *)
Lemma iso_mutation π (h1 h2 : heap) p1 p2 items1 items2 x1 x2 :
  rel_path up_to_iso π p1 p2 → iso_heap π h1 h2 →
  Forall2 (iso_value π) items1 items2 → iso_value π x1 x2 →
  let run p items x (h : heap) :=
    and_then
      (match truthy_index (listKey p) with
       | Some i =>
           match member h (parent p) (key_name (key p)) with
           | Done a => splice h a i items
           | Fail e => (h, Fail e)
           end
       | None => (h, Done tt)
       end)
      (λ _ h, set_member h (parent p) (key_name (key p)) x) in
  iso_heap π (run p1 items1 x1 h1).1 (run p2 items2 x2 h2).1
  ∧ iso_outcome π (run p1 items1 x1 h1).2 (run p2 items2 x2 h2).2.
Proof.
  intros Hp Hh Hitems Hx. cbv zeta.
  destruct (rel_path_members _ _ _ _ Hp) as (_ & Hpa & Hk & Hi).
  simpl in Hpa. rewrite Hk, Hi.
  destruct (truthy_index (listKey p2)) as [i|].
  - pose proof (iso_member π h1 h2 _ _ (key_name (key p2)) Hh Hpa) as Hm.
    destruct (member h1 (parent p1) _) as [a1|e1],
             (member h2 (parent p2) _) as [a2|e2]; try done.
    destruct (iso_splice π h1 h2 a1 a2 i items1 items2 Hh Hm Hitems)
      as [Hh' Hr'].
    destruct (splice h1 a1 i items1) as [h1' [[]|e1]],
             (splice h2 a2 i items2) as [h2' [[]|e2]]; try done.
    simpl in *. by apply iso_set_member.
  - simpl. by apply iso_set_member.
Qed.

Lemma iso_remove π (h1 h2 : heap) p1 p2 :
  rel_path up_to_iso π p1 p2 → iso_heap π h1 h2 →
  iso_heap π (remove p1 h1).1 (remove p2 h2).1
  ∧ iso_outcome π (remove p1 h1).2 (remove p2 h2).2.
Proof.
  intros Hp Hh.
  by apply (iso_mutation π h1 h2 p1 p2 [] [] VNull VNull).
Qed.

Lemma iso_replaceWith π (h1 h2 : heap) p1 p2 n1 n2 :
  rel_path up_to_iso π p1 p2 → iso_heap π h1 h2 → iso_value π n1 n2 →
  iso_heap π (replaceWith p1 n1 h1).1 (replaceWith p2 n2 h2).1
  ∧ iso_outcome π (replaceWith p1 n1 h1).2 (replaceWith p2 n2 h2).2.
Proof.
  intros Hp Hh Hn.
  apply (iso_mutation π h1 h2 p1 p2 [n1] [n2] n1 n2); try done.
  by repeat constructor.
Qed.

(** Hooks that respect structural equality: a call of [remove], and a call
    of [replaceWith] with a new object that holds no reference. *)
Lemma calling_remove_respects_iso :
  rel_hook up_to_iso (calling remove) (calling remove).
Proof.
  intros π p1 p2 h1 h2 Hp Hh. exists π. split; [simpl; reflexivity|].
  destruct (iso_remove π h1 h2 p1 p2 Hp Hh) as [Hh' Hr'].
  unfold calling.
  destruct (remove p1 h1) as [h1' [[]|e1]],
           (remove p2 h2) as [h2' [[]|e2]]; done.
Qed.

Lemma replacing_with_respects_iso o :
  (∀ π, iso_object π o o) →
  rel_hook up_to_iso (replacing_with o) (replacing_with o).
Proof.
  intros Ho π p1 p2 h1 h2 Hp Hh. unfold replacing_with, alloc.
  set (l1 := fresh (dom h1)). set (l2 := fresh (dom h2)).
  destruct (iso_heap_extend π h1 h2 l1 l2 o o Hh) as [Hsub Hh'].
  { apply not_elem_of_dom, is_fresh. }
  { apply not_elem_of_dom, is_fresh. }
  { apply Ho. }
  exists (<[l1 := l2]> π). split; [done|].
  assert (rel_path up_to_iso (<[l1 := l2]> π) p1 p2) as Hp'.
  { by eapply (rel_path_mono up_to_iso up_to_iso_lawful). }
  destruct (iso_replaceWith _ _ _ p1 p2 (VRef l1) (VRef l2) Hp' Hh')
    as [Hh'' Hr''].
  { simpl. apply lookup_insert_eq. }
  unfold calling.
  destruct (replaceWith p1 (VRef l1) _) as [h1' [[]|e1]],
           (replaceWith p2 (VRef l2) _) as [h2' [[]|e2]]; done.
Qed.

Lemma iso_heap_extend_2 π (h1 h2 : heap) l1 l2 o1 o2 :
  iso_heap π h1 h2 → h1 !! l1 = None → h2 !! l2 = None →
  iso_object (<[l1 := l2]> π) o1 o2 →
  iso_heap (<[l1 := l2]> π) (<[l1 := o1]> h1) (<[l2 := o2]> h2).
Proof. intros. by apply iso_heap_extend. Qed.

Lemma identifier_x_iso π : iso_object π identifier_x identifier_x.
Proof.
  split; [|constructor]. unfold identifier_x, plain. simpl props.
  repeat (apply map_Forall2_insert_2; [reflexivity|]).
  apply map_Forall2_empty.
Qed.

Lemma visitors_rewrite_respect_iso :
  rel_visitors up_to_iso visitors_rewrite visitors_rewrite.
Proof.
  intros s. unfold visitors_rewrite.
  destruct (decide (s = "Identifier")) as [->|Hs1].
  { rewrite lookup_insert_eq. simpl. split; [done|].
    apply replacing_with_respects_iso, identifier_x_iso. }
  rewrite lookup_insert_ne by done.
  destruct (decide (s = "NumericLiteral")) as [->|Hs2].
  { rewrite lookup_singleton_eq. simpl. split; [|done].
    apply calling_remove_respects_iso. }
  by rewrite lookup_singleton_ne.
Qed.

Lemma scenario_D_iso : iso_heap iso_D scenario_D scenario_D'.
Proof.
  unfold iso_D, scenario_D, scenario_D'.
  repeat (apply iso_heap_extend_2;
          [|vm_compute; reflexivity|vm_compute; reflexivity
           |split;
            [unfold plain, array; simpl props;
             repeat (apply map_Forall2_insert_2;
                     [first [reflexivity|vm_compute; reflexivity]|]);
             apply map_Forall2_empty
            |repeat constructor]]).
  apply iso_heap_empty.
Qed.

(** C10. Take a table, a visitor map whose hooks respect structural
    equality (on related paths and structurally equal stores they leave
    structurally equal stores, and return or throw alike), and two
    structurally equal input trees. Then the two walks, with the same fuel,
    leave structurally equal trees, end the same way, and make the same
    sequence of visits: the same phases in the same order for nodes of the
    same types, with a hook called in the one exactly when a hook is called
    in the other. *)
Theorem walk_deterministic table visitors fuel π (h1 h2 : heap) ast1 ast2 :
  rel_visitors up_to_iso visitors visitors →
  iso_heap π h1 h2 →
  iso_value π ast1 ast2 →
  ∃ π',
    π ⊆ π'
    ∧ iso_heap π' (walk table fuel ast1 visitors h1).1.1
                  (walk table fuel ast2 visitors h2).1.1
    ∧ rel_outcome up_to_iso π' (walk table fuel ast1 visitors h1).2
                               (walk table fuel ast2 visitors h2).2
    ∧ Forall2 (rel_event up_to_iso π')
        (walk table fuel ast1 visitors h1).1.2
        (walk table fuel ast2 visitors h2).1.2
    ∧ signature <$> (walk table fuel ast1 visitors h1).1.2
      = signature <$> (walk table fuel ast2 visitors h2).1.2.
Proof.
  intros Hvis Hh Hast.
  destruct (related_traverse up_to_iso up_to_iso_lawful table
              visitors visitors Hvis fuel π ast1 ast2 VUndef VUndef None None
              None None Hast eq_refl I π h1 h2 (reflexivity π) Hh)
    as (π' & Hπ & Hh' & Ht & Hr).
  exists π'. split; [done|]. split; [done|]. split; [done|].
  split; [done|]. by eapply up_to_iso_signatures.
Qed.

Lemma walk_deterministic_witness :
  ∃ π',
    iso_D ⊆ π'
    ∧ iso_heap π'
        (walk visitorKeys 4 (VRef 1) visitors_rewrite scenario_D).1.1
        (walk visitorKeys 4 (VRef 21) visitors_rewrite scenario_D').1.1
    ∧ rel_outcome up_to_iso π'
        (walk visitorKeys 4 (VRef 1) visitors_rewrite scenario_D).2
        (walk visitorKeys 4 (VRef 21) visitors_rewrite scenario_D').2
    ∧ Forall2 (rel_event up_to_iso π')
        (walk visitorKeys 4 (VRef 1) visitors_rewrite scenario_D).1.2
        (walk visitorKeys 4 (VRef 21) visitors_rewrite scenario_D').1.2
    ∧ signature <$>
        (walk visitorKeys 4 (VRef 1) visitors_rewrite scenario_D).1.2
      = signature <$>
          (walk visitorKeys 4 (VRef 21) visitors_rewrite scenario_D').1.2.
Proof.
  apply (walk_deterministic visitorKeys visitors_rewrite 4 iso_D
           scenario_D scenario_D' (VRef 1) (VRef 21)).
  - exact visitors_rewrite_respect_iso.
  - exact scenario_D_iso.
  - vm_compute. reflexivity.
Defined.

(** * Further properties of the methods of NodePath *)

(** ** What the methods touch *)

(** X1. [remove] and [replaceWith] create no cell of the store and delete
    none, and they leave every cell as it was except the parent object and
    the value its slot held when the method was called. *)
Theorem mutation_frame (this : NodePath) n (h h' : heap) :
  h' = (remove this h).1 ∨ h' = (replaceWith this n h).1 →
  dom h' = dom h
  ∧ ∀ l, parent this ≠ VRef l →
         member h (parent this) (key_name (key this)) ≠ Done (VRef l) →
         h' !! l = h !! l.
Proof.
  assert (∀ h' items x r,
    and_then
      (match truthy_index (listKey this) with
       | Some i =>
           match member h (parent this) (key_name (key this)) with
           | Done a => splice h a i items
           | Fail e => (h, Fail e)
           end
       | None => (h, Done tt)
       end)
      (λ _ h, set_member h (parent this) (key_name (key this)) x)
    = (h', r) →
    dom h' = dom h
    ∧ ∀ l, parent this ≠ VRef l →
           member h (parent this) (key_name (key this)) ≠ Done (VRef l) →
           h' !! l = h !! l) as Hbody.
  { clear h'. intros h' items x r Hrun.
    apply mutation_inv in Hrun
      as [(e & _ & ->)|[(_ & Hset & _)|(i & a & h1 & _ & Hm & Hs & Hset & _)]].
    - done.
    - apply set_member_frame in Hset as [Hdom Hother]. split; [done|].
      intros l Hp _. by apply Hother.
    - apply set_member_frame in Hset as [Hdom Hother].
      apply splice_frame in Hs as [Hdom1 Hother1].
      split; [congruence|]. intros l Hp Ha.
      rewrite Hother by done. apply Hother1. congruence. }
  intros [->| ->].
  - unfold remove. destruct (and_then _ _) as [h1 r] eqn:Hrun.
    by apply Hbody in Hrun.
  - unfold replaceWith. destruct (and_then _ _) as [h1 r] eqn:Hrun.
    by apply Hbody in Hrun.
Qed.

Lemma mutation_frame_witness :
  dom (remove (mkNodePath (VRef 4) (VRef 1) None (Some "body") (Some 1))
         scenario_B).1 = dom scenario_B
  ∧ (remove (mkNodePath (VRef 4) (VRef 1) None (Some "body") (Some 1))
       scenario_B).1 !! 5%positive = scenario_B !! 5%positive.
Proof.
  destruct (mutation_frame
              (mkNodePath (VRef 4) (VRef 1) None (Some "body") (Some 1))
              VNull scenario_B _ (or_introl eq_refl)) as [Hdom Hother].
  split; [exact Hdom|]. apply Hother; vm_compute; congruence.
Defined.

(** X2. A [remove] or [replaceWith] that throws has not changed the
    store. *)
Theorem mutation_fails_cleanly (this : NodePath) n (h h' : heap) e :
  remove this h = (h', Fail e) ∨ replaceWith this n h = (h', Fail e) →
  h' = h.
Proof.
  intros [Hrun|Hrun]; apply mutation_inv in Hrun
    as [(e' & _ & ->)|[(_ & _ & ?)|(i & a & h1 & _ & _ & _ & _ & ?)]]; done.
Qed.

Lemma mutation_fails_cleanly_witness :
  (remove (mkNodePath (VRef 3) (VRef 1) None (Some "kind") (Some 2))
     scenario_F).1 = scenario_F.
Proof.
  apply (mutation_fails_cleanly
           (mkNodePath (VRef 3) (VRef 1) None (Some "kind") (Some 2)) VNull
           scenario_F _ (TypeError_read VUndef "splice")).
  left. vm_compute. reflexivity.
Defined.

(** ** Mutations one after another *)

(** X3. Through a path whose index is absent or [0], and whose parent is an
    object, the methods only assign to the slot, so of two calls the later
    one decides: a replacement after a replacement or a removal is that
    replacement alone, and a removal after either is the removal alone. *)
Theorem last_mutation_wins (this : NodePath) a b (h : heap) pl o :
  truthy_index (listKey this) = None →
  parent this = VRef pl → h !! pl = Some o →
  replaceWith this b (replaceWith this a h).1 = replaceWith this b h
  ∧ replaceWith this b (remove this h).1 = replaceWith this b h
  ∧ remove this (replaceWith this a h).1 = remove this h
  ∧ remove this (remove this h).1 = remove this h.
Proof.
  intros Hi Hp Hpl.
  rewrite (replaceWith_unindexed this a h pl o Hi Hp Hpl).
  rewrite (replaceWith_unindexed this b h pl o Hi Hp Hpl).
  rewrite (remove_unindexed this h pl o Hi Hp Hpl). simpl.
  repeat split.
  - erewrite replaceWith_unindexed; [|done|done|apply lookup_insert_eq].
    simpl. by rewrite !insert_insert_eq.
  - erewrite replaceWith_unindexed; [|done|done|apply lookup_insert_eq].
    simpl. by rewrite !insert_insert_eq.
  - erewrite remove_unindexed; [|done|done|apply lookup_insert_eq].
    simpl. by rewrite !insert_insert_eq.
  - erewrite remove_unindexed; [|done|done|apply lookup_insert_eq].
    simpl. by rewrite !insert_insert_eq.
Qed.

Lemma last_mutation_wins_witness :
  replaceWith path_D (VRef 5) (remove path_D scenario_D).1
  = replaceWith path_D (VRef 5) scenario_D.
Proof.
  destruct (last_mutation_wins path_D (VRef 3) (VRef 5) scenario_D 1%positive
              (plain [("type", VStr "ExpressionStatement");
                      ("expression", VRef 2)]))
    as (_ & H & _); [reflexivity|reflexivity|reflexivity|exact H].
Defined.

(** X4. With a non-zero index on a slot that holds a sequence,
    [replaceWith] first rewrites the sequence: within its bounds the element
    at the index becomes the new node, the others and the length staying as
    they were, and past its end the node is appended. The slot itself then
    holds the new node. *)
Theorem replaceWith_rewrites_sequence (this : NodePath) n (h : heap) i la es :
  listKey this = Some (S i) →
  member h (parent this) (key_name (key this)) = Done (VRef la) →
  as_array h (VRef la) = Some es →
  ∃ h',
    replaceWith this n h = (h', Done tt)
    ∧ as_array h' (VRef la)
      = Some (if decide (S i < length es) then <[S i := n]> es else es ++ [n])
    ∧ member h' (parent this) (key_name (key this)) = Done n.
Proof.
  intros Hi Hm Ha.
  destruct (replaceWith_indexed this n h i la es Hi Hm Ha)
    as (h' & Hrun & Harr & Hslot).
  exists h'. split; [done|]. split; [|done]. rewrite Harr. f_equal.
  destruct (decide (S i < length es)) as [Hlt|Hge].
  - unfold spliced. by rewrite insert_take_drop.
  - apply spliced_past_end. lia.
Qed.

Lemma replaceWith_rewrites_sequence_witness :
  ∃ h',
    replaceWith (mkNodePath (VRef 4) (VRef 1) None (Some "body") (Some 1))
      (VRef 5) scenario_B = (h', Done tt)
    ∧ as_array h' (VRef 2) = Some [VRef 3; VRef 5; VRef 5]
    ∧ member h' (VRef 1) "body" = Done (VRef 5).
Proof.
  apply (replaceWith_rewrites_sequence
           (mkNodePath (VRef 4) (VRef 1) None (Some "body") (Some 1))
           (VRef 5) scenario_B 0 2%positive [VRef 3; VRef 4; VRef 5]);
    reflexivity.
Defined.

Lemma remove_leaves_null (this : NodePath) (h h' : heap) :
  remove this h = (h', Done tt) →
  member h' (parent this) (key_name (key this)) = Done VNull.
Proof.
  intros Hrun. apply mutation_inv in Hrun
    as [(e & ? & _)|[(_ & Hset & _)|(i & a & h1 & _ & _ & _ & Hset & _)]];
    [done| |].
  all: destruct (parent this) as [| | | | |pl]; try done; simpl in Hset.
  - destruct (h !! pl) as [o|]; [|done]. injection Hset as <-.
    apply member_after_set.
  - destruct (h1 !! pl) as [o|]; [|done]. injection Hset as <-.
    apply member_after_set.
Qed.

(** X5. After a [remove] that returned, the slot holds [null], whatever it
    held before. Every later [remove] or [replaceWith] through a path to
    the same slot with a non-zero index therefore throws the [TypeError] of
    reading [splice] of [null], and changes nothing. *)
Theorem remove_closes_slot (this that : NodePath) n (h h' : heap) j :
  remove this h = (h', Done tt) →
  parent that = parent this → key that = key this →
  listKey that = Some (S j) →
  remove that h' = (h', Fail (TypeError_read VNull "splice"))
  ∧ replaceWith that n h' = (h', Fail (TypeError_read VNull "splice")).
Proof.
  intros Hrun Hp Hk Hj. apply remove_leaves_null in Hrun.
  unfold remove, replaceWith. by rewrite Hj, Hp, Hk, Hrun.
Qed.

Lemma remove_closes_slot_witness :
  remove (mkNodePath (VRef 5) (VRef 1) None (Some "body") (Some 2))
    (remove (mkNodePath (VRef 4) (VRef 1) None (Some "body") (Some 1))
       scenario_B).1
  = ((remove (mkNodePath (VRef 4) (VRef 1) None (Some "body") (Some 1))
        scenario_B).1,
     Fail (TypeError_read VNull "splice")).
Proof.
  destruct (remove_closes_slot
              (mkNodePath (VRef 4) (VRef 1) None (Some "body") (Some 1))
              (mkNodePath (VRef 5) (VRef 1) None (Some "body") (Some 2))
              VNull scenario_B
              (remove (mkNodePath (VRef 4) (VRef 1) None (Some "body")
                         (Some 1)) scenario_B).1 1)
    as [H _]; [vm_compute; reflexivity|reflexivity|reflexivity|reflexivity|].
  exact H.
Defined.

(** * Further properties of the walk *)

(** ** What a walk keeps *)

Section Keeping.

Variable table : gmap string definition.
Variable visitors : gmap string visitor_entry.
Variable I : heap → Prop.
Variable P : NodePath → Prop.
Variable Q : event → Prop.

Hypothesis hooks_keep :
  ∀ f, hook_of visitors f → ∀ path h, P path → I h → I (f path h).1.
Hypothesis children_keep :
  ∀ path n k i, P path → P (mkNodePath n (node path) (Some path) (Some k) i).
Hypothesis visits_keep :
  ∀ h path ty ph hk,
    I h → P path → member h (node path) "type" = Done ty →
    Q (Ev ph ty path hk).

Lemma keeps_ret : keeps I Q (ret tt).
Proof. intros h HI. by split. Qed.

Lemma keeps_bind (m : M unit) (f : unit → M unit) :
  keeps I Q m → keeps I Q (f tt) → keeps I Q (bind m f).
Proof.
  intros Hm Hf h HI. unfold bind. specialize (Hm h HI).
  destruct (m h) as [[h1 t1] [[]|e|]]; simpl in Hm; try done.
  destruct Hm as [HI1 Ht1]. specialize (Hf h1 HI1).
  destruct (f tt h1) as [[h2 t2] r2]. simpl in *.
  split; [tauto|]. apply Forall_app. tauto.
Qed.

Lemma keeps_forEach {A} (f : A → M unit) l :
  (∀ a, keeps I Q (f a)) → keeps I Q (forEach f l).
Proof.
  intros Hf. induction l as [|a l IH]; simpl.
  - apply keeps_ret.
  - by apply keeps_bind.
Qed.

Lemma keeps_forEach_array prop (f : value → nat → M unit) :
  (∀ v k, keeps I Q (f v k)) → keeps I Q (forEach_array prop f).
Proof.
  intros Hf h HI. unfold forEach_array.
  destruct (as_array h prop) as [es|]; [|by split].
  apply keeps_forEach; [|done]. intros k h1 HI1. unfold forEach_step.
  destruct (as_array h1 prop) as [es1|]; [|by split].
  destruct (es1 !! k) as [v|]; [|by split]. by apply Hf.
Qed.

Lemma keeps_visit_field rec n path k :
  (∀ c i, keeps I Q (rec c n (Some path) (Some k) i)) →
  keeps I Q (visit_field rec n path k).
Proof.
  intros Hrec h HI. unfold visit_field.
  destruct (member h n k) as [c|e] eqn:Hm.
  - rewrite (bind_read_done (λ h, member h n k) _ h c Hm).
    destruct (isArray h c); [|by apply Hrec].
    apply keeps_forEach_array; [|done]. intros v j. apply Hrec.
  - rewrite (bind_read_fail (λ h, member h n k) _ h e Hm). by split.
Qed.

Lemma keeps_call ph ty path f :
  (∀ g, f = Some g → hook_of visitors g) → P path →
  (∀ hk, Q (Ev ph ty path hk)) →
  keeps I Q (call ph ty path f).
Proof.
  intros Hf HP HQ h HI. unfold call. destruct f as [g|].
  - pose proof (hooks_keep g (Hf g eq_refl) path h HP HI) as Hg.
    destruct (g path h) as [h' [v|e]]; simpl in *;
      (split; [done|by apply Forall_singleton]).
  - split; [done|by apply Forall_singleton].
Qed.

Lemma hook_of_enter ty g :
  enter (normalise (visitors_get visitors ty)) = Some g → hook_of visitors g.
Proof.
  destruct ty as [| | | |s|]; try done. intros Hg. exists s. by left.
Qed.

Lemma hook_of_exit ty g :
  exit (normalise (visitors_get visitors ty)) = Some g → hook_of visitors g.
Proof.
  destruct ty as [| | | |s|]; try done. intros Hg. exists s. by right.
Qed.

Lemma keeps_traverse fuel :
  ∀ n p pp k i,
    P (mkNodePath n p pp k i) →
    keeps I Q (traverse table fuel n visitors p pp k i).
Proof.
  induction fuel as [|fuel IH]; intros n p pp k i HP h HI; [by split|].
  rewrite traverse_S.
  destruct (member h n "type") as [ty|e] eqn:Hty; [|by split].
  cbv zeta.
  assert (∀ ph hk, Q (Ev ph ty (mkNodePath n p pp k i) hk)) as HQ.
  { intros ph hk. by apply (visits_keep h). }
  clear Hty. revert h HI. apply keeps_bind.
  { apply keeps_call; [|done|done]. intros g. apply hook_of_enter. }
  intros h HI. destruct (Map_get table ty) as [d|]; [|by split].
  rewrite bind_definition_some. revert h HI. apply keeps_bind.
  - destruct (visitor d) as [keys|]; [|apply keeps_ret].
    apply keeps_forEach. intros key. apply keeps_visit_field.
    intros c j. apply IH. by apply (children_keep (mkNodePath n p pp k i)).
  - apply keeps_call; [|done|done]. intros g. apply hook_of_exit.
Qed.

End Keeping.

(** ** C3: the walk after a replacement on enter *)




(** X6. [traverse] itself writes nothing: a property of the store that
    every hook of the visitor map keeps is kept by the whole walk, however
    the walk ends. *)
Theorem traverse_keeps_store table visitors (I : heap → Prop)
    fuel n p pp k i (h : heap) :
  (∀ f, hook_of visitors f → ∀ path h, I h → I (f path h).1) →
  I h →
  I (traverse table fuel n visitors p pp k i h).1.1.
Proof.
  intros Hhooks HI.
  apply (keeps_traverse table visitors I (λ _, True) (λ _, True)); try done.
  intros f Hf path h0 _. by apply Hhooks.
Qed.

Lemma traverse_keeps_store_witness :
  (traverse table_B 3 (VRef 1) visitors_stop_throw VUndef None None None
     scenario_B).1.1 = scenario_B.
Proof.
  apply (traverse_keeps_store table_B visitors_stop_throw
           (λ h, h = scenario_B) 3 (VRef 1) VUndef None None None scenario_B);
    [|reflexivity].
  intros f [ty Hf] path h ->. unfold visitors_stop_throw in Hf.
  destruct (decide (ty = "A")) as [->|HA].
  - rewrite lookup_insert_eq in Hf. simpl in Hf.
    destruct Hf as [[= <-]|[=]]. reflexivity.
  - rewrite lookup_insert_ne in Hf by done.
    destruct (decide (ty = "Program")) as [->|HP].
    + rewrite lookup_singleton_eq in Hf. simpl in Hf.
      destruct Hf as [[=]|[= <-]]. reflexivity.
    + rewrite lookup_singleton_ne in Hf by done. simpl in Hf.
      destruct Hf as [[=]|[=]].
Defined.

(** ** The paths of a walk *)

Lemma below_ancestors root p :
  parentPath root = None →
  below root p →
  last (p :: ancestors p) = Some root
  ∧ Forall (λ q, match parentPath q with
                 | Some pp => parent q = node pp ∧ is_Some (key q)
                 | None => q = root
                 end) (p :: ancestors p).
Proof.
  intros Hroot. induction 1 as [|pp n k i Hpp [IHlast IHall]].
  - destruct root as [n p [pp|] k i]; [done|]. simpl.
    split; [done|]. by apply Forall_singleton.
  - change (ancestors (mkNodePath n (node pp) (Some pp) (Some k) i))
      with (pp :: ancestors pp).
    split; [by rewrite last_cons, IHlast|].
    apply Forall_cons. split; [|done]. simpl. eauto.
Qed.

(** X7. Every path a walk hands to a hook leads back to the path of the
    node the walk started from: following [parentPath] from it ends at that
    first path, and at every step on the way the [parent] is the node of
    the [parentPath] and the [key] is present. *)
Theorem paths_lead_to_root table visitors fuel ast (h : heap) e :
  e ∈ (walk table fuel ast visitors h).1.2 →
  last (ev_path e :: ancestors (ev_path e)) = Some (root_path ast)
  ∧ Forall (λ q, match parentPath q with
                 | Some pp => parent q = node pp ∧ is_Some (key q)
                 | None => q = root_path ast
                 end) (ev_path e :: ancestors (ev_path e)).
Proof.
  intros He. apply below_ancestors; [done|].
  destruct (keeps_traverse table visitors (λ _, True) (below (root_path ast))
              (λ e, below (root_path ast) (ev_path e)))
    with (fuel := fuel) (n := ast) (p := VUndef) (pp := @None NodePath)
         (k := @None string) (i := @None nat) (h := h) as [_ Hall];
    try done.
  - intros path n k i. apply below_child.
  - apply below_root.
  - by apply (proj1 (Forall_forall _ _) Hall e).
Qed.

Lemma paths_lead_to_root_witness :
  last (path_D :: ancestors path_D) = Some (root_path (VRef 1)).
Proof.
  apply (paths_lead_to_root visitorKeys visitors_replace 3 (VRef 1) scenario_D
           (Ev Enter (VStr "BinaryExpression") path_D (Some (Done VUndef)))).
  vm_compute. apply elem_of_cons. right. apply elem_of_cons. by left.
Defined.

(** ** Walks that agree *)

Section Agreeing.

Variable P : list event → outcome unit → Prop.
Hypothesis P_splits : splits P.

Lemma agrees_refl (m : M unit) : agrees_on P m m.
Proof. by intros h h' t r Hm _. Qed.

Lemma agrees_bind (m1 m2 : M unit) (f1 f2 : unit → M unit) :
  agrees_on P m1 m2 → agrees_on P (f1 tt) (f2 tt) →
  agrees_on P (bind m1 f1) (bind m2 f2).
Proof.
  intros Hm Hf h h' t r Hrun HP.
  apply bind_inv in Hrun
    as [(h1 & t1 & [] & t2 & Hm1 & Hf1 & ->)|[[Hm1 ->]|(e & Hm1 & ->)]].
  - destruct (P_splits _ _ _ HP) as [HP1 HP2].
    unfold bind. rewrite (Hm _ _ _ _ Hm1 HP1).
    by rewrite (Hf _ _ _ _ Hf1 HP2).
  - unfold bind. by rewrite (Hm _ _ _ _ Hm1 HP).
  - unfold bind. by rewrite (Hm _ _ _ _ Hm1 HP).
Qed.

Lemma agrees_forEach {A} (f1 f2 : A → M unit) l :
  (∀ a, agrees_on P (f1 a) (f2 a)) →
  agrees_on P (forEach f1 l) (forEach f2 l).
Proof.
  intros Hf. induction l as [|a l IH]; simpl.
  - apply agrees_refl.
  - by apply agrees_bind.
Qed.

Lemma agrees_forEach_array prop (f1 f2 : value → nat → M unit) :
  (∀ v k, agrees_on P (f1 v k) (f2 v k)) →
  agrees_on P (forEach_array prop f1) (forEach_array prop f2).
Proof.
  intros Hf h h' t r. unfold forEach_array.
  destruct (as_array h prop) as [es|]; [|done].
  apply agrees_forEach. intros k h1 h1' t1 r1. unfold forEach_step.
  destruct (as_array h1 prop) as [es1|]; [|done].
  destruct (es1 !! k) as [v|]; [|done]. apply Hf.
Qed.

Lemma agrees_visit_field rec1 rec2 n path k :
  (∀ c i, agrees_on P (rec1 c n (Some path) (Some k) i)
                      (rec2 c n (Some path) (Some k) i)) →
  agrees_on P (visit_field rec1 n path k) (visit_field rec2 n path k).
Proof.
  intros Hrec h h' t r. unfold visit_field.
  destruct (member h n k) as [c|e] eqn:Hm.
  - rewrite !(bind_read_done (λ h, member h n k) _ h c Hm).
    destruct (isArray h c); [|apply Hrec].
    apply agrees_forEach_array. intros v j. apply Hrec.
  - by rewrite !(bind_read_fail (λ h, member h n k) _ h e Hm).
Qed.

Lemma agrees_fields rec1 rec2 n path fields :
  (∀ c k i, agrees_on P (rec1 c n (Some path) (Some k) i)
                        (rec2 c n (Some path) (Some k) i)) →
  agrees_on P
    (match fields with
     | Some keys => forEach (visit_field rec1 n path) keys
     | None => ret tt
     end)
    (match fields with
     | Some keys => forEach (visit_field rec2 n path) keys
     | None => ret tt
     end).
Proof.
  intros Hrec. destruct fields as [keys|]; [|apply agrees_refl].
  apply agrees_forEach. intros k. apply agrees_visit_field.
  intros c i. apply Hrec.
Qed.

End Agreeing.

Lemma splits_not_out_of_fuel : splits (λ _ r, r ≠ OutOfFuel).
Proof. by intros t1 t2 r Hr. Qed.

Lemma splits_ok : splits (λ _ r, r = Ok tt).
Proof. by intros t1 t2 r Hr. Qed.

Lemma splits_same_hooks vis1 vis2 : splits (λ t _, same_hooks_on vis1 vis2 t).
Proof. intros t1 t2 r Ht. by apply Forall_app in Ht. Qed.

Lemma traverse_more_fuel table visitors fuel :
  ∀ fuel' n p pp k i,
    fuel ≤ fuel' →
    agrees_on (λ _ r, r ≠ OutOfFuel)
      (traverse table fuel n visitors p pp k i)
      (traverse table fuel' n visitors p pp k i).
Proof.
  induction fuel as [|fuel IH]; intros fuel' n p pp k i Hle h h' t r.
  { by intros [= <- <- <-]. }
  destruct fuel' as [|fuel']; [lia|]. rewrite !traverse_S.
  destruct (member h n "type") as [ty|e]; [|done]. cbv zeta. revert h h' t r.
  apply agrees_bind; [apply splits_not_out_of_fuel|apply agrees_refl|].
  intros h h' t r. destruct (Map_get table ty) as [d|]; [|done].
  rewrite !bind_definition_some. revert h h' t r.
  apply agrees_bind; [apply splits_not_out_of_fuel| |apply agrees_refl].
  apply agrees_fields; [apply splits_not_out_of_fuel|].
  intros c key j. apply IH. lia.
Qed.

(** The bound on the depth of the recursion, which the source does not
    have, does not show in a result: a walk that ends within a bound,
    normally or by a throw, ends in the same way, with the same store and
    the same visits, within every larger bound. *)
Theorem walk_result_stable table visitors fuel fuel' ast (h h' : heap) t r :
  walk table fuel ast visitors h = (h', t, r) →
  r ≠ OutOfFuel → fuel ≤ fuel' →
  walk table fuel' ast visitors h = (h', t, r).
Proof.
  intros Hrun Hr Hle.
  by apply (traverse_more_fuel table visitors fuel fuel' ast VUndef None None
              None Hle h h' t r Hrun).
Qed.

Lemma walk_result_stable_witness :
  walk visitorKeys 50 (VRef 1) visitors_replace scenario_D
  = walk visitorKeys 3 (VRef 1) visitors_replace scenario_D.
Proof.
  rewrite (surjective_pairing (walk visitorKeys 3 (VRef 1) visitors_replace
                                 scenario_D)).
  rewrite (surjective_pairing (walk visitorKeys 3 (VRef 1) visitors_replace
                                 scenario_D).1).
  apply (walk_result_stable visitorKeys visitors_replace 3 50).
  - vm_compute. reflexivity.
  - vm_compute. discriminate.
  - lia.
Defined.

Lemma Map_get_extends table table' ty d :
  extends table' table → Map_get table ty = Some d →
  ∃ d', Map_get table' ty = Some d' ∧ visitor d' = visitor d.
Proof. intros Hext. destruct ty as [| | | |s|]; try done. apply Hext. Qed.

Lemma traverse_on_larger_table table table' visitors fuel :
  extends table' table →
  ∀ n p pp k i,
    agrees_on (λ _ r, r = Ok tt)
      (traverse table fuel n visitors p pp k i)
      (traverse table' fuel n visitors p pp k i).
Proof.
  intros Hext. induction fuel as [|fuel IH]; intros n p pp k i h h' t r.
  { by intros [= <- <- <-]. }
  rewrite !traverse_S.
  destruct (member h n "type") as [ty|e]; [|done]. cbv zeta.
  destruct (Map_get table ty) as [d|] eqn:Hd.
  - destruct (Map_get_extends _ _ _ _ Hext Hd) as (d' & -> & Hv).
    revert h h' t r.
    apply agrees_bind; [apply splits_ok|apply agrees_refl|].
    intros h h' t r. rewrite !bind_definition_some, Hv. revert h h' t r.
    apply agrees_bind; [apply splits_ok| |apply agrees_refl].
    apply agrees_fields; [apply splits_ok|]. intros c key j. apply IH.
  - intros Hrun ->.
    apply bind_ok_inv in Hrun as (h1 & t1 & [] & t2 & _ & Hf & _).
    by rewrite bind_definition_none in Hf.
Qed.

(** X9. A walk that ends normally under a table ends in the same way, with
    the same store and the same visits, under every table that has the
    entries of the first with the same fields; a marker such as [isBlock]
    and entries for further types make no difference. *)
Theorem walk_on_larger_table table table' visitors fuel ast (h h' : heap) t :
  extends table' table →
  walk table fuel ast visitors h = (h', t, Ok tt) →
  walk table' fuel ast visitors h = (h', t, Ok tt).
Proof.
  intros Hext Hrun.
  by apply (traverse_on_larger_table table table' visitors fuel Hext ast VUndef
              None None None h h' t (Ok tt) Hrun).
Qed.

Lemma visitorKeys_extends : extends visitorKeys astDefinitionsMap.
Proof.
  intros ty d Hd. unfold astDefinitionsMap in Hd. simpl in Hd.
  repeat (apply lookup_insert_Some in Hd as [[<- <-]|[_ Hd]];
          [eexists; split; [vm_compute; reflexivity|reflexivity]|]).
  by rewrite lookup_empty in Hd.
Qed.

Lemma walk_on_larger_table_witness :
  walk visitorKeys 6 (VRef 1) ∅ scenario_F
  = walk astDefinitionsMap 6 (VRef 1) ∅ scenario_F.
Proof.
  rewrite (surjective_pairing (walk astDefinitionsMap 6 (VRef 1) ∅ scenario_F)).
  rewrite (surjective_pairing
             (walk astDefinitionsMap 6 (VRef 1) ∅ scenario_F).1).
  apply (walk_on_larger_table astDefinitionsMap visitorKeys).
  - exact visitorKeys_extends.
  - vm_compute. reflexivity.
Defined.

Lemma traverse_same_hooks table vis1 vis2 fuel :
  ∀ n p pp k i,
    agrees_on (λ t _, same_hooks_on vis1 vis2 t)
      (traverse table fuel n vis1 p pp k i)
      (traverse table fuel n vis2 p pp k i).
Proof.
  induction fuel as [|fuel IH]; intros n p pp k i h h' t r; [done|].
  rewrite !traverse_S.
  destruct (member h n "type") as [ty|e]; [|done]. cbv zeta.
  intros Hrun Hsame.
  assert (visitors_get vis1 ty = visitors_get vis2 ty) as Hty.
  { apply bind_inv in Hrun
      as [(h1 & t1 & [] & t2 & Hc & _ & ->)|[[Hc _]|(e & Hc & _)]];
      apply call_inv in Hc as (hk & -> & _);
      by apply Forall_cons in Hsame as [[_ Hhd] _]. }
  revert h h' t r Hrun Hsame. rewrite <- Hty.
  apply agrees_bind; [apply splits_same_hooks|apply agrees_refl|].
  intros h h' t r. destruct (Map_get table ty) as [d|]; [|done].
  rewrite !bind_definition_some. revert h h' t r.
  apply agrees_bind; [apply splits_same_hooks| |apply agrees_refl].
  apply agrees_fields; [apply splits_same_hooks|]. intros c key j. apply IH.
Qed.

(** X10. A walk consults its visitor map only under the types of the nodes
    it visits. When each of those types is a string under which the map
    holds an entry, or a string that names no inherited member either, a
    second map that holds the same as the first under each of them gives
    the same walk, whatever it holds under other names. *)
Theorem hooks_of_other_types table vis1 vis2 fuel ast (h h' : heap) t r :
  walk table fuel ast vis1 h = (h', t, r) →
  same_hooks_on vis1 vis2 t →
  walk table fuel ast vis2 h = (h', t, r).
Proof.
  intros Hrun Hsame.
  by apply (traverse_same_hooks table vis1 vis2 fuel ast VUndef None None None
              h h' t r Hrun).
Qed.

Lemma hooks_of_other_types_witness :
  walk table_B 3 (VRef 1)
    (<[ "Identifier" := VFunction (calling remove) ]> visitors_B) scenario_B
  = walk table_B 3 (VRef 1) visitors_B scenario_B.
Proof.
  rewrite (surjective_pairing (walk table_B 3 (VRef 1) visitors_B scenario_B)).
  rewrite (surjective_pairing
             (walk table_B 3 (VRef 1) visitors_B scenario_B).1).
  apply (hooks_of_other_types table_B visitors_B).
  - vm_compute. reflexivity.
  - unfold same_hooks_on. simpl.
    repeat (apply Forall_cons; split;
            [split;
             [eexists; split; [reflexivity|];
              intros _; apply (bool_decide_unpack _); vm_compute; exact I
             |vm_compute; reflexivity]|]).
    apply Forall_nil_2.
Defined.

(** * The parser extension and the validators *)

(** ** Literals *)

Lemma parseLiteral_run (h : heap) l o :
  h !! l = Some o →
  parseLiteral (VRef l) h
  = match default VUndef (props o !! "value") with
    | VNum _ =>
        (<[l := Obj (<["type" := VStr "NumericLiteral"]> (props o)) (elems o)]> h,
         Done (VRef l))
    | VStr _ =>
        (<[l := Obj (<["type" := VStr "StringLiteral"]> (props o)) (elems o)]> h,
         Done (VRef l))
    | _ => (h, Done (VRef l))
    end.
Proof.
  intros Hl. unfold parseLiteral. simpl. rewrite Hl.
  by destruct (default VUndef (props o !! "value")).
Qed.

Lemma parseLiteral_type (h : heap) l o :
  h !! l = Some o →
  ∃ h',
    parseLiteral (VRef l) h = (h', Done (VRef l))
    ∧ member h' (VRef l) "type"
      = Done match default VUndef (props o !! "value") with
             | VNum _ => VStr "NumericLiteral"
             | VStr _ => VStr "StringLiteral"
             | _ => default VUndef (props o !! "type")
             end.
Proof.
  intros Hl. rewrite (parseLiteral_run h l o Hl).
  destruct (default VUndef (props o !! "value")) as [| | | z|s| ];
    try (exists h; split; [done|]; simpl; by rewrite Hl);
    (eexists; split; [done|]; apply member_after_set).
Qed.

(** X11. Applied to a node object, [parseLiteral] returns that node, having
    set its [type] to [NumericLiteral] when its [value] is a number and to
    [StringLiteral] when it is a string; for every other value (a boolean,
    [null], a regular expression) the type stays as the parser gave it.
    No other member of the node and no other object changes, and a second
    application changes nothing more. *)
Theorem parseLiteral_retags (h : heap) l o :
  h !! l = Some o →
  ∃ h',
    parseLiteral (VRef l) h = (h', Done (VRef l))
    ∧ member h' (VRef l) "type"
      = Done match default VUndef (props o !! "value") with
             | VNum _ => VStr "NumericLiteral"
             | VStr _ => VStr "StringLiteral"
             | _ => default VUndef (props o !! "type")
             end
    ∧ (∀ k, k ≠ "type" → member h' (VRef l) k = member h (VRef l) k)
    ∧ as_array h' (VRef l) = as_array h (VRef l)
    ∧ (∀ l', l' ≠ l → h' !! l' = h !! l')
    ∧ parseLiteral (VRef l) h' = (h', Done (VRef l)).
Proof.
  intros Hl. rewrite (parseLiteral_run h l o Hl).
  assert (∀ x,
    let h' := <[l := Obj (<["type" := x]> (props o)) (elems o)]> h in
    member h' (VRef l) "type" = Done x
    ∧ (∀ k, k ≠ "type" → member h' (VRef l) k = member h (VRef l) k)
    ∧ as_array h' (VRef l) = as_array h (VRef l)
    ∧ (∀ l', l' ≠ l → h' !! l' = h !! l')) as Hset.
  { intros x h'. split; [apply member_after_set|]. split; [|split].
    - intros k Hk. unfold h'. simpl. rewrite lookup_insert_eq, Hl. simpl.
      by rewrite lookup_insert_ne.
    - unfold h'. simpl. by rewrite lookup_insert_eq, Hl.
    - intros l' Hl'. unfold h'. by rewrite lookup_insert_ne. }
  destruct (default VUndef (props o !! "value")) as [| | | z|s| ] eqn:Hv;
    try (exists h; rewrite (parseLiteral_run h l o Hl), Hv; simpl; rewrite Hl;
         done).
  - eexists. split; [done|]. destruct (Hset (VStr "NumericLiteral"))
      as (Hty & Hk & Harr & Hl'). split; [done|]. split; [done|].
    split; [done|]. split; [done|].
    erewrite parseLiteral_run by apply lookup_insert_eq. simpl.
    rewrite lookup_insert_ne by done. rewrite Hv.
    by rewrite !insert_insert_eq.
  - eexists. split; [done|]. destruct (Hset (VStr "StringLiteral"))
      as (Hty & Hk & Harr & Hl'). split; [done|]. split; [done|].
    split; [done|]. split; [done|].
    erewrite parseLiteral_run by apply lookup_insert_eq. simpl.
    rewrite lookup_insert_ne by done. rewrite Hv.
    by rewrite !insert_insert_eq.
Qed.

Lemma parseLiteral_retags_witness :
  ∃ h',
    parseLiteral (VRef 1)
      {[ 1%positive := plain [("type", VStr "Literal"); ("value", VStr "a")] ]}
    = (h', Done (VRef 1))
    ∧ member h' (VRef 1) "type" = Done (VStr "StringLiteral").
Proof.
  destruct (parseLiteral_retags
              {[ 1%positive :=
                   plain [("type", VStr "Literal"); ("value", VStr "a")] ]}
              1%positive
              (plain [("type", VStr "Literal"); ("value", VStr "a")]))
    as (h' & Hrun & Hty & _); [reflexivity|].
  exists h'. split; [exact Hrun|exact Hty].
Defined.

(** X12. Of the literals the extended parser produces, the tables know the
    numbers only. After [parseLiteral] has seen a node the parser tagged
    [Literal], a walk from that node ends normally, with one enter and one
    exit visit, when the value is a number; for a string, and for every
    other value, no walk from it ends normally, whatever the visitor
    map. *)
Theorem only_numbers_are_walkable table (h : heap) l o fuel :
  table = astDefinitionsMap ∨ table = visitorKeys →
  h !! l = Some o →
  props o !! "type" = Some (VStr "Literal") →
  let h' := (parseLiteral (VRef l) h).1 in
  match default VUndef (props o !! "value") with
  | VNum _ =>
      walk table (S fuel) (VRef l) ∅ h'
      = (h',
         [Ev Enter (VStr "NumericLiteral") (root_path (VRef l)) None;
          Ev Exit (VStr "NumericLiteral") (root_path (VRef l)) None],
         Ok tt)
  | _ => ∀ visitors, (walk table (S fuel) (VRef l) visitors h').2 ≠ Ok tt
  end.
Proof.
  intros Htable Hl Hty h'.
  destruct (parseLiteral_type h l o Hl) as (h1 & Hrun & Hty1).
  assert (h' = h1) as -> by (unfold h'; by rewrite Hrun).
  rewrite Hty in Hty1.
  assert (∀ ty visitors,
    member h1 (VRef l) "type" = Done (VStr ty) →
    table !! ty = None →
    (walk table (S fuel) (VRef l) visitors h1).2 ≠ Ok tt) as Hunknown.
  { intros ty visitors Hm Hnone. unfold walk. rewrite traverse_S, Hm.
    cbv zeta. simpl Map_get. rewrite Hnone.
    destruct (bind _ _ h1) as [[h2 t] r] eqn:Hb. simpl. intros ->.
    apply bind_ok_inv in Hb as (h3 & t1 & [] & t2 & _ & Hf & _).
    by rewrite bind_definition_none in Hf. }
  destruct (default VUndef (props o !! "value")) as [| | | z|s| ];
    cbn [from_option id] in Hty1;
    try (intros visitors;
         apply (Hunknown _ visitors Hty1);
         destruct Htable as [-> | ->]; vm_compute; reflexivity).
  unfold walk. rewrite traverse_S, Hty1. cbv zeta. simpl visitors_get.
  rewrite lookup_empty. simpl normalise.
  destruct Htable as [-> | ->]; reflexivity.
Qed.

Lemma only_numbers_are_walkable_witness :
  walk astDefinitionsMap 1 (VRef 1) ∅
    (parseLiteral (VRef 1)
       {[ 1%positive := plain [("type", VStr "Literal"); ("value", VNum 1)] ]}).1
  = ((parseLiteral (VRef 1)
        {[ 1%positive :=
             plain [("type", VStr "Literal"); ("value", VNum 1)] ]}).1,
     [Ev Enter (VStr "NumericLiteral") (root_path (VRef 1)) None;
      Ev Exit (VStr "NumericLiteral") (root_path (VRef 1)) None],
     Ok tt).
Proof.
  exact (only_numbers_are_walkable astDefinitionsMap
           {[ 1%positive :=
                plain [("type", VStr "Literal"); ("value", VNum 1)] ]}
           1%positive
           (plain [("type", VStr "Literal"); ("value", VNum 1)]) 0
           (or_introl eq_refl) eq_refl eq_refl).
Defined.

(** ** Validators *)

Lemma validations_of_inv names :
  ∀ (acc : gmap string (value → heap → result bool)) k f,
    foldl (λ validations name, <["is" +:+ name := is_type name]> validations)
      acc names !! k = Some f →
    (∃ name, name ∈ names ∧ k = "is" +:+ name ∧ f = is_type name)
    ∨ acc !! k = Some f.
Proof.
  induction names as [|a names IH]; intros acc k f; simpl; [by right|].
  intros Hk. apply IH in Hk as [(name & Hin & -> & ->)|Hk].
  - left. exists name. split; [by apply elem_of_cons; right|done].
  - apply lookup_insert_Some in Hk as [[<- <-]|[_ Hk]]; [|by right].
    left. exists a. split; [by apply elem_of_cons; left|done].
Qed.

Lemma validations_of_elem names :
  ∀ (acc : gmap string (value → heap → result bool)) name,
    name ∈ names ∨ acc !! ("is" +:+ name) = Some (is_type name) →
    foldl (λ validations name, <["is" +:+ name := is_type name]> validations)
      acc names !! ("is" +:+ name) = Some (is_type name).
Proof.
  induction names as [|a names IH]; intros acc name; simpl.
  - intros [Hin|Hacc]; [by apply elem_of_nil in Hin|done].
  - intros Hname. apply IH.
    destruct (decide (name = a)) as [->|Hne].
    + right. apply lookup_insert_eq.
    + destruct Hname as [Hin|Hacc].
      * apply elem_of_cons in Hin as [?|Hin]; [done|by left].
      * right. rewrite lookup_insert_ne; [done|].
        intros Heq. cbn in Heq. by simplify_eq.
Qed.

Lemma visitorKeys_keys_spec name :
  name ∈ visitorKeys_keys ↔ is_Some (visitorKeys !! name).
Proof.
  split.
  - intros Hin. unfold visitorKeys_keys in Hin.
    repeat (apply elem_of_cons in Hin as [->|Hin];
            [exact (mk_is_Some _ _ eq_refl)|]).
    by apply elem_of_nil in Hin.
  - intros [d Hd]. unfold visitorKeys in Hd. simpl in Hd.
    repeat (apply lookup_insert_Some in Hd as [[<- _]|[_ Hd]];
            [unfold visitorKeys_keys; set_solver|]).
    by rewrite lookup_empty in Hd.
Qed.

(** X13. The exported validators are one per type of the table, under the
    name of the type with [is] in front. Applied to a node whose type is a
    string, the validator of a name returns [true] when the name is that of
    the node's type and [false] otherwise, so a node satisfies at most one
    of them, and exactly one when the table has its type. *)
Theorem validations_by_type (h : heap) node ty :
  member h node "type" = Done (VStr ty) →
  (∀ k f, validations !! k = Some f →
          f node h = Done (bool_decide (k = "is" +:+ ty)))
  ∧ (is_Some (validations !! ("is" +:+ ty)) ↔ is_Some (visitorKeys !! ty)).
Proof.
  intros Hty. split.
  - intros k f Hk. apply validations_of_inv in Hk
      as [(name & _ & -> & ->)|Hk]; [|by rewrite lookup_empty in Hk].
    unfold is_type. rewrite Hty. f_equal. apply bool_decide_ext.
    split; [by intros [= ->]|]. intros Heq. cbn in Heq. by simplify_eq.
  - rewrite <- visitorKeys_keys_spec. split.
    + intros [f Hf]. apply validations_of_inv in Hf
        as [(name & Hin & Hname & _)|Hf]; [|by rewrite lookup_empty in Hf].
      cbn in Hname. by simplify_eq.
    + intros Hin. eexists. apply validations_of_elem. by left.
Qed.

Lemma validations_by_type_witness :
  is_type "Program" (VRef 6) scenario_F = Done false
  ∧ is_Some (validations !! "isIdentifier").
Proof.
  destruct (validations_by_type scenario_F (VRef 6) "Identifier" eq_refl)
    as [Hall Hsome].
  split.
  - exact (Hall "isProgram" (is_type "Program") eq_refl).
  - apply Hsome. exact (mk_is_Some _ _ eq_refl).
Defined.

(** X14. A validator reads the [type] of what it is given: on [undefined]
    or [null] it throws the [TypeError] of that read, and on a node whose
    [type] is not a string every validator returns [false]. *)
Theorem validations_on_other_values (h : heap) node k f :
  validations !! k = Some f →
  match member h node "type" with
  | Fail e => f node h = Fail e
  | Done (VStr _) => True
  | Done _ => f node h = Done false
  end.
Proof.
  intros Hk. apply validations_of_inv in Hk
    as [(name & _ & -> & ->)|Hk]; [|by rewrite lookup_empty in Hk].
  unfold is_type. by destruct (member h node "type") as [[]|].
Qed.

Lemma validations_on_other_values_witness :
  is_type "Program" VNull scenario_F = Fail (TypeError_read VNull "type").
Proof.
  apply (validations_on_other_values scenario_F VNull "isProgram"
           (is_type "Program")).
  reflexivity.
Defined.

(** * The earlier walkers *)

(** ** One walk seen through another *)

Section Mirrors.

Variable g : list event → list event.
Hypothesis g_nil : g [] = [].
Hypothesis g_app : ∀ t1 t2, g (t1 ++ t2) = g t1 ++ g t2.

Lemma mirrors_ret : mirrors g (ret tt) (ret tt).
Proof. intros h. simpl. by rewrite g_nil. Qed.

Lemma mirrors_out_of_fuel : mirrors g out_of_fuel out_of_fuel.
Proof. intros h. simpl. by rewrite g_nil. Qed.

Lemma mirrors_bind (m1 m2 : M unit) (f1 f2 : unit → M unit) :
  mirrors g m1 m2 → mirrors g (f1 tt) (f2 tt) →
  mirrors g (bind m1 f1) (bind m2 f2).
Proof.
  intros Hm Hf h. unfold bind. rewrite Hm.
  destruct (m2 h) as [[h1 t1] [[]|e|]]; simpl; [|done|done].
  rewrite Hf. destruct (f2 tt h1) as [[h2 t2] r2]. simpl.
  by rewrite g_app.
Qed.

Lemma mirrors_read {A} (r : heap → result A) (f1 f2 : A → M unit) :
  (∀ a, mirrors g (f1 a) (f2 a)) →
  mirrors g (bind (read r) f1) (bind (read r) f2).
Proof.
  intros Hf h. unfold bind, read.
  destruct (r h) as [a|e]; simpl; [|by rewrite g_nil].
  rewrite Hf. by destruct (f2 a h) as [[h2 t2] r2].
Qed.

Lemma mirrors_definition d (f1 f2 : option (list string) → M unit) :
  (∀ fields, mirrors g (f1 fields) (f2 fields)) →
  mirrors g (bind (definition_visitor d) f1) (bind (definition_visitor d) f2).
Proof.
  intros Hf h. unfold bind, definition_visitor.
  destruct d as [d|]; simpl; [|by rewrite g_nil].
  rewrite Hf. by destruct (f2 (visitor d) h) as [[h2 t2] r2].
Qed.

Lemma mirrors_forEach {A} (f1 f2 : A → M unit) l :
  (∀ a, mirrors g (f1 a) (f2 a)) →
  mirrors g (forEach f1 l) (forEach f2 l).
Proof.
  intros Hf. induction l as [|a l IH]; simpl.
  - apply mirrors_ret.
  - by apply mirrors_bind.
Qed.

Lemma mirrors_forEach_array prop (f1 f2 : value → nat → M unit) :
  (∀ v k, mirrors g (f1 v k) (f2 v k)) →
  mirrors g (forEach_array prop f1) (forEach_array prop f2).
Proof.
  intros Hf h. unfold forEach_array.
  destruct (as_array h prop) as [es|]; [|simpl; by rewrite g_nil].
  apply mirrors_forEach. intros k h1. unfold forEach_step.
  destruct (as_array h1 prop) as [es1|]; [|simpl; by rewrite g_nil].
  destruct (es1 !! k) as [v|]; [|simpl; by rewrite g_nil]. apply Hf.
Qed.

Lemma mirrors_fields {A} (f1 f2 : A → M unit) (fields : option (list A)) :
  (∀ a, mirrors g (f1 a) (f2 a)) →
  mirrors g
    (match fields with Some keys => forEach f1 keys | None => ret tt end)
    (match fields with Some keys => forEach f2 keys | None => ret tt end).
Proof.
  intros Hf. destruct fields as [keys|]; [|apply mirrors_ret].
  by apply mirrors_forEach.
Qed.

End Mirrors.

Lemma traverse_unfold table visitors fuel n p pp k i :
  traverse table (S fuel) n visitors p pp k i
  = (let* ty := read (λ h, member h n "type") in
     call Enter ty (mkNodePath n p pp k i)
       (enter (normalise (visitors_get visitors ty))) ;;
     let* fields := definition_visitor (Map_get table ty) in
     match fields with
     | Some keys =>
         forEach
           (visit_field (λ n p pp k i, traverse table fuel n visitors p pp k i)
              n (mkNodePath n p pp k i))
           keys
     | None => ret tt
     end ;;
     call Exit ty (mkNodePath n p pp k i)
       (exit (normalise (visitors_get visitors ty)))).
Proof. reflexivity. Qed.

(** ** The walker that hands nodes to its hooks *)

Lemma nodes_only_app t1 t2 :
  nodes_only (t1 ++ t2) = nodes_only t1 ++ nodes_only t2.
Proof. apply fmap_app. Qed.

Section WithoutPaths.

Variable table : gmap string definition.

Lemma without_paths_visit_field rec1 rec2 n path k :
  (∀ c p pp k i, mirrors nodes_only (rec1 c) (rec2 c p pp k i)) →
  mirrors nodes_only
    (Part004.visit_field rec1 n k) (visit_field rec2 n path k).
Proof.
  intros Hrec. unfold Part004.visit_field, visit_field.
  apply mirrors_read; [done|]. intros prop h.
  destruct (isArray h prop); [|apply Hrec].
  apply mirrors_forEach_array; [done|apply nodes_only_app|].
  intros v j. apply Hrec.
Qed.

Lemma without_paths_call ph ty path f :
  mirrors nodes_only (Part004.call ph ty (node path) f)
    (call ph ty path (on_node <$> f)).
Proof.
  intros h. unfold Part004.call, call, on_node. destruct f as [f|]; simpl.
  - by destruct (f (node path) h) as [h' [v|e]].
  - done.
Qed.

Lemma normalise_on_nodes visitors ty :
  enter (normalise (visitors_get (on_nodes <$> visitors) ty))
  = on_node <$> Part004.enter
                  (Part004.normalise (Part004.visitors_get visitors ty))
  ∧ exit (normalise (visitors_get (on_nodes <$> visitors) ty))
    = on_node <$> Part004.exit
                    (Part004.normalise (Part004.visitors_get visitors ty)).
Proof.
  destruct ty as [| | | |s|]; try done. simpl. rewrite lookup_fmap.
  by destruct (visitors !! s) as [[f|o]|].
Qed.

Lemma without_paths_traverse visitors fuel :
  ∀ n p pp k i,
    mirrors nodes_only (Part004.traverse table fuel n visitors)
      (traverse table fuel n (on_nodes <$> visitors) p pp k i).
Proof.
  induction fuel as [|fuel IH]; intros n p pp k i; [done|].
  rewrite traverse_unfold.
  change (Part004.traverse table (S fuel) n visitors) with
    (let* ty := read (λ h, member h n "type") in
     Part004.call Enter ty n
       (Part004.enter (Part004.normalise (Part004.visitors_get visitors ty))) ;;
     let* fields := definition_visitor (Map_get table ty) in
     match fields with
     | Some keys =>
         forEach
           (Part004.visit_field (λ n, Part004.traverse table fuel n visitors) n)
           keys
     | None => ret tt
     end ;;
     Part004.call Exit ty n
       (Part004.exit (Part004.normalise (Part004.visitors_get visitors ty)))).
  apply mirrors_read; [done|]. intros ty.
  destruct (normalise_on_nodes visitors ty) as [-> ->].
  apply mirrors_bind; [apply nodes_only_app| |].
  { apply (without_paths_call Enter ty (mkNodePath n p pp k i)). }
  apply mirrors_definition; [done|]. intros fields.
  apply mirrors_bind; [apply nodes_only_app| |].
  2: { apply (without_paths_call Exit ty (mkNodePath n p pp k i)). }
  apply mirrors_fields; [done|apply nodes_only_app|]. intros key.
  apply without_paths_visit_field. intros c p' pp' k' i'. apply IH.
Qed.

End WithoutPaths.

(** X15. Giving [traverse] paths changed nothing for hooks that use the
    node only: the walker whose hooks take the node does what the walker
    with paths does when each hook is applied to the node of the path. The
    two leave the same store, end in the same way, and visit the same nodes
    in the same order with the same results of the hooks. *)
Theorem walker_with_nodes table visitors fuel n p pp k i (h : heap) :
  Part004.traverse table fuel n visitors h
  = ((traverse table fuel n (on_nodes <$> visitors) p pp k i h).1.1,
     nodes_only (traverse table fuel n (on_nodes <$> visitors) p pp k i h).1.2,
     (traverse table fuel n (on_nodes <$> visitors) p pp k i h).2).
Proof. apply without_paths_traverse. Qed.

Lemma visited_nodes_only ph t : visited ph (nodes_only t) = visited ph t.
Proof.
  induction t as [|e t IH]; [done|].
  change (nodes_only (e :: t))
    with (Ev (ev_phase e) (ev_type e) (root_path (node (ev_path e))) (ev_hook e)
            :: nodes_only t).
  rewrite !visited_cons. simpl. by rewrite IH.
Qed.

(** X16. Without hooks, on a tree whose nodes and sequences are all there
    and all of types the table knows, the walker that hands nodes to its
    hooks ends normally and leaves the store as it was; it enters the nodes
    parents first, fields in the order of the table and elements in the
    order of their sequence, and enters and leaves each node once when no
    node occurs twice. *)
Theorem walker_with_nodes_without_hooks table (h : heap) ast ns :
  closure table h ast ns →
  NoDup ns →
  ∃ t, (∃ f0, ∀ fuel, f0 ≤ fuel →
               Part004.traverse table fuel ast ∅ h = (h, t, Ok tt))
       ∧ visited Enter t = ns
       ∧ (∀ n, visits Enter n t = (if decide (n ∈ ns) then 1 else 0)
               ∧ visits Exit n t = (if decide (n ∈ ns) then 1 else 0))
       ∧ Forall (λ e, ev_hook e = None) t.
Proof.
  intros Hc Hnd.
  destruct (proj1 (quiet_closure table h) ast ns Hc VUndef None None None)
    as (t & [f0 Hrun] & Hin & Hout & Hno).
  exists (nodes_only t). split; [|split; [|split]].
  - exists f0. intros fuel Hfuel.
    rewrite (without_paths_traverse table ∅ fuel ast VUndef None None None h).
    rewrite fmap_empty. unfold traverse_without_hooks in Hrun.
    by rewrite (Hrun fuel Hfuel).
  - by rewrite visited_nodes_only.
  - intros n. rewrite !visits_visited, !visited_nodes_only, Hin. split.
    + by apply filter_eq_NoDup.
    + rewrite Hout. by apply filter_eq_NoDup.
  - unfold nodes_only. apply Forall_fmap. by apply (Forall_impl _ _ _ Hno).
Qed.

Lemma walker_with_nodes_without_hooks_witness :
  ∃ t, (∃ f0, ∀ fuel, f0 ≤ fuel →
               Part004.traverse astDefinitionsMap fuel (VRef 1) ∅ scenario_F
               = (scenario_F, t, Ok tt))
       ∧ visited Enter t
         = [VRef 1; VRef 3; VRef 5; VRef 6; VRef 7].
Proof.
  destruct (walker_with_nodes_without_hooks astDefinitionsMap scenario_F
              (VRef 1) [VRef 1; VRef 3; VRef 5; VRef 6; VRef 7])
    as (t & Hrun & Hin & _).
  - exact scenario_F_closure.
  - apply (bool_decide_unpack
             (NoDup [VRef 1; VRef 3; VRef 5; VRef 6; VRef 7])).
    vm_compute. exact I.
  - exists t. split; [exact Hrun|exact Hin].
Defined.

(** ** The walker whose paths have no key *)

Lemma short_paths_app t1 t2 :
  short_paths (t1 ++ t2) = short_paths t1 ++ short_paths t2.
Proof. apply fmap_app. Qed.

Lemma short_unfold n p pp k i :
  short (mkNodePath n p pp k i) = mkNodePath n p (short <$> pp) None None.
Proof. by destruct pp. Qed.

Section WithoutKeys.

Variable table : gmap string definition.

Lemma without_keys_visit_field rec1 rec2 n path k :
  (∀ c k i, mirrors short_paths (rec1 c n (Some (short path)))
                                (rec2 c n (Some path) k i)) →
  mirrors short_paths
    (Part005.visit_field rec1 n (short path) k) (visit_field rec2 n path k).
Proof.
  intros Hrec. unfold Part005.visit_field, visit_field.
  apply mirrors_read; [done|]. intros prop h.
  destruct (isArray h prop); [|apply Hrec].
  apply mirrors_forEach_array; [done|apply short_paths_app|].
  intros v j. apply Hrec.
Qed.

Lemma without_keys_call ph ty path f :
  mirrors short_paths (call ph ty (short path) f)
    (call ph ty path (on_short <$> f)).
Proof.
  intros h. unfold call, on_short. destruct f as [f|]; simpl.
  - by destruct (f (short path) h) as [h' [v|e]].
  - done.
Qed.

Lemma normalise_on_shorts visitors ty :
  enter (normalise (visitors_get (on_shorts <$> visitors) ty))
  = on_short <$> enter (normalise (visitors_get visitors ty))
  ∧ exit (normalise (visitors_get (on_shorts <$> visitors) ty))
    = on_short <$> exit (normalise (visitors_get visitors ty)).
Proof.
  destruct ty as [| | | |s|]; try done. simpl. rewrite lookup_fmap.
  by destruct (visitors !! s) as [[f|o]|].
Qed.

Lemma without_keys_traverse visitors fuel :
  ∀ n p pp k i,
    mirrors short_paths
      (Part005.traverse table fuel n visitors p (short <$> pp))
      (traverse table fuel n (on_shorts <$> visitors) p pp k i).
Proof.
  induction fuel as [|fuel IH]; intros n p pp k i; [done|].
  rewrite traverse_unfold.
  change (Part005.traverse table (S fuel) n visitors p (short <$> pp)) with
    (let* ty := read (λ h, member h n "type") in
     call Enter ty (mkNodePath n p (short <$> pp) None None)
       (enter (normalise (visitors_get visitors ty))) ;;
     let* fields := definition_visitor (Map_get table ty) in
     match fields with
     | Some keys =>
         forEach
           (Part005.visit_field
              (λ n p pp, Part005.traverse table fuel n visitors p pp)
              n (mkNodePath n p (short <$> pp) None None))
           keys
     | None => ret tt
     end ;;
     call Exit ty (mkNodePath n p (short <$> pp) None None)
       (exit (normalise (visitors_get visitors ty)))).
  rewrite <- (short_unfold n p pp k i).
  apply mirrors_read; [done|]. intros ty.
  destruct (normalise_on_shorts visitors ty) as [-> ->].
  apply mirrors_bind; [apply short_paths_app|apply without_keys_call|].
  apply mirrors_definition; [done|]. intros fields.
  apply mirrors_bind; [apply short_paths_app| |apply without_keys_call].
  apply mirrors_fields; [done|apply short_paths_app|]. intros key.
  apply without_keys_visit_field. intros c k' i'.
  apply (IH c n (Some (mkNodePath n p pp k i)) k' i').
Qed.

End WithoutKeys.

(** X17. The [key] and [listKey] that [traverse] now passes on change
    nothing for hooks that do not read them: the walker whose paths have a
    node, a parent and a parent path only does what the walker of today does
    when each hook is given the path without its keys. The two leave the
    same store, end in the same way, and make the same visits in the same
    order. *)
Theorem walker_without_keys table visitors fuel n p pp k i (h : heap) :
  Part005.traverse table fuel n visitors p (short <$> pp) h
  = ((traverse table fuel n (on_shorts <$> visitors) p pp k i h).1.1,
     short_paths
       (traverse table fuel n (on_shorts <$> visitors) p pp k i h).1.2,
     (traverse table fuel n (on_shorts <$> visitors) p pp k i h).2).
Proof. apply without_keys_traverse. Qed.

Lemma below_short_ancestors ast p :
  below (root_path ast) p →
  last (short p :: ancestors (short p)) = Some (root_path ast)
  ∧ Forall (λ q, match parentPath q with
                 | Some pp => parent q = node pp
                 | None => q = root_path ast
                 end) (short p :: ancestors (short p)).
Proof.
  remember (root_path ast) as root eqn:Hroot.
  induction 1 as [|pp n k i Hpp [IHlast IHall]].
  - subst root. simpl. split; [done|]. by apply Forall_singleton.
  - rewrite short_unfold.
    change (ancestors (mkNodePath n (node pp) (short <$> Some pp) None None))
      with (short pp :: ancestors (short pp)).
    split; [by rewrite last_cons, IHlast|].
    apply Forall_cons. split; [|done]. simpl. by destruct pp.
Qed.

(** X18. In a walk of the walker whose paths have no key, the loop
    [while (curPath) { ...; curPath = curPath.parentPath }] of a hook goes
    from the path of the visit up to the path of the node the walk started
    from and stops there, and at each step the [parent] is the node of the
    [parentPath]. *)
Theorem ancestors_end_at_root table visitors fuel ast (h : heap) e :
  e ∈ (Part005.traverse table fuel ast visitors VUndef None h).1.2 →
  last (ev_path e :: ancestors (ev_path e)) = Some (root_path ast)
  ∧ Forall (λ q, match parentPath q with
                 | Some pp => parent q = node pp
                 | None => q = root_path ast
                 end) (ev_path e :: ancestors (ev_path e)).
Proof.
  pose proof (without_keys_traverse table visitors fuel ast VUndef None None
                None h) as Hrun.
  change (short <$> None) with (@None NodePath) in Hrun. rewrite Hrun.
  simpl. unfold short_paths. intros (e' & -> & He')%list_elem_of_fmap. simpl.
  apply below_short_ancestors.
  destruct (keeps_traverse table (on_shorts <$> visitors) (λ _, True)
              (below (root_path ast))
              (λ e, below (root_path ast) (ev_path e)))
    with (fuel := fuel) (n := ast) (p := VUndef) (pp := @None NodePath)
         (k := @None string) (i := @None nat) (h := h) as [_ Hall];
    try done.
  - intros path n k i. apply below_child.
  - apply below_root.
  - by apply (proj1 (Forall_forall _ _) Hall e').
Qed.

Lemma ancestors_end_at_root_witness :
  last (mkNodePath (VRef 3) (VRef 2) (Some path_D_short) None None
          :: ancestors (mkNodePath (VRef 3) (VRef 2) (Some path_D_short)
                          None None))
  = Some (root_path (VRef 1)).
Proof.
  apply (ancestors_end_at_root visitorKeys ∅ 3 (VRef 1) scenario_D
           (Ev Enter (VStr "Identifier")
              (mkNodePath (VRef 3) (VRef 2) (Some path_D_short) None None)
              None)).
  vm_compute. do 2 (apply elem_of_cons; right). apply elem_of_cons. by left.
Defined.

(** ** The walker that calls functions only *)

Lemma enters_only_app t1 t2 :
  enters_only (t1 ++ t2) = enters_only t1 ++ enters_only t2.
Proof. apply filter_app. Qed.

Lemma mirrors_visit_field_004 g rec1 rec2 n k :
  g [] = [] → (∀ t1 t2, g (t1 ++ t2) = g t1 ++ g t2) →
  (∀ c, mirrors g (rec1 c) (rec2 c)) →
  mirrors g (Part004.visit_field rec1 n k) (Part004.visit_field rec2 n k).
Proof.
  intros Hnil Happ Hrec. unfold Part004.visit_field.
  apply mirrors_read; [done|]. intros prop h.
  destruct (isArray h prop); [|apply Hrec].
  apply mirrors_forEach_array; [done|done|]. intros v j. apply Hrec.
Qed.

Lemma function_entry_functions_only visitors ty :
  Part004.enter
    (Part004.normalise (Part004.visitors_get (functions_only visitors) ty))
  = Test2.function_entry (Part004.visitors_get visitors ty)
  ∧ Part004.exit
      (Part004.normalise (Part004.visitors_get (functions_only visitors) ty))
    = None.
Proof.
  destruct ty as [| | | |s|]; try done. simpl. unfold functions_only.
  rewrite lookup_omap. by destruct (visitors !! s) as [[f|o]|].
Qed.

Lemma enters_only_call ty n f :
  mirrors enters_only (Part004.call Enter ty n f) (Part004.call Enter ty n f).
Proof.
  intros h. unfold Part004.call. destruct f as [f|]; [|done].
  by destruct (f n h) as [h' [v|e]].
Qed.

Lemma enters_only_then_exit (m1 m2 : M unit) ty n :
  mirrors enters_only m1 m2 →
  mirrors enters_only m1 (m2 ;; Part004.call Exit ty n None).
Proof.
  intros Hm h. rewrite Hm. unfold bind.
  destruct (m2 h) as [[h1 t1] [[]|e|]]; simpl; try done.
  rewrite enters_only_app. simpl. by rewrite app_nil_r.
Qed.

Lemma functions_only_traverse table visitors fuel :
  ∀ n,
    mirrors enters_only (Test2.traverse table fuel n visitors)
      (Part004.traverse table fuel n (functions_only visitors)).
Proof.
  induction fuel as [|fuel IH]; intros n; [done|].
  change (Test2.traverse table (S fuel) n visitors) with
    (let* ty := read (λ h, member h n "type") in
     Part004.call Enter ty n
       (Test2.function_entry (Part004.visitors_get visitors ty)) ;;
     let* fields := definition_visitor (Map_get table ty) in
     match fields with
     | Some keys =>
         forEach
           (Part004.visit_field (λ n, Test2.traverse table fuel n visitors) n)
           keys
     | None => ret tt
     end).
  change (Part004.traverse table (S fuel) n (functions_only visitors)) with
    (let* ty := read (λ h, member h n "type") in
     Part004.call Enter ty n
       (Part004.enter
          (Part004.normalise
             (Part004.visitors_get (functions_only visitors) ty))) ;;
     let* fields := definition_visitor (Map_get table ty) in
     match fields with
     | Some keys =>
         forEach
           (Part004.visit_field
              (λ n, Part004.traverse table fuel n (functions_only visitors)) n)
           keys
     | None => ret tt
     end ;;
     Part004.call Exit ty n
       (Part004.exit
          (Part004.normalise
             (Part004.visitors_get (functions_only visitors) ty)))).
  apply mirrors_read; [done|]. intros ty.
  destruct (function_entry_functions_only visitors ty) as [-> ->].
  apply mirrors_bind; [apply enters_only_app|apply enters_only_call|].
  apply mirrors_definition; [done|]. intros fields.
  apply enters_only_then_exit.
  apply mirrors_fields; [done|apply enters_only_app|]. intros key.
  apply mirrors_visit_field_004; [done|apply enters_only_app|]. apply IH.
Qed.

(** X19. The walker of [test2.js] treats an entry of the visitor map that
    is a function as the walker with enter and exit hooks treats it, as an
    enter hook, and an entry that is an object as no entry: it does what
    that walker does with the function entries alone, and its visits are
    the enter visits of that walk, in the same order. *)
Theorem functions_are_enter_hooks table visitors fuel n (h : heap) :
  Test2.traverse table fuel n visitors h
  = ((Part004.traverse table fuel n (functions_only visitors) h).1.1,
     enters_only (Part004.traverse table fuel n (functions_only visitors) h).1.2,
     (Part004.traverse table fuel n (functions_only visitors) h).2).
Proof. apply functions_only_traverse. Qed.

Lemma functions_only_objects (visitors : gmap string Part004.visitor_entry) :
  (∀ ty e, visitors !! ty = Some e → ∃ o, e = Part004.VObject o) →
  functions_only visitors = ∅.
Proof.
  intros Hobj. apply map_empty. intros ty. unfold functions_only.
  rewrite lookup_omap. destruct (visitors !! ty) as [e|] eqn:He; [|done].
  by destruct (Hobj ty e He) as [o ->].
Qed.

Lemma traverse_without_hooks_keeps table fuel n p pp k i (h : heap) :
  (traverse table fuel n ∅ p pp k i h).1.1 = h
  ∧ Forall (λ e, member h (node (ev_path e)) "type" = Done (ev_type e))
      (traverse table fuel n ∅ p pp k i h).1.2.
Proof.
  apply (keeps_traverse table ∅ (λ h', h' = h) (λ _, True)
           (λ e, member h (node (ev_path e)) "type" = Done (ev_type e)));
    try done.
  - intros f [ty Hf]. rewrite lookup_empty in Hf. by destruct Hf.
  - by intros h' path ty ph hk -> _ Hty.
Qed.

(** X20. With a visitor map whose entries are all objects, as the map of
    its own run is, the walker of [test2.js] calls nothing: it does what it
    does with an empty map, and it leaves the store as it was. *)
Theorem objects_are_never_called table visitors fuel n (h : heap) :
  (∀ ty e, visitors !! ty = Some e → ∃ o, e = Part004.VObject o) →
  Test2.traverse table fuel n visitors h = Test2.traverse table fuel n ∅ h
  ∧ (Test2.traverse table fuel n visitors h).1.1 = h.
Proof.
  intros Hobj.
  rewrite !(functions_only_traverse table _ fuel n h).
  rewrite (functions_only_objects visitors Hobj).
  rewrite (functions_only_objects ∅) by (intros ty e; by rewrite lookup_empty).
  split; [done|]. simpl.
  rewrite (without_paths_traverse table ∅ fuel n VUndef None None None h).
  rewrite fmap_empty. simpl. apply traverse_without_hooks_keeps.
Qed.

Lemma objects_are_never_called_witness :
  (Test2.traverse astDefinitionsMap 6 (VRef 1)
     {[ "Identifier" :=
          Part004.VObject
            (Part004.VisitorFuncs
               (Some (λ n h, (h, Done VUndef)))
               (Some (λ n h, ((set_member h n "name" (VStr "b")).1,
                              Done VUndef)))) ]}
     scenario_F).1.1
  = scenario_F.
Proof.
  apply objects_are_never_called.
  intros ty e He. apply lookup_singleton_Some in He as [_ <-]. eauto.
Defined.

(** ** The walker that prints *)

Lemma printing_traverse table fuel :
  ∀ n, mirrors id (Part003.traverse table fuel n)
         (Test2.traverse table fuel n ∅).
Proof.
  induction fuel as [|fuel IH]; intros n; [done|].
  change (Part003.traverse table (S fuel) n) with
    (let* ty := read (λ h, member h n "type") in
     Part003.log ty n ;;
     let* fields := definition_visitor (Map_get table ty) in
     match fields with
     | Some keys =>
         forEach (Part004.visit_field (Part003.traverse table fuel) n) keys
     | None => ret tt
     end).
  change (Test2.traverse table (S fuel) n ∅) with
    (let* ty := read (λ h, member h n "type") in
     Part004.call Enter ty n
       (Test2.function_entry (Part004.visitors_get ∅ ty)) ;;
     let* fields := definition_visitor (Map_get table ty) in
     match fields with
     | Some keys =>
         forEach
           (Part004.visit_field (λ n, Test2.traverse table fuel n ∅) n) keys
     | None => ret tt
     end).
  apply mirrors_read; [done|]. intros ty.
  apply mirrors_bind; [done| |].
  { intros h. by destruct ty. }
  apply mirrors_definition; [done|]. intros fields.
  apply mirrors_fields; [done|done|]. intros key.
  by apply mirrors_visit_field_004.
Qed.

Lemma printed_types (h : heap) t :
  Forall (λ e, member h (node (ev_path e)) "type" = Done (ev_type e)) t →
  Forall2 (λ line n, member h n "type" = Done line)
    (printed (enters_only (nodes_only t))) (visited Enter t).
Proof.
  induction 1 as [|e t He Ht IH]; [constructor|].
  rewrite visited_cons.
  change (nodes_only (e :: t))
    with (Ev (ev_phase e) (ev_type e) (root_path (node (ev_path e))) (ev_hook e)
            :: nodes_only t).
  unfold enters_only. rewrite filter_cons. simpl.
  destruct (decide (ev_phase e = Enter)); [|done].
  by constructor.
Qed.

(** X21. On a tree whose nodes and sequences are all there and all of types
    the table knows, the printing walker ends normally, leaves the store as
    it was, and prints one line for each node of the tree, the type of that
    node, parents first, fields in the order of the table and elements in
    the order of their sequence. *)
Theorem printing_walker table (h : heap) ast ns :
  closure table h ast ns →
  ∃ t, (∃ f0, ∀ fuel, f0 ≤ fuel →
               Part003.traverse table fuel ast h = (h, t, Ok tt))
       ∧ Forall2 (λ line n, member h n "type" = Done line) (printed t) ns.
Proof.
  intros Hc.
  destruct (proj1 (quiet_closure table h) ast ns Hc VUndef None None None)
    as (t & [f0 Hrun] & Hin & _ & _).
  exists (enters_only (nodes_only t)). split.
  - exists f0. intros fuel Hfuel.
    rewrite (printing_traverse table fuel ast h).
    rewrite (functions_only_traverse table ∅ fuel ast h).
    rewrite (functions_only_objects ∅)
      by (intros ty e; by rewrite lookup_empty).
    rewrite (without_paths_traverse table ∅ fuel ast VUndef None None None h).
    rewrite fmap_empty. unfold traverse_without_hooks in Hrun.
    by rewrite (Hrun fuel Hfuel).
  - rewrite <- Hin. apply printed_types.
    destruct (traverse_without_hooks_keeps table f0 ast VUndef None None None h)
      as [_ Hty].
    unfold traverse_without_hooks in Hrun.
    by rewrite (Hrun f0 (le_n f0)) in Hty.
Qed.

Lemma printing_walker_witness :
  ∃ t, (∃ f0, ∀ fuel, f0 ≤ fuel →
               Part003.traverse astDefinitionsMap fuel (VRef 1) scenario_F
               = (scenario_F, t, Ok tt))
       ∧ Forall2 (λ line n, member scenario_F n "type" = Done line)
           (printed t) [VRef 1; VRef 3; VRef 5; VRef 6; VRef 7].
Proof.
  apply (printing_walker astDefinitionsMap scenario_F (VRef 1)).
  exact scenario_F_closure.
Defined.

(** * When the methods of NodePath return *)

Lemma mutation_returns (h : heap) this items x :
  (∃ h',
     and_then
       (match truthy_index (listKey this) with
        | Some i =>
            match member h (parent this) (key_name (key this)) with
            | Done a => splice h a i items
            | Fail e => (h, Fail e)
            end
        | None => (h, Done tt)
        end)
       (λ _ h, set_member h (parent this) (key_name (key this)) x)
     = (h', Done tt))
  ↔ ∃ pl o,
      parent this = VRef pl ∧ h !! pl = Some o
      ∧ (truthy_index (listKey this) = None
         ∨ isArray h (default VUndef (props o !! key_name (key this))) = true).
Proof.
  split.
  - intros [h' Hrun]. apply mutation_inv in Hrun
      as [(e & ? & _)|[(Hi & Hset & _)|(i & a & h1 & Hi & Hm & Hs & Hset & _)]];
      [done| |].
    + destruct (parent this) as [| | | | |pl]; try done. simpl in Hset.
      destruct (h !! pl) as [o|] eqn:Hpl; [|done].
      exists pl, o. by repeat split; [|left].
    + destruct (parent this) as [| | | | |pl]; try done;
        try (injection Hm as <-; done).
      simpl in Hm. destruct (h !! pl) as [o|] eqn:Hpl; [|done].
      injection Hm as <-. exists pl, o. split; [done|]. split; [done|].
      right. unfold isArray. apply bool_decide_eq_true.
      destruct (default VUndef (props o !! key_name (key this)))
        as [| | | | |la]; try done. simpl in Hs |- *.
      destruct (h !! la) as [oa|]; [|done]. simpl.
      by destruct (elems oa).
  - intros (pl & o & Hp & Hpl & Hcase). rewrite Hp.
    destruct (truthy_index (listKey this)) as [i|] eqn:Hi.
    + destruct Hcase as [?|Harr]; [done|]. simpl. rewrite Hpl.
      apply bool_decide_eq_true in Harr as [es Hes].
      destruct (default VUndef (props o !! key_name (key this)))
        as [| | | | |la]; try done. simpl in Hes |- *.
      destruct (h !! la) as [oa|] eqn:Hla; [|done]. simpl in Hes.
      rewrite Hes. simpl.
      destruct (decide (la = pl)) as [->|Hne].
      * rewrite lookup_insert_eq. eauto.
      * rewrite lookup_insert_ne by done. rewrite Hpl. eauto.
    + simpl. rewrite Hpl. eauto.
Qed.

(** X22. [remove] and [replaceWith] return exactly when the parent of the
    path is an object and, if the index of the path is not [0] or absent,
    the slot holds a sequence; in every other case they throw. Whether the
    index lies within the sequence, and what the new node is, plays no
    part. *)
Theorem mutation_returns_iff (this : NodePath) n (h : heap) :
  let returns :=
    ∃ pl o,
      parent this = VRef pl ∧ h !! pl = Some o
      ∧ (truthy_index (listKey this) = None
         ∨ isArray h (default VUndef (props o !! key_name (key this))) = true)
  in
  ((∃ h', remove this h = (h', Done tt)) ↔ returns)
  ∧ ((∃ h', replaceWith this n h = (h', Done tt)) ↔ returns).
Proof. split; apply mutation_returns. Qed.

(** * Hooks that keep the tree *)

Lemma kept_refl table (h : heap) : kept table h h.
Proof. intros l o Hl. by exists o. Qed.

Lemma kept_trans table (h1 h2 h3 : heap) :
  kept table h1 h2 → kept table h2 h3 → kept table h1 h3.
Proof.
  intros H12 H23 l o Hl.
  destruct (H12 l o Hl) as (o2 & Hl2 & He2 & Hp2).
  destruct (H23 l o2 Hl2) as (o3 & Hl3 & He3 & Hp3).
  exists o3. split; [done|]. split; [congruence|].
  intros k Hk. rewrite Hp3, Hp2; done.
Qed.

Lemma kept_member table (h h1 : heap) n k c :
  kept table h h1 → read_by table k →
  member h n k = Done c → member h1 n k = Done c.
Proof.
  intros Hkept Hk. destruct n as [| | | | |l]; try done. simpl.
  destruct (h !! l) as [o|] eqn:Hl; [|done].
  destruct (Hkept l o Hl) as (o' & -> & _ & Hp). by rewrite Hp.
Qed.

Lemma kept_as_array table (h h1 : heap) l o :
  kept table h h1 → h !! l = Some o →
  as_array h1 (VRef l) = as_array h (VRef l).
Proof.
  intros Hkept Hl. simpl. destruct (Hkept l o Hl) as (o' & -> & He & _).
  rewrite Hl. simpl. done.
Qed.

Lemma closure_is_object table (h : heap) v ns :
  closure table h v ns → ∃ l o, v = VRef l ∧ h !! l = Some o.
Proof. destruct 1 as [l o ty d ns Hl _ _ _]. by exists l, o. Qed.

Lemma as_array_is_object (h : heap) c es :
  as_array h c = Some es → ∃ l o, c = VRef l ∧ h !! l = Some o.
Proof.
  destruct c as [| | | | |l]; try done. simpl.
  destruct (h !! l) as [o|] eqn:Hl; [|done]. intros _. by exists l, o.
Qed.

Section Course.

Variable table : gmap string definition.
Variable visitors : gmap string visitor_entry.
Variable h : heap.
Variable post : list value → heap → heap → Prop.

Hypothesis post_nil : ∀ h1, kept table h h1 → post [] h1 h1.
Hypothesis post_app :
  ∀ ns1 ns2 h1 h2 h3,
    kept table h h1 →
    post ns1 h1 h2 → post ns2 h2 h3 → post (ns1 ++ ns2) h1 h3.
Hypothesis post_kept :
  ∀ ns h1 h2, kept table h h1 → post ns h1 h2 → kept table h h2.
Hypothesis post_node :
  ∀ l o ty d ns path h1,
    h !! l = Some o → props o !! "type" = Some (VStr ty) →
    table !! ty = Some d →
    closure_fields table h (VRef l) (default [] (visitor d)) ns →
    node path = VRef l → kept table h h1 →
    ∃ h1' t1,
      call Enter (VStr ty) path (enter (normalise (visitors !! ty))) h1
      = (h1', t1, Ok tt)
      ∧ kept table h h1'
      ∧ ∀ h2, post ns h1' h2 →
          ∃ h3 t2,
            call Exit (VStr ty) path (exit (normalise (visitors !! ty))) h2
            = (h3, t2, Ok tt)
            ∧ post (VRef l :: ns) h1 h3.

Local Abbreviation go :=
  (λ fuel n p pp k i, traverse table fuel n visitors p pp k i).

Lemma course_closure :
  (∀ v ns, closure table h v ns →
     ∀ p pp k i h1, kept table h h1 →
       well_run (λ fuel, go fuel v p pp k i) (post ns) ns h1)
  ∧ (∀ n ks ns, closure_fields table h n ks ns →
     Forall (read_by table) ks →
     ∀ path h1, kept table h h1 →
       well_run (λ fuel, forEach (visit_field (go fuel) n path) ks)
         (post ns) ns h1)
  ∧ (∀ es ns, closure_list table h es ns →
     ∀ c es_all lo n path key h1,
       as_array h c = Some es_all → drop lo es_all = es →
       kept table h h1 →
       well_run
         (λ fuel,
            forEach
              (forEach_step c
                 (λ v idx, go fuel v n (Some path) (Some key) (Some idx)))
              (seq lo (length es)))
         (post ns) ns h1).
Proof.
  apply (conj_closure_mut table h
    (λ v ns, ∀ p pp k i h1, kept table h h1 →
       well_run (λ fuel, go fuel v p pp k i) (post ns) ns h1)
    (λ n ks ns, Forall (read_by table) ks →
       ∀ path h1, kept table h h1 →
         well_run (λ fuel, forEach (visit_field (go fuel) n path) ks)
           (post ns) ns h1)
    (λ es ns, ∀ c es_all lo n path key h1,
       as_array h c = Some es_all → drop lo es_all = es →
       kept table h h1 →
       well_run
         (λ fuel,
            forEach
              (forEach_step c
                 (λ v idx, go fuel v n (Some path) (Some key) (Some idx)))
              (seq lo (length es)))
         (post ns) ns h1)).
  - (* a node *)
    intros l o ty d ns Hl Hty Hd Hcf IH p pp k i h1 Hkept.
    set (path := mkNodePath (VRef l) p pp k i).
    assert (member h1 (VRef l) "type" = Done (VStr ty)) as Hty1.
    { apply (kept_member table h); [done|by left|].
      simpl. by rewrite Hl, Hty. }
    destruct (post_node l o ty d ns path h1 Hl Hty Hd Hcf eq_refl Hkept)
      as (h1' & t1 & Henter & Hkept1 & Hexit).
    assert (Forall (read_by table) (default [] (visitor d))) as Hks.
    { apply Forall_forall. intros key Hkey. right. by exists ty, d. }
    destruct (IH Hks path h1' Hkept1)
      as (tf & h2 & (f0 & Hrun) & Hpost & Hin & Hout).
    destruct (Hexit h2 Hpost) as (h3 & t2 & Hexit2 & Hpost3).
    destruct (call_inv _ _ _ _ _ _ _ _ Henter) as (hk1 & -> & _).
    destruct (call_inv _ _ _ _ _ _ _ _ Hexit2) as (hk2 & -> & _).
    exists ([Ev Enter (VStr ty) path hk1] ++ tf ++ [Ev Exit (VStr ty) path hk2]),
      h3.
    split; [exists (S f0)|split; [done|split]].
    + intros [|fuel] Hfuel; [lia|]. rewrite traverse_S, Hty1. cbv zeta.
      simpl visitors_get. simpl Map_get. fold path.
      unfold bind at 1. rewrite Henter. rewrite Hd.
      rewrite bind_definition_some. unfold bind at 1.
      assert ((match visitor d with
               | Some keys =>
                   forEach (visit_field
                     (λ n p pp k i, traverse table fuel n visitors p pp k i)
                     (VRef l) path) keys
               | None => ret tt
               end) h1' = (h2, tf, Ok tt)) as ->.
      { specialize (Hrun fuel ltac:(lia)).
        destruct (visitor d); exact Hrun. }
      by rewrite Hexit2.
    + simpl. rewrite visited_cons, visited_app, visited_cons, Hin. simpl.
      by rewrite app_nil_r.
    + simpl. rewrite visited_cons. simpl. rewrite visited_app, visited_cons.
      simpl. rewrite Hout. by rewrite Permutation_app_comm.
  - (* no field left *)
    intros n _ path h1 Hkept. exists [], h1.
    split; [by exists 0|]. split; [by apply post_nil|]. by split.
  - (* a field that holds a node *)
    intros n k ks c ns1 ns2 Hm Harr Hc IH1 _ IH2 Hks path h1 Hkept.
    apply Forall_cons in Hks as [Hk Hks].
    destruct (IH1 n (Some path) (Some k) None h1 Hkept)
      as (t1 & h2 & (f1 & Hrun1) & Hpost1 & Hin1 & Hout1).
    pose proof (post_kept _ _ _ Hkept Hpost1) as Hkept2.
    destruct (IH2 Hks path h2 Hkept2)
      as (t2 & h3 & (f2 & Hrun2) & Hpost2 & Hin2 & Hout2).
    exists (t1 ++ t2), h3.
    split; [exists (f1 `max` f2)|split; [by eapply post_app|split]].
    + intros fuel Hfuel. simpl.
      assert (visit_field (go fuel) n path k h1 = (h2, t1, Ok tt)) as Hv.
      { unfold visit_field.
        rewrite (bind_read_done (λ h, member h n k) _ h1 c)
          by by apply (kept_member table h).
        destruct (closure_is_object _ _ _ _ Hc) as (lc & oc & -> & Hlc).
        unfold isArray. rewrite (kept_as_array table h h1 lc oc Hkept Hlc).
        rewrite Harr. rewrite bool_decide_eq_false_2 by by intros [? ?].
        by rewrite Hrun1 by lia. }
      unfold bind. rewrite Hv, Hrun2 by lia. done.
    + by rewrite visited_app, Hin1, Hin2.
    + by rewrite visited_app, Hout1, Hout2.
  - (* a field that holds a sequence *)
    intros n k ks c es ns1 ns2 Hm Harr _ IH1 _ IH2 Hks path h1 Hkept.
    apply Forall_cons in Hks as [Hk Hks].
    destruct (IH1 c es 0 n path k h1 Harr eq_refl Hkept)
      as (t1 & h2 & (f1 & Hrun1) & Hpost1 & Hin1 & Hout1).
    pose proof (post_kept _ _ _ Hkept Hpost1) as Hkept2.
    destruct (IH2 Hks path h2 Hkept2)
      as (t2 & h3 & (f2 & Hrun2) & Hpost2 & Hin2 & Hout2).
    exists (t1 ++ t2), h3.
    split; [exists (f1 `max` f2)|split; [by eapply post_app|split]].
    + intros fuel Hfuel. simpl.
      assert (visit_field (go fuel) n path k h1 = (h2, t1, Ok tt)) as Hv.
      { unfold visit_field.
        rewrite (bind_read_done (λ h, member h n k) _ h1 c)
          by by apply (kept_member table h).
        destruct (as_array_is_object _ _ _ Harr) as (lc & oc & -> & Hlc).
        unfold isArray, forEach_array.
        rewrite (kept_as_array table h h1 lc oc Hkept Hlc), Harr.
        rewrite bool_decide_eq_true_2 by by eexists.
        by rewrite Hrun1 by lia. }
      unfold bind. rewrite Hv, Hrun2 by lia. done.
    + by rewrite visited_app, Hin1, Hin2.
    + by rewrite visited_app, Hout1, Hout2.
  - (* no element left *)
    intros c es_all lo n path key0 h1 _ _ Hkept. exists [], h1.
    split; [by exists 0|]. split; [by apply post_nil|]. by split.
  - (* an element *)
    intros e es ns1 ns2 _ IH1 _ IH2 c es_all lo n path key0 h1 Harr Hdrop Hkept.
    assert (es_all !! lo = Some e) as Hlo.
    { rewrite <-(Nat.add_0_r lo), <-lookup_drop, Hdrop. done. }
    assert (drop (S lo) es_all = es) as Hdrop'.
    { replace (S lo) with (lo + 1) by lia.
      by rewrite <-drop_drop, Hdrop. }
    destruct (IH1 n (Some path) (Some key0) (Some lo) h1 Hkept)
      as (t1 & h2 & (f1 & Hrun1) & Hpost1 & Hin1 & Hout1).
    pose proof (post_kept _ _ _ Hkept Hpost1) as Hkept2.
    destruct (IH2 c es_all (S lo) n path key0 h2 Harr Hdrop' Hkept2)
      as (t2 & h3 & (f2 & Hrun2) & Hpost2 & Hin2 & Hout2).
    exists (t1 ++ t2), h3.
    split; [exists (f1 `max` f2)|split; [by eapply post_app|split]].
    + intros fuel Hfuel. simpl. unfold bind.
      unfold forEach_step at 1.
      destruct (as_array_is_object _ _ _ Harr) as (lc & oc & -> & Hlc).
      rewrite (kept_as_array table h h1 lc oc Hkept Hlc), Harr, Hlo.
      rewrite Hrun1 by lia. rewrite Hrun2 by lia. done.
    + by rewrite visited_app, Hin1, Hin2.
    + by rewrite visited_app, Hout1, Hout2.
Qed.

End Course.

(** X23. Hooks that return and that keep, of every object, the type, the
    fields the table lists and the elements, do not change the course of a
    walk: on a tree whose nodes and sequences are all there and all of
    types the table knows, the walk ends normally and enters the same nodes
    in the same order as a walk without hooks, and the store it leaves
    still has what the table reads of the tree. *)
Theorem tending_hooks_keep_course table visitors (h : heap) ast ns :
  closure table h ast ns →
  (∀ f, hook_of visitors f → tends table f) →
  ∃ t h',
    (∃ f0, ∀ fuel, f0 ≤ fuel →
           walk table fuel ast visitors h = (h', t, Ok tt))
    ∧ kept table h h'
    ∧ visited Enter t = ns
    ∧ visited Exit t ≡ₚ ns.
Proof.
  intros Hc Htend.
  unfold walk.
  refine (proj1 (course_closure table visitors h
                   (λ _ h1 h2, kept table h1 h2)
                   (λ h1 _, kept_refl table h1)
                   (λ _ _ h1 h2 h3 _, kept_trans table h1 h2 h3)
                   (λ _ h1 h2, kept_trans table h h1 h2) _)
            ast ns Hc VUndef None None None h (kept_refl table h)).
  intros l o ty d ns' path h1 Hl Hty Hd _ Hpath Hkept.
  assert (∀ ph f h2,
    kept table h h2 →
    (f = None ∨ hook_of visitors (default idle f)) →
    ∃ h3 t, call ph (VStr ty) path f h2 = (h3, t, Ok tt) ∧ kept table h2 h3)
    as Hcall.
  { intros ph f h2 Hkept2 Hf. unfold call. destruct f as [f|].
    - destruct Hf as [?|Hf]; [done|]. simpl in Hf.
      destruct (Hkept2 l o Hl) as (o2 & Hl2 & _).
      destruct (Htend f Hf path l o2 h2 Hpath Hl2) as (v & Hv & Hk).
      destruct (f path h2) as [h3 r]. simpl in Hv, Hk. subst r. eauto.
    - eexists _, _. split; [done|]. apply kept_refl. }
  destruct (Hcall Enter (enter (normalise (visitors !! ty))) h1 Hkept)
    as (h1' & t1 & Henter & Hkept1).
  { destruct (enter (normalise (visitors !! ty))) as [f|] eqn:Hf; [|by left].
    right. exists ty. by left. }
  exists h1', t1. split; [done|]. split; [by eapply kept_trans|].
  intros h2 Hkept2.
  destruct (Hcall Exit (exit (normalise (visitors !! ty))) h2)
    as (h3 & t2 & Hexit & Hkept3).
  { eapply kept_trans; [|done]. by eapply kept_trans. }
  { destruct (exit (normalise (visitors !! ty))) as [f|] eqn:Hf; [|by left].
    right. exists ty. by right. }
  exists h3, t2. split; [done|].
  eapply kept_trans; [done|]. by eapply kept_trans.
Qed.

(** ** The renaming visitor *)

Lemma tables_leave_name table :
  table = astDefinitionsMap ∨ table = visitorKeys →
  (∀ k, read_by table k → k ≠ "name")
  ∧ (∀ d, table !! "Identifier" = Some d → visitor d = None).
Proof.
  intros Htable. split.
  - intros k [->|(ty & d & Hd & Hk)]; [done|]. intros ->.
    destruct Htable as [-> | ->].
    + unfold astDefinitionsMap in Hd. simpl in Hd.
      repeat (apply lookup_insert_Some in Hd as [[_ <-]|[_ Hd]];
              [simpl in Hk;
               repeat (apply elem_of_cons in Hk as [Hk'|Hk];
                       [discriminate Hk'|]);
               by apply elem_of_nil in Hk|]).
      by rewrite lookup_empty in Hd.
    + unfold visitorKeys in Hd. simpl in Hd.
      repeat (apply lookup_insert_Some in Hd as [[_ <-]|[_ Hd]];
              [simpl in Hk;
               repeat (apply elem_of_cons in Hk as [Hk'|Hk];
                       [discriminate Hk'|]);
               by apply elem_of_nil in Hk|]).
      by rewrite lookup_empty in Hd.
  - intros d Hd. destruct Htable as [-> | ->];
      vm_compute in Hd; by injection Hd as <-.
Qed.

Lemma renaming_run (h : heap) l o :
  h !! l = Some o →
  renaming (VRef l) h = (<[l := renamed o]> h, Done VUndef).
Proof. intros Hl. unfold renaming. simpl. by rewrite Hl. Qed.

Lemma renamed_kept table (h : heap) l o :
  (∀ k, read_by table k → k ≠ "name") →
  h !! l = Some o → kept table h (<[l := renamed o]> h).
Proof.
  intros Hname Hl l' o' Hl'. destruct (decide (l' = l)) as [->|Hne].
  - rewrite lookup_insert_eq. eexists. split; [done|].
    assert (o' = o) as -> by congruence. split; [done|].
    intros k Hk. simpl. rewrite lookup_insert_ne; [done|].
    intros <-. by apply (Hname "name").
  - rewrite lookup_insert_ne by done. exists o'. by repeat split.
Qed.

Lemma rename_identifier_kept table (h : heap) n :
  (∀ k, read_by table k → k ≠ "name") →
  kept table h (rename_identifier h n).
Proof.
  intros Hname. unfold rename_identifier.
  destruct n as [| | | | |l]; try apply kept_refl.
  destruct (h !! l) as [o|] eqn:Hl; [|apply kept_refl].
  case_decide; [by apply renamed_kept|apply kept_refl].
Qed.

Lemma foldl_rename_kept table ns :
  (∀ k, read_by table k → k ≠ "name") →
  ∀ h : heap, kept table h (foldl rename_identifier h ns).
Proof.
  intros Hname. induction ns as [|n ns IH]; intros h; simpl.
  - apply kept_refl.
  - eapply kept_trans; [by apply rename_identifier_kept|apply IH].
Qed.

Lemma renamed_type o : props (renamed o) !! "type" = props o !! "type".
Proof. unfold renamed. simpl. by rewrite lookup_insert_ne. Qed.

Lemma renamed_renamed o : renamed (renamed o) = renamed o.
Proof. unfold renamed. simpl. by rewrite insert_insert_eq. Qed.

Lemma fmap_unchanged (f : object → object) (x : option object) :
  (∀ o, x = Some o → f o = o) → f <$> x = x.
Proof. intros Hf. destruct x as [o|]; [|done]. simpl. by rewrite Hf. Qed.

Lemma rename_identifier_lookup (h : heap) n l :
  rename_identifier h n !! l
  = (λ o, if decide (VRef l = n
                     ∧ props o !! "type" = Some (VStr "Identifier"))
          then renamed o else o) <$> h !! l.
Proof.
  assert (VRef l ≠ n →
    h !! l
    = (λ o, if decide (VRef l = n
                       ∧ props o !! "type" = Some (VStr "Identifier"))
            then renamed o else o) <$> h !! l) as Hother.
  { intros Hne. symmetry. apply fmap_unchanged. intros o _.
    case_decide as Hn; [|done]. by destruct Hn. }
  unfold rename_identifier.
  destruct n as [| | | | |l0]; try (by apply Hother).
  destruct (decide (l = l0)) as [->|Hne].
  - clear Hother. destruct (h !! l0) as [o0|] eqn:Hl0; [|by rewrite Hl0].
    cbn [fmap option_fmap option_map].
    destruct (decide (props o0 !! "type" = Some (VStr "Identifier")))
      as [Hty|Hty].
    + rewrite lookup_insert_eq. by rewrite decide_True.
    + rewrite Hl0. rewrite decide_False; [done|]. by intros [_ ?].
  - assert (VRef l ≠ VRef l0) as Hne' by congruence.
    specialize (Hother Hne').
    destruct (h !! l0) as [o0|] eqn:Hl0; [|done].
    destruct (decide (props o0 !! "type" = Some (VStr "Identifier")))
      as [Hty|Hty]; [|done].
    by rewrite lookup_insert_ne.
Qed.

Lemma foldl_rename_lookup ns :
  ∀ (h : heap) l,
    foldl rename_identifier h ns !! l
    = (λ o, if decide (VRef l ∈ ns
                       ∧ props o !! "type" = Some (VStr "Identifier"))
            then renamed o else o) <$> h !! l.
Proof.
  induction ns as [|n ns IH]; intros h l; cbn [foldl].
  - symmetry. apply fmap_unchanged. intros o _.
    case_decide as Hin; [|done]. destruct Hin as [Hin _].
    by apply elem_of_nil in Hin.
  - rewrite IH, rename_identifier_lookup.
    destruct (h !! l) as [o|]; [|done].
    cbn [fmap option_fmap option_map]. f_equal.
    destruct (decide (VRef l = n
                      ∧ props o !! "type" = Some (VStr "Identifier")))
      as [[Hn Hty]|Hno].
    + rewrite (decide_True (P := VRef l ∈ n :: ns ∧ _))
        by (split; [apply elem_of_cons; by left|done]).
      case_decide; [apply renamed_renamed|done].
    + destruct (decide (VRef l ∈ ns
                        ∧ props o !! "type" = Some (VStr "Identifier")))
        as [[Hin Hty]|Hno'].
      * rewrite decide_True; [done|]. split; [|done].
        apply elem_of_cons. by right.
      * rewrite decide_False; [done|]. intros [Hin Hty].
        apply elem_of_cons in Hin as [Heq|Hin]; [by apply Hno|by apply Hno'].
Qed.

(** The course of a walk whose only hooks are, for Identifiers, an enter
    hook that leaves the store alone and the renaming exit hook. *)
Lemma renaming_course table visitors en ex (h : heap) ast ns :
  (∀ k, read_by table k → k ≠ "name") →
  (∀ d, table !! "Identifier" = Some d → visitor d = None) →
  (∀ ty, ty ≠ "Identifier" → visitors !! ty = None) →
  visitors !! "Identifier" = Some (VObject (VisitorFuncs en (Some ex))) →
  (∀ f, en = Some f → ∀ path h1, f path h1 = (h1, Done VUndef)) →
  (∀ path h1, ex path h1 = renaming (node path) h1) →
  closure table h ast ns →
  ∀ p pp k i,
    well_run (λ fuel, traverse table fuel ast visitors p pp k i)
      (λ h1 h2, h2 = foldl rename_identifier h1 ns) ns h.
Proof.
  intros Hname Hleaf Hothers Hident Hen Hex Hc p pp k i.
  refine (proj1 (course_closure table visitors h
                   (λ ns h1 h2, h2 = foldl rename_identifier h1 ns)
                   (λ h1 _, eq_refl) _ _ _)
            ast ns Hc p pp k i h (kept_refl table h)).
  - intros ns1 ns2 h1 h2 h3 _ -> ->. by rewrite foldl_app.
  - intros ns' h1 h2 Hkept ->.
    eapply kept_trans; [done|]. by apply foldl_rename_kept.
  - intros l o ty d ns' path h1 Hl Hty Hd Hcf Hpath Hkept.
    destruct (Hkept l o Hl) as (o1 & Hl1 & _ & Hp1).
    assert (props o1 !! "type" = Some (VStr ty)) as Hty1.
    { rewrite Hp1; [done|by left]. }
    destruct (decide (ty = "Identifier")) as [->|Hne].
    + rewrite Hident. simpl.
      rewrite (Hleaf d Hd) in Hcf. simpl in Hcf.
      inversion Hcf; subst.
      assert (∃ t1, call Enter (VStr "Identifier") path en h1
                    = (h1, t1, Ok tt)) as [t1 Henter].
      { unfold call. destruct en as [f|]; [rewrite (Hen f eq_refl)|]; eauto. }
      exists h1, t1. split; [done|]. split; [done|].
      intros h2 Hh2. cbn [foldl] in Hh2. subst h2.
      exists (<[l := renamed o1]> h1). eexists. split.
      { unfold call. by rewrite Hex, Hpath, (renaming_run h1 l o1 Hl1). }
      cbn [foldl]. unfold rename_identifier. rewrite Hl1.
      by rewrite decide_True.
    + rewrite (Hothers ty Hne). simpl.
      exists h1. eexists. split; [done|]. split; [done|].
      intros h2 ->. exists (foldl rename_identifier h1 ns'). eexists.
      split; [done|]. cbn [foldl]. unfold rename_identifier at 2.
      rewrite Hl1. rewrite decide_False; [done|]. rewrite Hty1. congruence.
Qed.

Lemma renaming_tends table :
  (∀ k, read_by table k → k ≠ "name") → tends table (on_node renaming).
Proof.
  intros Hname path l o h1 Hpath Hl. unfold on_node.
  rewrite Hpath, (renaming_run h1 l o Hl). simpl.
  exists VUndef. split; [done|]. by apply renamed_kept.
Qed.

Lemma tending_hooks_keep_course_witness :
  ∃ t h',
    (∃ f0, ∀ fuel, f0 ≤ fuel →
           walk astDefinitionsMap fuel (VRef 1) visitors_005 scenario_F
           = (h', t, Ok tt))
    ∧ kept astDefinitionsMap scenario_F h'
    ∧ visited Enter t = [VRef 1; VRef 3; VRef 5; VRef 6; VRef 7]
    ∧ visited Exit t ≡ₚ [VRef 1; VRef 3; VRef 5; VRef 6; VRef 7].
Proof.
  apply (tending_hooks_keep_course astDefinitionsMap visitors_005 scenario_F
           (VRef 1) [VRef 1; VRef 3; VRef 5; VRef 6; VRef 7]).
  - exact scenario_F_closure.
  - intros f [ty Hf]. unfold visitors_005 in Hf.
    destruct (decide (ty = "Identifier")) as [->|Hne].
    + rewrite lookup_singleton_eq in Hf. simpl in Hf.
      destruct Hf as [[=]|[= <-]].
      apply renaming_tends.
      apply (tables_leave_name astDefinitionsMap). by left.
    + rewrite lookup_singleton_ne in Hf by done. simpl in Hf.
      destruct Hf as [[=]|[=]].
Defined.

(** X24. The run of [part_004]: on a tree whose nodes and sequences are all
    there and all of types the table knows, the walk with the visitor that
    prints on enter and assigns [node.name = 'b'] on exit of an Identifier
    ends normally, enters the nodes in the order of a walk without hooks,
    and leaves every Identifier of the tree with the name ['b'] and every
    other member of every object as it was; no object is added or lost. *)
Theorem renaming_walk table (h : heap) ast ns :
  table = astDefinitionsMap ∨ table = visitorKeys →
  closure table h ast ns →
  ∃ t h',
    (∃ f0, ∀ fuel, f0 ≤ fuel →
           Part004.traverse table fuel ast visitors_004 h = (h', t, Ok tt))
    ∧ visited Enter t = ns
    ∧ ∀ l, h' !! l
           = (λ o, if decide (VRef l ∈ ns
                              ∧ props o !! "type" = Some (VStr "Identifier"))
                   then renamed o else o) <$> h !! l.
Proof.
  intros Htable Hc. destruct (tables_leave_name table Htable) as [Hname Hleaf].
  assert (∀ ty, ty ≠ "Identifier" → (on_nodes <$> visitors_004) !! ty = None)
    as Hothers.
  { intros ty Hne. rewrite lookup_fmap. unfold visitors_004.
    by rewrite lookup_singleton_ne. }
  assert ((on_nodes <$> visitors_004) !! "Identifier"
          = Some (VObject (VisitorFuncs (Some (on_node logging))
                                        (Some (on_node renaming)))))
    as Hident.
  { rewrite lookup_fmap. unfold visitors_004. by rewrite lookup_singleton_eq. }
  assert (∀ f : hook, Some (on_node logging) = Some f →
            ∀ path h1, f path h1 = (h1, Done VUndef)) as Hen.
  { by intros f [= <-] path h1. }
  destruct (renaming_course table (on_nodes <$> visitors_004)
              (Some (on_node logging)) (on_node renaming) h ast ns Hname Hleaf
              Hothers Hident Hen (λ path h1, eq_refl) Hc VUndef None None None)
    as (t & h' & (f0 & Hrun) & -> & Hin & _).
  exists (nodes_only t), (foldl rename_identifier h ns).
  split; [|split].
  - exists f0. intros fuel Hfuel.
    rewrite (without_paths_traverse table visitors_004 fuel ast VUndef None
               None None h).
    by rewrite (Hrun fuel Hfuel).
  - by rewrite visited_nodes_only.
  - intros l. apply foldl_rename_lookup.
Qed.

Lemma renaming_walk_witness :
  ∃ t h',
    (∃ f0, ∀ fuel, f0 ≤ fuel →
           Part004.traverse astDefinitionsMap fuel (VRef 1) visitors_004
             scenario_F = (h', t, Ok tt))
    ∧ visited Enter t = [VRef 1; VRef 3; VRef 5; VRef 6; VRef 7]
    ∧ h' !! 6%positive
      = Some (plain [("name", VStr "b"); ("type", VStr "Identifier")]).
Proof.
  destruct (renaming_walk astDefinitionsMap scenario_F (VRef 1)
              [VRef 1; VRef 3; VRef 5; VRef 6; VRef 7])
    as (t & h' & Hrun & Hin & Hstore).
  - left. reflexivity.
  - exact scenario_F_closure.
  - exists t, h'. split; [exact Hrun|]. split; [exact Hin|].
    rewrite (Hstore 6%positive). vm_compute. reflexivity.
Defined.

(** X25. The run of [part_005]: with the visitor whose exit hook for an
    Identifier assigns [path.node.name = 'b'], the walker whose paths have
    no key ends normally on such a tree, enters the nodes in the order of a
    walk without hooks, and leaves every Identifier of the tree with the
    name ['b'] and every other member of every object as it was. *)
Theorem renaming_walk_with_paths table (h : heap) ast ns :
  table = astDefinitionsMap ∨ table = visitorKeys →
  closure table h ast ns →
  ∃ t h',
    (∃ f0, ∀ fuel, f0 ≤ fuel →
           Part005.traverse table fuel ast visitors_005 VUndef None h
           = (h', t, Ok tt))
    ∧ visited Enter t = ns
    ∧ ∀ l, h' !! l
           = (λ o, if decide (VRef l ∈ ns
                              ∧ props o !! "type" = Some (VStr "Identifier"))
                   then renamed o else o) <$> h !! l.
Proof.
  intros Htable Hc. destruct (tables_leave_name table Htable) as [Hname Hleaf].
  assert (∀ ty, ty ≠ "Identifier" → (on_shorts <$> visitors_005) !! ty = None)
    as Hothers.
  { intros ty Hne. rewrite lookup_fmap. unfold visitors_005.
    by rewrite lookup_singleton_ne. }
  assert ((on_shorts <$> visitors_005) !! "Identifier"
          = Some (VObject (VisitorFuncs None
                             (Some (on_short (on_node renaming))))))
    as Hident.
  { rewrite lookup_fmap. unfold visitors_005. by rewrite lookup_singleton_eq. }
  assert (∀ f : hook, @None hook = Some f →
            ∀ path h1, f path h1 = (h1, Done VUndef)) as Hen by done.
  assert (∀ path h1,
            on_short (on_node renaming) path h1 = renaming (node path) h1)
    as Hex.
  { intros path h1. unfold on_short, on_node. by destruct path. }
  destruct (renaming_course table (on_shorts <$> visitors_005)
              None (on_short (on_node renaming)) h ast ns Hname Hleaf
              Hothers Hident Hen Hex Hc VUndef None None None)
    as (t & h' & (f0 & Hrun) & -> & Hin & _).
  exists (short_paths t), (foldl rename_identifier h ns).
  split; [|split].
  - exists f0. intros fuel Hfuel.
    pose proof (without_keys_traverse table visitors_005 fuel ast VUndef
                  None None None h) as Hmirror.
    change (short <$> None) with (@None NodePath) in Hmirror.
    rewrite Hmirror. by rewrite (Hrun fuel Hfuel).
  - rewrite <- Hin. unfold short_paths. clear.
    induction t as [|e t IH]; [done|].
    rewrite fmap_cons, !visited_cons. simpl. rewrite IH.
    by destruct (ev_path e).
  - intros l. apply foldl_rename_lookup.
Qed.

Lemma renaming_walk_with_paths_witness :
  ∃ t h',
    (∃ f0, ∀ fuel, f0 ≤ fuel →
           Part005.traverse astDefinitionsMap fuel (VRef 1) visitors_005
             VUndef None scenario_F = (h', t, Ok tt))
    ∧ visited Enter t = [VRef 1; VRef 3; VRef 5; VRef 6; VRef 7]
    ∧ h' !! 7%positive = scenario_F !! 7%positive.
Proof.
  destruct (renaming_walk_with_paths astDefinitionsMap scenario_F (VRef 1)
              [VRef 1; VRef 3; VRef 5; VRef 6; VRef 7])
    as (t & h' & Hrun & Hin & Hstore).
  - left. reflexivity.
  - exact scenario_F_closure.
  - exists t, h'. split; [exact Hrun|]. split; [exact Hin|].
    rewrite (Hstore 7%positive). vm_compute. reflexivity.
Defined.
